(** * Retro-iPod: the view-state navigation engine of [App.tsx]

    A shallow embedding of the React component [App] (src/App.tsx) and of
    the types of src/types.ts.  The component's [useState] cells become the
    fields of one record [State]; every event handler becomes a function
    that reads the state of the render it was created in and returns the
    state after its batched [setX] calls.  What the host supplies (the
    resolver [getYouTubeId], [String.prototype.localeCompare], [Date.now],
    [Math.random], the YouTube player object) is gathered in a record
    [Env].

    Conventions.
    - Strings are sequences of 8-bit code units (U+0000..U+00FF).
    - The selection index is a JavaScript number that the code can drive to
      [NaN] (a remainder by the length of an empty array), hence [Num].
    - Tactile and audio feedback ([triggerVibration], [playScrollSound]),
      rendering and local-storage persistence carry no state of the
      navigation engine and are left out. *)

From Stdlib Require Import ZArith Lia Ascii.
From stdpp Require Import base decidable option list strings sorting.

Local Open Scope string_scope.
Local Open Scope list_scope.
Local Open Scope Z_scope.

(** ** JavaScript values used by the component *)

(** A number that is an integer or [NaN]. *)
Inductive Num := Int (z : Z) | NaN.

#[global] Instance Num_eq_dec : EqDecision Num.
Proof. solve_decision. Defined.

(** [a + b], [a - b] and [a % b] of JavaScript on such numbers; [%] takes
    the sign of the dividend and is [NaN] for a zero divisor. *)
Definition jsAdd (a b : Num) : Num :=
  match a, b with Int x, Int y => Int (x + y) | _, _ => NaN end.

Definition jsSub (a b : Num) : Num :=
  match a, b with Int x, Int y => Int (x - y) | _, _ => NaN end.

Definition jsRem (a b : Num) : Num :=
  match a, b with
  | Int x, Int y => if decide (y = 0) then NaN else Int (Z.rem x y)
  | _, _ => NaN
  end.

(** [arr[i]] for an integer [i]: [undefined] out of range. *)
Definition atZ {A} (l : list A) (i : Z) : option A :=
  if decide (i < 0) then None else l !! Z.to_nat i.

(** [arr[n]] for a number [n]: [arr[NaN]] is [undefined]. *)
Definition atNum {A} (l : list A) (n : Num) : option A :=
  match n with Int z => atZ l z | NaN => None end.

(** [arr.length] as a number. *)
Definition len {A} (l : list A) : Z := Z.of_nat (length l).

(** Truthiness of [string | null]: [null] and the empty string are falsy. *)
Definition truthy (s : option string) : option string :=
  match s with
  | Some v => if decide (v = "") then None else Some v
  | None => None
  end.

(** [arr.splice(start, deleteCount, ...items)]: the array afterwards and the
    removed elements. *)
Definition spliceStart {A} (l : list A) (start : Z) : nat :=
  if decide (start < 0) then Z.to_nat (Z.max (len l + start) 0)
  else Z.to_nat (Z.min start (len l)).

Definition splice {A} (l : list A) (start : Z) (deleteCount : nat)
    (items : list A) : list A * list A :=
  let s := spliceStart l start in
  (take s l ++ items ++ drop (s + deleteCount) l, take deleteCount (drop s l)).

(** *** Strings *)

Definition code (c : ascii) : Z := Z.of_N (Ascii.N_of_ascii c).

(** White space and line terminators of ECMAScript below U+0100. *)
Definition isWhiteSpace (c : ascii) : bool :=
  bool_decide (code c ∈ [9; 10; 11; 12; 13; 32; 160]).

Fixpoint trimStart (s : string) : string :=
  match s with
  | String c s' => if isWhiteSpace c then trimStart s' else s
  | EmptyString => EmptyString
  end.

Definition trimEnd (s : string) : string :=
  String.rev (trimStart (String.rev s)).

(** [s.trim()] *)
Definition trim (s : string) : string := trimEnd (trimStart s).

(** [s.toLowerCase()] on code units below U+0100. *)
Definition lowerChar (c : ascii) : ascii :=
  let n := code c in
  if bool_decide (65 ≤ n ≤ 90 ∨ 192 ≤ n ≤ 214 ∨ 216 ≤ n ≤ 222)
  then Ascii.ascii_of_N (Z.to_N (n + 32)) else c.

Fixpoint toLowerCase (s : string) : string :=
  match s with
  | String c s' => String (lowerChar c) (toLowerCase s')
  | EmptyString => EmptyString
  end.

(** [s.includes(sub)] *)
Fixpoint includes (s sub : string) : bool :=
  String.prefix sub s ||
  match s with
  | String _ s' => includes s' sub
  | EmptyString => false
  end.

(** ** src/types.ts *)

Record Song := { song_id : string; song_title : string }.

Record Playlist := {
  pl_id : string;
  pl_name : string;
  pl_songs : list Song
}.

Inductive View :=
  | main_menu
  | playlists_view           (* 'playlists' *)
  | playlist_view
  | add_song
  | now_playing
  | select_playlist_for_song
  | create_playlist_input
  | song_menu
  | delete_song_confirm
  | delete_playlist_confirm
  | shuffle_confirm
  | edit_song_title.

Inductive PlaybackMode := audio | video.

Inductive RepeatMode := repeat_off | repeat_one | repeat_all.

#[global] Instance Song_eq_dec : EqDecision Song.
Proof. solve_decision. Defined.
#[global] Instance Playlist_eq_dec : EqDecision Playlist.
Proof. solve_decision. Defined.
#[global] Instance View_eq_dec : EqDecision View.
Proof. solve_decision. Defined.
#[global] Instance PlaybackMode_eq_dec : EqDecision PlaybackMode.
Proof. solve_decision. Defined.
#[global] Instance RepeatMode_eq_dec : EqDecision RepeatMode.
Proof. solve_decision. Defined.

(** ** The component state *)

(** The now-playing pointer.  Its fields are written from
    [activePlaylistId!] and [selectedSongIndex!], non-null assertions that
    are not checked when the code runs, so each may hold [null]. *)
Record NowPlaying := {
  playlistId : option string;
  songIndex : option Z
}.

#[global] Instance NowPlaying_eq_dec : EqDecision NowPlaying.
Proof. solve_decision. Defined.

(** A [null] used as a number is 0. *)
Definition toNumber (n : option Z) : Z := default 0 n.

(** Commands sent to the YouTube player object. *)
Inductive PlayerCmd := SeekTo0 | PlayVideo | PauseVideo.

#[global] Instance PlayerCmd_eq_dec : EqDecision PlayerCmd.
Proof. solve_decision. Defined.

Record State := {
  playlists : list Playlist;
  view : View;
  activePlaylistId : option string;
  nowPlaying : option NowPlaying;
  playbackMode : PlaybackMode;
  repeatMode : RepeatMode;
  isPlaying : bool;
  selectedIndex : Num;
  urlInput : string;
  tempSong : option Song;
  newPlaylistName : string;
  draggedItemIndex : option Z;
  dragOverIndex : option Z;
  selectedSongIndex : option Z;
  playlistToDeleteId : option string;
  playlistSearchQuery : string;
  (* the commands issued so far to [ytPlayer.current] *)
  playerCmds : list PlayerCmd
}.

#[global] Instance State_eq_dec : EqDecision State.
Proof. solve_decision. Defined.

(** What the host provides to the handlers of one event. *)
Record Env := {
  (* services/youtubeService: the media identifier of a text, or null *)
  getYouTubeId : string → option string;
  (* a.localeCompare(b, undefined, { sensitivity: 'base' }) *)
  localeCompare : string → string → Z;
  (* Date.now().toString() *)
  now : string;
  (* the k-th call of Math.random, as the integer
     Math.floor(Math.random() * n) it yields for the bound n: [random k]
     reduced modulo n *)
  random : nat → nat;
  (* ytPlayer.current is set *)
  ytPlayer : bool;
  (* isPlayerReady.current *)
  isPlayerReady : bool;
  (* ytPlayer.current.getPlayerState() === PLAYING *)
  playerStatePlaying : bool;
  (* playerTime > 3, where playerTime is ytPlayer.current.getCurrentTime()
     and 0 when there is no player *)
  playerTimeOver3 : bool
}.

(** *** The [setX] functions of [useState] *)

Definition setPlaylists (v : list Playlist) (s : State) : State :=
  {| playlists := v; view := view s; activePlaylistId := activePlaylistId s;
     nowPlaying := nowPlaying s; playbackMode := playbackMode s;
     repeatMode := repeatMode s; isPlaying := isPlaying s;
     selectedIndex := selectedIndex s; urlInput := urlInput s;
     tempSong := tempSong s; newPlaylistName := newPlaylistName s;
     draggedItemIndex := draggedItemIndex s; dragOverIndex := dragOverIndex s;
     selectedSongIndex := selectedSongIndex s;
     playlistToDeleteId := playlistToDeleteId s;
     playlistSearchQuery := playlistSearchQuery s; playerCmds := playerCmds s |}.

Definition setView (v : View) (s : State) : State :=
  {| playlists := playlists s; view := v; activePlaylistId := activePlaylistId s;
     nowPlaying := nowPlaying s; playbackMode := playbackMode s;
     repeatMode := repeatMode s; isPlaying := isPlaying s;
     selectedIndex := selectedIndex s; urlInput := urlInput s;
     tempSong := tempSong s; newPlaylistName := newPlaylistName s;
     draggedItemIndex := draggedItemIndex s; dragOverIndex := dragOverIndex s;
     selectedSongIndex := selectedSongIndex s;
     playlistToDeleteId := playlistToDeleteId s;
     playlistSearchQuery := playlistSearchQuery s; playerCmds := playerCmds s |}.

Definition setActivePlaylistId (v : option string) (s : State) : State :=
  {| playlists := playlists s; view := view s; activePlaylistId := v;
     nowPlaying := nowPlaying s; playbackMode := playbackMode s;
     repeatMode := repeatMode s; isPlaying := isPlaying s;
     selectedIndex := selectedIndex s; urlInput := urlInput s;
     tempSong := tempSong s; newPlaylistName := newPlaylistName s;
     draggedItemIndex := draggedItemIndex s; dragOverIndex := dragOverIndex s;
     selectedSongIndex := selectedSongIndex s;
     playlistToDeleteId := playlistToDeleteId s;
     playlistSearchQuery := playlistSearchQuery s; playerCmds := playerCmds s |}.

Definition setNowPlaying (v : option NowPlaying) (s : State) : State :=
  {| playlists := playlists s; view := view s; activePlaylistId := activePlaylistId s;
     nowPlaying := v; playbackMode := playbackMode s;
     repeatMode := repeatMode s; isPlaying := isPlaying s;
     selectedIndex := selectedIndex s; urlInput := urlInput s;
     tempSong := tempSong s; newPlaylistName := newPlaylistName s;
     draggedItemIndex := draggedItemIndex s; dragOverIndex := dragOverIndex s;
     selectedSongIndex := selectedSongIndex s;
     playlistToDeleteId := playlistToDeleteId s;
     playlistSearchQuery := playlistSearchQuery s; playerCmds := playerCmds s |}.

Definition setPlaybackMode (v : PlaybackMode) (s : State) : State :=
  {| playlists := playlists s; view := view s; activePlaylistId := activePlaylistId s;
     nowPlaying := nowPlaying s; playbackMode := v;
     repeatMode := repeatMode s; isPlaying := isPlaying s;
     selectedIndex := selectedIndex s; urlInput := urlInput s;
     tempSong := tempSong s; newPlaylistName := newPlaylistName s;
     draggedItemIndex := draggedItemIndex s; dragOverIndex := dragOverIndex s;
     selectedSongIndex := selectedSongIndex s;
     playlistToDeleteId := playlistToDeleteId s;
     playlistSearchQuery := playlistSearchQuery s; playerCmds := playerCmds s |}.

Definition setRepeatMode (v : RepeatMode) (s : State) : State :=
  {| playlists := playlists s; view := view s; activePlaylistId := activePlaylistId s;
     nowPlaying := nowPlaying s; playbackMode := playbackMode s;
     repeatMode := v; isPlaying := isPlaying s;
     selectedIndex := selectedIndex s; urlInput := urlInput s;
     tempSong := tempSong s; newPlaylistName := newPlaylistName s;
     draggedItemIndex := draggedItemIndex s; dragOverIndex := dragOverIndex s;
     selectedSongIndex := selectedSongIndex s;
     playlistToDeleteId := playlistToDeleteId s;
     playlistSearchQuery := playlistSearchQuery s; playerCmds := playerCmds s |}.

Definition setIsPlaying (v : bool) (s : State) : State :=
  {| playlists := playlists s; view := view s; activePlaylistId := activePlaylistId s;
     nowPlaying := nowPlaying s; playbackMode := playbackMode s;
     repeatMode := repeatMode s; isPlaying := v;
     selectedIndex := selectedIndex s; urlInput := urlInput s;
     tempSong := tempSong s; newPlaylistName := newPlaylistName s;
     draggedItemIndex := draggedItemIndex s; dragOverIndex := dragOverIndex s;
     selectedSongIndex := selectedSongIndex s;
     playlistToDeleteId := playlistToDeleteId s;
     playlistSearchQuery := playlistSearchQuery s; playerCmds := playerCmds s |}.

Definition setSelectedIndex (v : Num) (s : State) : State :=
  {| playlists := playlists s; view := view s; activePlaylistId := activePlaylistId s;
     nowPlaying := nowPlaying s; playbackMode := playbackMode s;
     repeatMode := repeatMode s; isPlaying := isPlaying s;
     selectedIndex := v; urlInput := urlInput s;
     tempSong := tempSong s; newPlaylistName := newPlaylistName s;
     draggedItemIndex := draggedItemIndex s; dragOverIndex := dragOverIndex s;
     selectedSongIndex := selectedSongIndex s;
     playlistToDeleteId := playlistToDeleteId s;
     playlistSearchQuery := playlistSearchQuery s; playerCmds := playerCmds s |}.

Definition setUrlInput (v : string) (s : State) : State :=
  {| playlists := playlists s; view := view s; activePlaylistId := activePlaylistId s;
     nowPlaying := nowPlaying s; playbackMode := playbackMode s;
     repeatMode := repeatMode s; isPlaying := isPlaying s;
     selectedIndex := selectedIndex s; urlInput := v;
     tempSong := tempSong s; newPlaylistName := newPlaylistName s;
     draggedItemIndex := draggedItemIndex s; dragOverIndex := dragOverIndex s;
     selectedSongIndex := selectedSongIndex s;
     playlistToDeleteId := playlistToDeleteId s;
     playlistSearchQuery := playlistSearchQuery s; playerCmds := playerCmds s |}.

Definition setTempSong (v : option Song) (s : State) : State :=
  {| playlists := playlists s; view := view s; activePlaylistId := activePlaylistId s;
     nowPlaying := nowPlaying s; playbackMode := playbackMode s;
     repeatMode := repeatMode s; isPlaying := isPlaying s;
     selectedIndex := selectedIndex s; urlInput := urlInput s;
     tempSong := v; newPlaylistName := newPlaylistName s;
     draggedItemIndex := draggedItemIndex s; dragOverIndex := dragOverIndex s;
     selectedSongIndex := selectedSongIndex s;
     playlistToDeleteId := playlistToDeleteId s;
     playlistSearchQuery := playlistSearchQuery s; playerCmds := playerCmds s |}.

Definition setNewPlaylistName (v : string) (s : State) : State :=
  {| playlists := playlists s; view := view s; activePlaylistId := activePlaylistId s;
     nowPlaying := nowPlaying s; playbackMode := playbackMode s;
     repeatMode := repeatMode s; isPlaying := isPlaying s;
     selectedIndex := selectedIndex s; urlInput := urlInput s;
     tempSong := tempSong s; newPlaylistName := v;
     draggedItemIndex := draggedItemIndex s; dragOverIndex := dragOverIndex s;
     selectedSongIndex := selectedSongIndex s;
     playlistToDeleteId := playlistToDeleteId s;
     playlistSearchQuery := playlistSearchQuery s; playerCmds := playerCmds s |}.

Definition setDraggedItemIndex (v : option Z) (s : State) : State :=
  {| playlists := playlists s; view := view s; activePlaylistId := activePlaylistId s;
     nowPlaying := nowPlaying s; playbackMode := playbackMode s;
     repeatMode := repeatMode s; isPlaying := isPlaying s;
     selectedIndex := selectedIndex s; urlInput := urlInput s;
     tempSong := tempSong s; newPlaylistName := newPlaylistName s;
     draggedItemIndex := v; dragOverIndex := dragOverIndex s;
     selectedSongIndex := selectedSongIndex s;
     playlistToDeleteId := playlistToDeleteId s;
     playlistSearchQuery := playlistSearchQuery s; playerCmds := playerCmds s |}.

Definition setDragOverIndex (v : option Z) (s : State) : State :=
  {| playlists := playlists s; view := view s; activePlaylistId := activePlaylistId s;
     nowPlaying := nowPlaying s; playbackMode := playbackMode s;
     repeatMode := repeatMode s; isPlaying := isPlaying s;
     selectedIndex := selectedIndex s; urlInput := urlInput s;
     tempSong := tempSong s; newPlaylistName := newPlaylistName s;
     draggedItemIndex := draggedItemIndex s; dragOverIndex := v;
     selectedSongIndex := selectedSongIndex s;
     playlistToDeleteId := playlistToDeleteId s;
     playlistSearchQuery := playlistSearchQuery s; playerCmds := playerCmds s |}.

Definition setSelectedSongIndex (v : option Z) (s : State) : State :=
  {| playlists := playlists s; view := view s; activePlaylistId := activePlaylistId s;
     nowPlaying := nowPlaying s; playbackMode := playbackMode s;
     repeatMode := repeatMode s; isPlaying := isPlaying s;
     selectedIndex := selectedIndex s; urlInput := urlInput s;
     tempSong := tempSong s; newPlaylistName := newPlaylistName s;
     draggedItemIndex := draggedItemIndex s; dragOverIndex := dragOverIndex s;
     selectedSongIndex := v;
     playlistToDeleteId := playlistToDeleteId s;
     playlistSearchQuery := playlistSearchQuery s; playerCmds := playerCmds s |}.

Definition setPlaylistToDeleteId (v : option string) (s : State) : State :=
  {| playlists := playlists s; view := view s; activePlaylistId := activePlaylistId s;
     nowPlaying := nowPlaying s; playbackMode := playbackMode s;
     repeatMode := repeatMode s; isPlaying := isPlaying s;
     selectedIndex := selectedIndex s; urlInput := urlInput s;
     tempSong := tempSong s; newPlaylistName := newPlaylistName s;
     draggedItemIndex := draggedItemIndex s; dragOverIndex := dragOverIndex s;
     selectedSongIndex := selectedSongIndex s;
     playlistToDeleteId := v;
     playlistSearchQuery := playlistSearchQuery s; playerCmds := playerCmds s |}.

Definition setPlaylistSearchQuery (v : string) (s : State) : State :=
  {| playlists := playlists s; view := view s; activePlaylistId := activePlaylistId s;
     nowPlaying := nowPlaying s; playbackMode := playbackMode s;
     repeatMode := repeatMode s; isPlaying := isPlaying s;
     selectedIndex := selectedIndex s; urlInput := urlInput s;
     tempSong := tempSong s; newPlaylistName := newPlaylistName s;
     draggedItemIndex := draggedItemIndex s; dragOverIndex := dragOverIndex s;
     selectedSongIndex := selectedSongIndex s;
     playlistToDeleteId := playlistToDeleteId s;
     playlistSearchQuery := v; playerCmds := playerCmds s |}.

(** [ytPlayer.current?.cmd()]: sent only when the player object exists. *)
Definition sendPlayer (env : Env) (c : list PlayerCmd) (s : State) : State :=
  {| playlists := playlists s; view := view s; activePlaylistId := activePlaylistId s;
     nowPlaying := nowPlaying s; playbackMode := playbackMode s;
     repeatMode := repeatMode s; isPlaying := isPlaying s;
     selectedIndex := selectedIndex s; urlInput := urlInput s;
     tempSong := tempSong s; newPlaylistName := newPlaylistName s;
     draggedItemIndex := draggedItemIndex s; dragOverIndex := dragOverIndex s;
     selectedSongIndex := selectedSongIndex s;
     playlistToDeleteId := playlistToDeleteId s;
     playlistSearchQuery := playlistSearchQuery s;
     playerCmds := if ytPlayer env then playerCmds s ++ c else playerCmds s |}.

(** The state updates a handler queues, applied in the order of the calls. *)
Definition batch (updates : list (State → State)) (s : State) : State :=
  foldl (λ acc u, u acc) s updates.

(** A handler is a closure over the state [st] of the render that created
    it: it reads [st] and queues updates.  [setX(v)] is [setX v];
    [setX(prev => f prev)] reads the queued value, not the closure's. *)
Definition Updates := list (State → State).

Definition exec (h : State → Updates) (st : State) : State := batch (h st) st.

Definition updPlaylists (f : list Playlist → list Playlist) (acc : State) : State :=
  setPlaylists (f (playlists acc)) acc.

Definition updSelectedIndex (f : Num → Num) (acc : State) : State :=
  setSelectedIndex (f (selectedIndex acc)) acc.

Definition updPlaybackMode (f : PlaybackMode → PlaybackMode) (acc : State) : State :=
  setPlaybackMode (f (playbackMode acc)) acc.

Definition updRepeatMode (f : RepeatMode → RepeatMode) (acc : State) : State :=
  setRepeatMode (f (repeatMode acc)) acc.

(** A handler that may stop on a TypeError (a property read on
    [undefined]); the updates queued before the throw remain queued. *)
Inductive Run := Done (us : Updates) | Throw (us : Updates).

(** ** Derived values of a render *)

Definition menuItems : list string :=
  ["Playlists"; "Add YouTube URL"; "Now Playing"].

Definition nowPlayingMenuItems : list string :=
  ["prev"; "play-pause"; "next"; "playback-mode"; "repeat-mode"].

Definition songMenuItems : list string := ["Play"].

Definition confirmItems : list string := ["No"; "Yes"].

Definition playlistItems (st : State) : list Playlist :=
  if decide (playlistSearchQuery st = "") then playlists st
  else filter (λ p, includes (toLowerCase (pl_name p))
                             (toLowerCase (playlistSearchQuery st)) = true)
              (playlists st).

Definition playlistMenuItems (st : State) : list Playlist :=
  playlistItems st ++
  [{| pl_id := "CREATE_NEW"; pl_name := "+ Create New Playlist"; pl_songs := [] |}].

(** [playlists.find(p => p.id === id)]; no playlist has the id [null]. *)
Definition findPlaylist (id : option string) (ps : list Playlist) : option Playlist :=
  snd <$> list_find (λ p, Some (pl_id p) = id) ps.

(** [songs.findIndex(s => s.id === id)], [None] standing for -1. *)
Definition findSongIndex (id : string) (songs : list Song) : option nat :=
  fst <$> list_find (λ s, song_id s = id) songs.

Definition activePlaylist (st : State) : option Playlist :=
  findPlaylist (activePlaylistId st) (playlists st).

(** [songs[i]] for [i : number | null]; [songs[null]] is [undefined]. *)
Definition atIndex {A} (l : list A) (i : option Z) : option A :=
  i ≫= atZ l.

Definition currentSong (st : State) : option Song :=
  np ← nowPlaying st;
  p ← findPlaylist (playlistId np) (playlists st);
  atIndex (pl_songs p) (songIndex np).

Definition SHUFFLE_PLAYLIST : Song :=
  {| song_id := "SHUFFLE_PLAYLIST"; song_title := "Shuffle Playlist" |}.

Definition DELETE_PLAYLIST : Song :=
  {| song_id := "DELETE_PLAYLIST"; song_title := "Delete This Playlist" |}.

Definition getPlaylistViewItems (st : State) : list Song :=
  match activePlaylist st with
  | None => []
  | Some p =>
      (if decide (0 < len (pl_songs p)) then SHUFFLE_PLAYLIST :: pl_songs p else [])
      ++ [DELETE_PLAYLIST]
  end.

(** The list built in place by the select-playlist-for-song view. *)
Definition selectPlaylistItems (st : State) : list Playlist :=
  playlists st ++
  [{| pl_id := "new"; pl_name := "Create New Playlist"; pl_songs := [] |}].

(** ** Navigation *)

Inductive Direction := next | prev.

Definition navigate {T} (items : list T) (direction : Direction) : Updates :=
  [updSelectedIndex (λ p,
     match direction with
     | next => jsRem (jsAdd p (Int 1)) (Int (len items))
     | prev => jsRem (jsAdd (jsSub p (Int 1)) (Int (len items))) (Int (len items))
     end)].

(** [handleNext] and [handlePrev] are one and the same [switch] over the
    view, the first calling [navigate] with 'next' and the second with
    'prev'. *)
Definition handleWheel (direction : Direction) (st : State) : Updates :=
  match view st with
  | main_menu => navigate menuItems direction
  | playlists_view => navigate (playlistMenuItems st) direction
  | playlist_view => navigate (getPlaylistViewItems st) direction
  | select_playlist_for_song => navigate (selectPlaylistItems st) direction
  | song_menu => navigate songMenuItems direction
  | delete_song_confirm | delete_playlist_confirm | shuffle_confirm =>
      navigate confirmItems direction
  | now_playing => navigate nowPlayingMenuItems direction
  | add_song | create_playlist_input | edit_song_title => []
  end.

Definition handleNext : State → Updates := handleWheel next.
Definition handlePrev : State → Updates := handleWheel prev.

(** ** Playback coordinator *)

Definition withSongIndex (np : NowPlaying) (i : Z) : option NowPlaying :=
  Some {| playlistId := playlistId np; songIndex := Some i |}.

Definition handleNextTrack (st : State) : Updates :=
  match nowPlaying st with
  | None => []
  | Some np =>
      match findPlaylist (playlistId np) (playlists st) with
      | None => []
      | Some playlist =>
          let nextIndex := toNumber (songIndex np) + 1 in
          if decide (nextIndex < len (pl_songs playlist))
          then [setNowPlaying (withSongIndex np nextIndex)]
          else if decide (repeatMode st = repeat_all)
          then [setNowPlaying (withSongIndex np 0)]
          else []
      end
  end.

Definition handlePrevTrack (env : Env) (st : State) : Updates :=
  match nowPlaying st with
  | None => []
  | Some np =>
      if playerTimeOver3 env then [sendPlayer env [SeekTo0]]
      else if decide (0 < toNumber (songIndex np))
      then [setNowPlaying (withSongIndex np (toNumber (songIndex np) - 1))]
      else
        match findPlaylist (playlistId np) (playlists st) with
        | Some playlist =>
            if decide (repeatMode st = repeat_all ∧ 0 < len (pl_songs playlist))
            then [setNowPlaying (withSongIndex np (len (pl_songs playlist) - 1))]
            else [sendPlayer env [SeekTo0]]
        | None => [sendPlayer env [SeekTo0]]
        end
  end.

Definition handleSongEnd (env : Env) (st : State) : Updates :=
  match nowPlaying st with
  | None => []
  | Some np =>
      match findPlaylist (playlistId np) (playlists st) with
      | None => [setIsPlaying false]
      | Some playlist =>
          if decide (len (pl_songs playlist) = 0) then [setIsPlaying false]
          else
            let nextIndex := toNumber (songIndex np) + 1 in
            match repeatMode st with
            | repeat_one => [sendPlayer env [SeekTo0; PlayVideo]]
            | repeat_all =>
                [setNowPlaying
                   (withSongIndex np (Z.rem nextIndex (len (pl_songs playlist))))]
            | repeat_off =>
                if decide (nextIndex < len (pl_songs playlist))
                then [setNowPlaying (withSongIndex np nextIndex)]
                else [setIsPlaying false]
            end
      end
  end.

Definition handlePlayPause (env : Env) (st : State) : Updates :=
  if ytPlayer env && isPlayerReady env then
    if playerStatePlaying env then [sendPlayer env [PauseVideo]]
    else [sendPlayer env [PlayVideo]]
  else
    match currentSong st with
    | Some _ => [setIsPlaying (negb (isPlaying st))]
    | None =>
        match playlists st with
        | p0 :: _ =>
            if decide (0 < len (pl_songs p0))
            then [setNowPlaying (Some {| playlistId := Some (pl_id p0);
                                         songIndex := Some 0 |});
                  setView now_playing]
            else []
        | [] => []
        end
    end.

(** ** The menu button *)

Definition handleMenu (st : State) : Updates :=
  setSelectedIndex (Int 0) ::
  match view st with
  | playlists_view => [setView main_menu; setPlaylistSearchQuery ""]
  | playlist_view => [setView playlists_view; setActivePlaylistId None]
  | add_song =>
      (if decide (0 < len (playlists st)) then [setView main_menu] else [])
      ++ [setUrlInput ""]
  | now_playing =>
      [setView (match truthy (activePlaylistId st) with
                | Some _ => playlist_view
                | None => main_menu
                end)]
  | select_playlist_for_song => [setView add_song; setTempSong None]
  | create_playlist_input =>
      [setView (match tempSong st with
                | Some _ => select_playlist_for_song
                | None => playlists_view
                end);
       setNewPlaylistName ""]
  | song_menu => [setView playlist_view; setSelectedSongIndex None]
  | delete_song_confirm => [setView song_menu]
  | delete_playlist_confirm => [setView playlist_view; setPlaylistToDeleteId None]
  | shuffle_confirm => [setView playlist_view]
  | main_menu | edit_song_title =>
      if decide (0 < len (playlists st) ∧ view st ≠ main_menu)
      then [setView main_menu] else []
  end.

(** ** Data operations *)

Definition withSongs (p : Playlist) (songs : list Song) : Playlist :=
  {| pl_id := pl_id p; pl_name := pl_name p; pl_songs := songs |}.

Definition addSongToPlaylist (playlistId : string) (song : Song) (st : State)
    : Updates :=
  [updPlaylists (map (λ p, if decide (pl_id p = playlistId)
                           then withSongs p (pl_songs p ++ [song]) else p));
   setTempSong None;
   setActivePlaylistId (Some playlistId);
   setView playlist_view;
   setSelectedIndex
     (Int (match findPlaylist (Some playlistId) (playlists st) with
           | Some p => len (pl_songs p)
           | None => 0
           end))].

(** [arr.sort(cmp)]: the stable sort, written as insertion from the right
    (what every conforming engine returns for a consistent comparator). *)
Fixpoint insertSorted {A} (cmp : A → A → Z) (x : A) (l : list A) : list A :=
  match l with
  | [] => [x]
  | y :: l' => if decide (cmp x y ≤ 0) then x :: y :: l'
               else y :: insertSorted cmp x l'
  end.

Definition sortBy {A} (cmp : A → A → Z) (l : list A) : list A :=
  foldr (insertSorted cmp) [] l.

Definition compareNames (env : Env) (a b : Playlist) : Z :=
  localeCompare env (pl_name a) (pl_name b).

Definition handleCreatePlaylist (env : Env) (st : State) : Updates :=
  if decide (trim (newPlaylistName st) = "") then []
  else
    let newPlaylist :=
      {| pl_id := now env;
         pl_name := newPlaylistName st;
         pl_songs := match tempSong st with Some s => [s] | None => [] end |} in
    let updatedPlaylists :=
      sortBy (compareNames env) (playlists st ++ [newPlaylist]) in
    [setPlaylists updatedPlaylists; setNewPlaylistName ""; setTempSong None] ++
    match tempSong st with
    | Some _ =>
        [setActivePlaylistId (Some (pl_id newPlaylist));
         setView playlist_view;
         setSelectedIndex (Int 0)]
    | None =>
        [setView playlists_view;
         setSelectedIndex
           (Int (match list_find (λ p, pl_id p = pl_id newPlaylist)
                                 updatedPlaylists with
                 | Some (newIndex, _) => Z.of_nat newIndex
                 | None => 0
                 end))]
    end.

Definition handleDeleteSong (st : State) : Updates :=
  match activePlaylistId st, selectedSongIndex st with
  | Some pid, Some k =>
      [updPlaylists (map (λ p, if decide (pl_id p = pid)
                               then withSongs p (splice (pl_songs p) k 1 []).1
                               else p));
       setView playlist_view;
       setSelectedSongIndex None;
       setSelectedIndex (Int 0)]
  | _, _ => []
  end.

Definition handleDeletePlaylist (st : State) : Updates :=
  match truthy (playlistToDeleteId st) with
  | None => []
  | Some pid =>
      [updPlaylists (filter (λ p, pl_id p ≠ pid));
       setView playlists_view;
       setPlaylistToDeleteId None;
       setSelectedIndex (Int 0)]
  end.

(** [[a[i], a[j]] = [a[j], a[i]]] *)
Definition swap {A} (l : list A) (i j : nat) : list A :=
  match l !! i, l !! j with
  | Some x, Some y => <[j:=x]> (<[i:=y]> l)
  | _, _ => l
  end.

(** The loop [for (i = ...; i > 0; i--)] of the Fisher-Yates shuffle, entered
    at [i] after [k] calls of [Math.random]. *)
Fixpoint fisherYates {A} (rnd : nat → nat) (k i : nat) (l : list A) : list A :=
  match i with
  | O => l
  | S i' => fisherYates rnd (S k) i' (swap l i (rnd k `mod` (i + 1))%nat)
  end.

Definition shuffleSongs (rnd : nat → nat) (k : nat) (songs : list Song) : list Song :=
  fisherYates rnd k (length songs - 1) songs.

(** [prev.map(p => p.id === activePlaylistId ? shuffled p : p)], the calls
    of [Math.random] numbered across the whole map. *)
Fixpoint shufflePlaylists (rnd : nat → nat) (k : nat) (pid : string)
    (ps : list Playlist) : list Playlist :=
  match ps with
  | [] => []
  | p :: ps' =>
      if decide (pl_id p = pid)
      then withSongs p (shuffleSongs rnd k (pl_songs p))
           :: shufflePlaylists rnd (k + (length (pl_songs p) - 1))%nat pid ps'
      else p :: shufflePlaylists rnd k pid ps'
  end.

Definition handleShufflePlaylist (env : Env) (st : State) : Updates :=
  match truthy (activePlaylistId st) with
  | None => []
  | Some pid =>
      [updPlaylists (shufflePlaylists (random env) 0 pid);
       setNowPlaying (Some {| playlistId := Some pid; songIndex := Some 0 |});
       setView now_playing]
  end.

Definition handleAddSongUrl (env : Env) (st : State) : Updates :=
  match truthy (getYouTubeId env (urlInput st)) with
  | Some videoId =>
      [setTempSong (Some {| song_id := videoId;
                            song_title := "Song: " +:+ videoId |});
       setView select_playlist_for_song;
       setUrlInput "";
       setSelectedIndex (Int 0)]
  | None => []   (* alert('Invalid YouTube URL') *)
  end.

(** ** Activation handlers *)

Definition handleMainMenuSelection (index : Num) (st : State) : Updates :=
  let selectedMenu := atNum menuItems index in
  [setSelectedIndex index] ++
  (if decide (selectedMenu = Some "Playlists") then [setView playlists_view] else []) ++
  (if decide (selectedMenu = Some "Add YouTube URL") then [setView add_song] else []) ++
  (if decide (selectedMenu = Some "Now Playing" ∧ is_Some (currentSong st))
   then [setView now_playing] else []) ++
  [setSelectedIndex (Int 0)].

Definition handlePlaylistsSelection (index : Num) (st : State) : Run :=
  match atNum (playlistMenuItems st) index with
  | None => Throw [setSelectedIndex index]
  | Some selectedPlaylistItem =>
      Done ([setSelectedIndex index] ++
            (if decide (pl_id selectedPlaylistItem = "CREATE_NEW")
             then [setView create_playlist_input]
             else [setActivePlaylistId (Some (pl_id selectedPlaylistItem));
                   setView playlist_view]) ++
            [setSelectedIndex (Int 0); setPlaylistSearchQuery ""])
  end.

Definition handlePlaylistViewSelection (index : Num) (st : State) : Updates :=
  match atNum (getPlaylistViewItems st) index with
  | None => [setSelectedIndex index]
  | Some selectedItem =>
      [setSelectedIndex index] ++
      (if decide (song_id selectedItem = "SHUFFLE_PLAYLIST")
       then [setView shuffle_confirm]
       else if decide (song_id selectedItem = "DELETE_PLAYLIST")
       then [setPlaylistToDeleteId (activePlaylistId st);
             setView delete_playlist_confirm]
       else
         match activePlaylist st ≫= λ p, findSongIndex (song_id selectedItem) (pl_songs p) with
         | Some songIndex =>
             [setSelectedSongIndex (Some (Z.of_nat songIndex)); setView song_menu]
         | None => []
         end) ++
      [setSelectedIndex (Int 0)]
  end.

Definition handleSongMenuSelection (index : Num) (st : State) : Updates :=
  [setSelectedIndex index] ++
  (if decide (index = Int 0)
   then [setNowPlaying (Some {| playlistId := activePlaylistId st;
                                songIndex := selectedSongIndex st |});
         setView now_playing]
   else []) ++
  [setSelectedIndex (Int 0)].

Definition handleConfirmation (env : Env) (index : Num) (st : State) : Updates :=
  [setSelectedIndex index] ++
  if decide (index = Int 1) then
    match view st with
    | delete_song_confirm => handleDeleteSong st
    | delete_playlist_confirm => handleDeletePlaylist st
    | shuffle_confirm => handleShufflePlaylist env st
    | _ => []
    end
  else
    match view st with
    | delete_song_confirm => [setView song_menu]
    | delete_playlist_confirm => [setView playlist_view; setPlaylistToDeleteId None]
    | shuffle_confirm => [setView playlist_view]
    | _ => []
    end ++ [setSelectedIndex (Int 0)].

Definition handleSelectPlaylistForSongSelection (index : Num) (st : State) : Run :=
  match atNum (selectPlaylistItems st) index with
  | None => Throw [setSelectedIndex index]
  | Some selection =>
      Done ([setSelectedIndex index] ++
            if decide (pl_id selection = "new") then [setView create_playlist_input]
            else match tempSong st with
                 | Some song => addSongToPlaylist (pl_id selection) song st
                 | None => []
                 end)
  end.

Definition handleNowPlayingSelection (env : Env) (index : Num) (st : State)
    : Updates :=
  let selectedAction := atNum nowPlayingMenuItems index in
  [setSelectedIndex index] ++
  if decide (selectedAction = Some "prev") then handlePrevTrack env st
  else if decide (selectedAction = Some "play-pause") then handlePlayPause env st
  else if decide (selectedAction = Some "next") then handleNextTrack st
  else if decide (selectedAction = Some "playback-mode")
  then [updPlaybackMode (λ p, match p with video => audio | audio => video end)]
  else if decide (selectedAction = Some "repeat-mode")
  then [updRepeatMode (λ p, match p with
                            | repeat_off => repeat_all
                            | repeat_all => repeat_one
                            | repeat_one => repeat_off
                            end)]
  else [].

Definition handleCenterClick (env : Env) (st : State) : Run :=
  match view st with
  | main_menu => Done (handleMainMenuSelection (selectedIndex st) st)
  | playlists_view => handlePlaylistsSelection (selectedIndex st) st
  | playlist_view => Done (handlePlaylistViewSelection (selectedIndex st) st)
  | song_menu => Done (handleSongMenuSelection (selectedIndex st) st)
  | delete_song_confirm | delete_playlist_confirm | shuffle_confirm =>
      Done (handleConfirmation env (selectedIndex st) st)
  | add_song => Done (handleAddSongUrl env st)
  | select_playlist_for_song =>
      handleSelectPlaylistForSongSelection (selectedIndex st) st
  | create_playlist_input => Done (handleCreatePlaylist env st)
  | now_playing => Done (handleNowPlayingSelection env (selectedIndex st) st)
  | edit_song_title => Done []
  end.

Definition handleCenterLongPress (st : State) : Updates :=
  if decide (view st = playlist_view) then
    match activePlaylist st with
    | Some ap =>
        match atNum (getPlaylistViewItems st) (selectedIndex st) with
        | Some selectedItem =>
            if decide (song_id selectedItem ≠ "SHUFFLE_PLAYLIST"
                       ∧ song_id selectedItem ≠ "DELETE_PLAYLIST")
            then match findSongIndex (song_id selectedItem) (pl_songs ap) with
                 | Some songIndex =>
                     [setSelectedSongIndex (Some (Z.of_nat songIndex));
                      setView delete_song_confirm;
                      setSelectedIndex (Int 0)]
                 | None => []
                 end
            else []
        | None => []
        end
    | None => []
    end
  else [].

(** ** Drag to reorder *)

(** [itemIndexInView - (activePlaylist && activePlaylist.songs.length > 0 ? 1 : 0)] *)
Definition dragSongIndex (itemIndexInView : Z) (st : State) : Z :=
  itemIndexInView -
  match activePlaylist st with
  | Some ap => if decide (0 < len (pl_songs ap)) then 1 else 0
  | None => 0
  end.

Definition handleDragStart (itemIndexInView : Z) (st : State) : Updates :=
  [setDraggedItemIndex (Some (dragSongIndex itemIndexInView st))].

(** [None]: the first [splice] removed nothing, so [removed] is [undefined]
    and the second [splice] would put it into the [Song[]]; such an array is
    outside the model. *)
Definition handleDragEnter (itemIndexInView : Z) (st : State) : option Updates :=
  match draggedItemIndex st, activePlaylist st with
  | Some dragged, Some ap =>
      let songIndex := dragSongIndex itemIndexInView st in
      if decide (songIndex < 0 ∨ len (pl_songs ap) ≤ songIndex)
      then Some [setDragOverIndex None]
      else if decide (dragged = songIndex)
      then Some [setDragOverIndex (Some songIndex)]
      else
        let (newSongs, removedList) := splice (pl_songs ap) dragged 1 [] in
        match removedList with
        | removed :: _ =>
            let newSongs' := (splice newSongs songIndex 0 [removed]).1 in
            Some [setDragOverIndex (Some songIndex);
                  setPlaylists
                    (map (λ p, if decide (Some (pl_id p) = activePlaylistId st)
                               then withSongs p newSongs' else p)
                         (playlists st));
                  setDraggedItemIndex (Some songIndex)]
        | [] => None
        end
  | _, _ => Some []
  end.

Definition handleDragEnd (st : State) : Updates :=
  [setDraggedItemIndex None; setDragOverIndex None].

(** ** Renders and events *)

(** [useEffect(() => { if (view === 'playlists') setSelectedIndex(0) },
    [playlistSearchQuery, view])]: run after the render that follows an
    event, when one of its two dependencies changed. *)
Definition commit (before after : State) : State :=
  if decide (view after = playlists_view
             ∧ (view before ≠ view after
                ∨ playlistSearchQuery before ≠ playlistSearchQuery after))
  then setSelectedIndex (Int 0) after
  else after.

(** The state of the first render, from the playlists read from storage. *)
Definition initialState (initialPlaylists : list Playlist) : State :=
  {| playlists := initialPlaylists;
     view := if decide (0 < len initialPlaylists
                        ∧ Exists (λ p, 0 < len (pl_songs p)) initialPlaylists)
             then main_menu else add_song;
     activePlaylistId := None;
     nowPlaying := None;
     playbackMode := video;
     repeatMode := repeat_off;
     isPlaying := false;
     selectedIndex := Int 0;
     urlInput := "";
     tempSong := None;
     newPlaylistName := "";
     draggedItemIndex := None;
     dragOverIndex := None;
     selectedSongIndex := None;
     playlistToDeleteId := None;
     playlistSearchQuery := "";
     playerCmds := [] |}.

(** The outcome of one event: the next render's state, and whether the
    handler threw. *)
Inductive Outcome := Ok (st : State) | TypeError (st : State).

Definition stateOf (o : Outcome) : State :=
  match o with Ok st | TypeError st => st end.

Definition onNext (st : State) : State := commit st (exec handleNext st).
Definition onPrev (st : State) : State := commit st (exec handlePrev st).
Definition onMenu (st : State) : State := commit st (exec handleMenu st).
Definition onCenterLongPress (st : State) : State :=
  commit st (exec handleCenterLongPress st).
Definition onPlayPause (env : Env) (st : State) : State :=
  commit st (exec (handlePlayPause env) st).
Definition onTrackEnded (env : Env) (st : State) : State :=
  commit st (exec (handleSongEnd env) st).

Definition onCenter (env : Env) (st : State) : Outcome :=
  match handleCenterClick env st with
  | Done us => Ok (commit st (batch us st))
  | Throw us => TypeError (commit st (batch us st))
  end.

(** The inputs of the click wheel. *)
Inductive Input := Next | Prev | Center | CenterLongPress | Menu.

Definition step (env : Env) (i : Input) (st : State) : State :=
  match i with
  | Next => onNext st
  | Prev => onPrev st
  | Center => stateOf (onCenter env st)
  | CenterLongPress => onCenterLongPress st
  | Menu => onMenu st
  end.

Definition run (env : Env) (inputs : list Input) (st : State) : State :=
  foldl (λ s i, step env i s) st inputs.

(** The states the wheel reaches from a first render. *)
Inductive reachable (env : Env) : State → Prop :=
  | reachable_init ps : reachable env (initialState ps)
  | reachable_step i st : reachable env st → reachable env (step env i st).

(** ** Predicates used in the statements *)

(** The length N of the item list the current view shows; the two text
    entry views and the unused view show none. *)
Definition viewItemsLength (st : State) : nat :=
  match view st with
  | main_menu => length menuItems
  | playlists_view => length (playlistMenuItems st)
  | playlist_view => length (getPlaylistViewItems st)
  | select_playlist_for_song => length (selectPlaylistItems st)
  | song_menu => length songMenuItems
  | delete_song_confirm | delete_playlist_confirm | shuffle_confirm =>
      length confirmItems
  | now_playing => length nowPlayingMenuItems
  | add_song | create_playlist_input | edit_song_title => 0
  end.

(** [0 <= index < max(1, N)] *)
Definition indexInRange (st : State) : Prop :=
  ∃ i, selectedIndex st = Int i ∧ 0 ≤ i < Z.max 1 (Z.of_nat (viewItemsLength st)).

#[global] Instance indexInRange_dec st : Decision (indexInRange st).
Proof.
  unfold indexInRange. destruct (selectedIndex st) as [z|].
  - destruct (decide (0 ≤ z < Z.max 1 (Z.of_nat (viewItemsLength st)))).
    + left. eauto.
    + right. intros (i & [= <-] & ?). contradiction.
  - right. intros (i & [=] & _).
Defined.

(** The views in which the wheel moves the selection (those with a case in
    [handleNext] and [handlePrev]). *)
Definition navigable (v : View) : bool :=
  match v with
  | add_song | create_playlist_input | edit_song_title => false
  | _ => true
  end.

(** A consistent comparator in the sense of [Array.prototype.sort]: the
    sign of [cmp] is a total preorder. *)
Record ConsistentComparator {A} (cmp : A → A → Z) : Prop := {
  cmp_flip : ∀ a b, cmp a b < 0 ↔ 0 < cmp b a;
  cmp_trans : ∀ a b c, cmp a b ≤ 0 → cmp b c ≤ 0 → cmp a c ≤ 0
}.

(** [a] comes no later than [b] in the host's name ordering. *)
Definition nameLe (env : Env) (a b : Playlist) : Prop :=
  localeCompare env (pl_name a) (pl_name b) ≤ 0.

(** How a playlist [p'] after the shuffle of the playlist [pid] relates to
    the playlist [p] before it. *)
Definition shuffledFrom (pid : string) (p p' : Playlist) : Prop :=
  pl_id p' = pl_id p ∧ pl_name p' = pl_name p ∧
  if decide (pl_id p = pid)
  then pl_songs p' ≡ₚ pl_songs p ∧ length (pl_songs p') = length (pl_songs p)
  else pl_songs p' = pl_songs p.

(** The now-playing pointer names a playlist that exists and an index
    inside it. *)
Definition pointerInRange (st : State) : Prop :=
  ∃ np p, nowPlaying st = Some np
    ∧ findPlaylist (playlistId np) (playlists st) = Some p
    ∧ 0 ≤ toNumber (songIndex np) < len (pl_songs p).


(** [arr] with the element at [i] taken out and put back at [j]. *)
Definition moved {A} (l : list A) (i j : nat) : list A :=
  match l !! i with
  | Some x => take j (delete i l) ++ x :: drop j (delete i l)
  | None => l
  end.

(** ** A sample host and sample data for the examples *)

(** Comparison by code units after case folding: how [localeCompare] with
    sensitivity 'base' orders names made of unaccented Latin letters. *)
Fixpoint compareCodeUnits (a b : string) : Z :=
  match a, b with
  | EmptyString, EmptyString => 0
  | EmptyString, String _ _ => -1
  | String _ _, EmptyString => 1
  | String x a', String y b' =>
      if decide (code x < code y) then -1
      else if decide (code y < code x) then 1
      else compareCodeUnits a' b'
  end.

Definition baseCompare (a b : string) : Z :=
  compareCodeUnits (toLowerCase a) (toLowerCase b).

Definition sampleEnv : Env :=
  {| getYouTubeId := λ text,
       if decide (text = "https://www.youtube.com/watch?v=abc123")
       then Some "abc123" else None;
     localeCompare := baseCompare;
     now := "1700000000000";
     random := λ k, k;
     ytPlayer := true;
     isPlayerReady := false;
     playerStatePlaying := false;
     playerTimeOver3 := false |}.

Definition song (id : string) : Song :=
  {| song_id := id; song_title := "Song: " +:+ id |}.

Definition playlistA : Playlist :=
  {| pl_id := "1"; pl_name := "A"; pl_songs := [song "s1"] |}.

Definition playlistZ : Playlist :=
  {| pl_id := "2"; pl_name := "z"; pl_songs := [] |}.

Definition fourSongs : Playlist :=
  {| pl_id := "4"; pl_name := "Mix";
     pl_songs := [song "s0"; song "s1"; song "s2"; song "s3"] |}.

Definition threeSongs : Playlist :=
  {| pl_id := "3"; pl_name := "Trio";
     pl_songs := [song "s0"; song "s1"; song "s2"] |}.

(** Seventeen inputs of the wheel from the first render with [playlistA]
    and [playlistZ]: play the song of A, go back and delete Z (which stays
    the active playlist id), return to now-playing through the root menu
    and press menu.  The view is then playlist-contents of a playlist that
    no longer exists. *)
Definition toMissingPlaylist : list Input :=
  [Center; Center; Next; Center; Center; Menu; Menu; Next; Center; Center;
   Next; Center; Menu; Next; Next; Center; Menu].

(** The select-playlist-for-song view with a staged song. *)
Definition stagedFor (ps : list Playlist) (s : Song) (index : Z) : State :=
  setSelectedIndex (Int index)
    (setTempSong (Some s) (setView select_playlist_for_song (initialState ps))).

(** The create-playlist-input view with a typed name. *)
Definition typedName (ps : list Playlist) (name : string) : State :=
  setNewPlaylistName name (setView create_playlist_input (initialState ps)).

(** A playlist opened in playlist-contents, with the pointer on one of its
    songs. *)
Definition playingFrom (p : Playlist) (index : Z) (mode : RepeatMode) : State :=
  setRepeatMode mode
    (setNowPlaying (Some {| playlistId := Some (pl_id p); songIndex := Some index |})
       (setActivePlaylistId (Some (pl_id p))
          (setView playlist_view (initialState [p])))).

(** ** The other events of the component *)

(** [onPlayerStateChange]: PLAYING and PAUSED set [isPlaying]; ENDED is
    [onTrackEnded]. *)
Definition onPlayerPlaying (st : State) : State := commit st (setIsPlaying true st).
Definition onPlayerPaused (st : State) : State := commit st (setIsPlaying false st).

(** [onChange] of the three text inputs; each exists only in its view. *)
Definition onUrlChange (text : string) (st : State) : State :=
  if decide (view st = add_song) then commit st (setUrlInput text st) else st.

Definition onNameChange (text : string) (st : State) : State :=
  if decide (view st = create_playlist_input)
  then commit st (setNewPlaylistName text st) else st.

Definition onSearchChange (text : string) (st : State) : State :=
  if decide (view st = playlists_view)
  then commit st (setPlaylistSearchQuery text st) else st.

(** [activePlaylist?.songs[selectedSongIndex!]], the song the song-menu and
    the delete confirmation show. *)
Definition songForMenu (st : State) : option Song :=
  activePlaylist st ≫= λ p, atIndex (pl_songs p) (selectedSongIndex st).

(** The number of list items [renderView] draws with a click handler: none
    on the error screens ("Playlist not found", "Song not found.", "No song
    selected."), and none when rendering the delete-song confirmation reads
    [.title] of a missing song. *)
Definition renderedItems (st : State) : nat :=
  match view st with
  | song_menu =>
      match songForMenu st with Some _ => length songMenuItems | None => 0 end
  | delete_song_confirm =>
      match activePlaylist st, songForMenu st with
      | Some _, None => 0
      | _, _ => length confirmItems
      end
  | now_playing =>
      match currentSong st with
      | Some _ => length nowPlayingMenuItems
      | None => 0
      end
  | _ => viewItemsLength st
  end%nat.

(** [onClick={() => handle...Selection(i)}] of the [i]-th item. *)
Definition handleItemClick (env : Env) (i : nat) (st : State) : Run :=
  let index := Int (Z.of_nat i) in
  match view st with
  | main_menu => Done (handleMainMenuSelection index st)
  | playlists_view => handlePlaylistsSelection index st
  | playlist_view => Done (handlePlaylistViewSelection index st)
  | song_menu => Done (handleSongMenuSelection index st)
  | delete_song_confirm | delete_playlist_confirm | shuffle_confirm =>
      Done (handleConfirmation env index st)
  | select_playlist_for_song => handleSelectPlaylistForSongSelection index st
  | now_playing => Done (handleNowPlayingSelection env index st)
  | add_song | create_playlist_input | edit_song_title => Done []
  end.

Definition onItemClick (env : Env) (i : nat) (st : State) : Outcome :=
  if decide (i < renderedItems st)%nat then
    match handleItemClick env i st with
    | Done us => Ok (commit st (batch us st))
    | Throw us => TypeError (commit st (batch us st))
    end
  else Ok st.

(** Everything that can happen to the component: the wheel, the play/pause
    button, the player's state changes, typing, a click on a list item, and
    the drag events of the items of playlist-contents.  (The theme button
    touches no state of the engine.) *)
Inductive Event :=
  | Wheel (i : Input)
  | PlayPause
  | PlayerEnded
  | PlayerPlaying
  | PlayerPaused
  | UrlChange (text : string)
  | NameChange (text : string)
  | SearchChange (text : string)
  | ItemClick (i : nat)
  | DragStart (i : nat)
  | DragEnter (i : nat)
  | DragLeave
  | DragEnd.

(** The items of playlist-contents are drawn, so their drag handlers can
    run. *)
Definition dragItems (st : State) : nat :=
  if decide (view st = playlist_view) then length (getPlaylistViewItems st) else 0%nat.

(** The state after an event; [None] when [handleDragEnter] would store
    [undefined] among the songs. *)
Definition fire (env : Env) (e : Event) (st : State) : option State :=
  match e with
  | Wheel i => Some (step env i st)
  | PlayPause => Some (onPlayPause env st)
  | PlayerEnded => Some (if ytPlayer env then onTrackEnded env st else st)
  | PlayerPlaying => Some (if ytPlayer env then onPlayerPlaying st else st)
  | PlayerPaused => Some (if ytPlayer env then onPlayerPaused st else st)
  | UrlChange text => Some (onUrlChange text st)
  | NameChange text => Some (onNameChange text st)
  | SearchChange text => Some (onSearchChange text st)
  | ItemClick i => Some (stateOf (onItemClick env i st))
  | DragStart i =>
      Some (if decide (i < dragItems st)%nat
            then commit st (exec (handleDragStart (Z.of_nat i)) st) else st)
  | DragEnter i =>
      if decide (i < dragItems st)%nat
      then us ← handleDragEnter (Z.of_nat i) st; Some (commit st (batch us st))
      else Some st
  | DragLeave =>
      Some (if decide (0 < dragItems st)%nat
            then commit st (setDragOverIndex None st) else st)
  | DragEnd =>
      Some (if decide (0 < dragItems st)%nat
            then commit st (exec handleDragEnd st) else st)
  end.

(** The callback [onStateChange] is handed to the player once, when the
    player is created ([new YT.Player]); later runs of the effect only call
    [loadVideoById].  On ENDED the player therefore runs the [handleSongEnd]
    of the render in which it was created: [rendered] is the state of that
    render, [st] the state when the track ends.  ([onTrackEnded] is the case
    of a track that ends before the next render.) *)
Definition onTrackEndedFrom (env : Env) (rendered st : State) : State :=
  commit st (batch (handleSongEnd env rendered) st).

(** The states of the component: a first render from any stored playlists,
    then events, each with what the host answers at that moment; a track
    may also end under the callback of any earlier render. *)
Inductive Reachable : State → Prop :=
  | Reachable_init ps : Reachable (initialState ps)
  | Reachable_fire env e st st' :
      Reachable st → fire env e st = Some st' → Reachable st'
  | Reachable_ended env rendered st :
      Reachable rendered → Reachable st →
      Reachable (onTrackEndedFrom env rendered st).

(** A song is staged: [selectedSongIndex] is the index of a song of the
    active playlist. *)
Definition songStaged (st : State) : Prop :=
  ∃ (k : nat) ap x,
    selectedSongIndex st = Some (Z.of_nat k)
    ∧ activePlaylist st = Some ap
    ∧ pl_songs ap !! k = Some x.

(** The pointer, when set, holds a playlist id and an index that is not
    negative (neither field is [null]). *)
Definition pointerWellTyped (st : State) : Prop :=
  ∀ np, nowPlaying st = Some np →
    is_Some (playlistId np) ∧ ∃ k, songIndex np = Some k ∧ 0 ≤ k.

(** The playlist ids, in order. *)
Definition playlistIds (st : State) : list string := pl_id <$> playlists st.

(** [sub] occurs in [s] as a contiguous part. *)
Definition substring (sub s : string) : Prop :=
  ∃ pre post, s = pre +:+ sub +:+ post.

(** ** An invariant of the reachable states *)

(** The unused view is not shown; a song is staged while its target
    playlist is chosen; the staged song index is that of a song of the
    active playlist while the song menu or the delete-song confirmation is
    shown; the pointer is well typed. *)
Definition wellFormed (st : State) : Prop :=
  view st ≠ edit_song_title
  ∧ (view st = select_playlist_for_song → is_Some (tempSong st))
  ∧ (view st = song_menu ∨ view st = delete_song_confirm → songStaged st)
  ∧ pointerWellTyped st.

(** The views about which the invariant says nothing more. *)
Definition plainView (v : View) : bool :=
  match v with
  | edit_song_title | select_playlist_for_song | song_menu | delete_song_confirm => false
  | _ => true
  end.

(** The updates a handler queued, thrown or not. *)
Definition runUpdates (r : Run) : Updates :=
  match r with Done us | Throw us => us end.

(** A run of events with one host. *)
Definition fireAll (env : Env) (es : list Event) (st : State) : option State :=
  foldl (λ o e, o ≫= fire env e) (Some st) es.

(** Sample runs: into the song menu of the song of [playlistA]; a URL typed
    and accepted on a first render without playlists. *)
Definition toSongMenu : list Event :=
  [Wheel Center; Wheel Center; Wheel Next; Wheel Center].

Definition songMenuOfA : State :=
  run sampleEnv [Center; Center; Next; Center] (initialState [playlistA; playlistZ]).

Definition toChoosePlaylist : list Event :=
  [UrlChange "https://www.youtube.com/watch?v=abc123"; Wheel Center].

Definition choosingPlaylist : State :=
  stateOf (onCenter sampleEnv
             (setUrlInput "https://www.youtube.com/watch?v=abc123" (initialState []))).

Definition nowPlayingA : State := stateOf (onCenter sampleEnv songMenuOfA).

(** ** How the collection of playlists changes *)

(** [ps'] has the playlists of [ps], in the same order, with the same ids
    and names (the songs may differ). *)
Definition sameIdsAndNames (ps ps' : list Playlist) : Prop :=
  Forall2 (λ p p', pl_id p' = pl_id p ∧ pl_name p' = pl_name p) ps ps'.

(** The three ways in which an event changes the collection. *)
Inductive PlaylistsChange (env : Env) (st : State) : list Playlist → Prop :=
  | change_songs ps' :
      sameIdsAndNames (playlists st) ps' → PlaylistsChange env st ps'
  | change_removed pid :
      view st = delete_playlist_confirm →
      playlistToDeleteId st = Some pid →
      PlaylistsChange env st (filter (λ p, pl_id p ≠ pid) (playlists st))
  | change_created songs :
      view st = create_playlist_input →
      trim (newPlaylistName st) ≠ "" →
      PlaylistsChange env st
        (sortBy (compareNames env)
           (playlists st ++
            [{| pl_id := now env; pl_name := newPlaylistName st;
                pl_songs := songs |}])).

(** The number of presses of the menu button that separate a view from the
    root menu, at most. *)
Definition menuDepth (v : View) : nat :=
  match v with
  | main_menu => 0
  | playlists_view | add_song | edit_song_title => 1
  | playlist_view | select_playlist_for_song => 2
  | now_playing | create_playlist_input | song_menu
  | delete_playlist_confirm | shuffle_confirm => 3
  | delete_song_confirm => 4
  end.

(** ** What the confirmations and now-playing rest on *)

(** The views that act on something chosen before. *)
Definition needsGround (v : View) : bool :=
  match v with
  | delete_playlist_confirm | shuffle_confirm | now_playing => true
  | _ => false
  end.

(** The confirmation of a playlist's deletion is about the open playlist,
    which exists; the confirmation of a shuffle is about an open playlist
    with songs; now-playing has a pointer. *)
Definition grounded (st : State) : Prop :=
  (view st = delete_playlist_confirm →
     playlistToDeleteId st = activePlaylistId st ∧ is_Some (activePlaylist st))
  ∧ (view st = shuffle_confirm →
       ∃ ap, activePlaylist st = Some ap ∧ pl_songs ap ≠ [])
  ∧ (view st = now_playing → is_Some (nowPlaying st)).

(** Sample runs into the two confirmations, for the playlist "A". *)
Definition toShuffleConfirm : list Event :=
  [Wheel Center; Wheel Center; Wheel Center].

Definition shuffleConfirmOfA : State :=
  run sampleEnv [Center; Center; Center] (initialState [playlistA; playlistZ]).

Definition toDeleteConfirm : list Event :=
  [Wheel Center; Wheel Center; Wheel Next; Wheel Next; Wheel Center].

Definition deleteConfirmOfA : State :=
  run sampleEnv [Center; Center; Next; Next; Center]
      (initialState [playlistA; playlistZ]).

(** ** A drag under way *)

(** The song [x] picked up from the playlist [ap] is the song at the dragged
    index of the open playlist, which is [ap] with its songs rearranged. *)
Definition dragging (ap : Playlist) (x : Song) (st : State) : Prop :=
  view st = playlist_view
  ∧ ∃ ap' (d : nat),
      activePlaylist st = Some ap'
      ∧ pl_id ap' = pl_id ap
      ∧ pl_name ap' = pl_name ap
      ∧ pl_songs ap' ≡ₚ pl_songs ap
      ∧ draggedItemIndex st = Some (Z.of_nat d)
      ∧ pl_songs ap' !! d = Some x.

(** ** The click wheel: telling a long press from a click *)

Module ClickWheel.

(** The two refs of the component, with the timers of the host: the handles
    of the armed ones and the next handle [setTimeout] returns (handles are
    positive, hence truthy). *)
Record t := {
  longPressTimeout : option positive;
  isLongPress : bool;
  armed : list positive;
  nextHandle : positive
}.

Definition initial : t :=
  {| longPressTimeout := None; isLongPress := false; armed := [];
     nextHandle := 1%positive |}.

(** [onMouseDown], [onTouchStart] *)
Definition handleMouseDown (w : t) : t :=
  {| longPressTimeout := Some (nextHandle w);
     isLongPress := false;
     armed := nextHandle w :: armed w;
     nextHandle := Pos.succ (nextHandle w) |}.

(** [onMouseUp], [onMouseLeave], [onTouchEnd]: [clearTimeout] of the handle
    the ref holds. *)
Definition handleMouseUp (w : t) : t :=
  match longPressTimeout w with
  | Some h =>
      {| longPressTimeout := longPressTimeout w;
         isLongPress := isLongPress w;
         armed := filter (λ h', h' ≠ h) (armed w);
         nextHandle := nextHandle w |}
  | None => w
  end.

(** The callback of the timer [h], 700 ms after it was armed: it calls
    [onCenterLongPress]. *)
Definition timerFires (h : positive) (w : t) : option (t * list Input) :=
  if decide (h ∈ armed w)
  then Some ({| longPressTimeout := longPressTimeout w;
                isLongPress := true;
                armed := filter (λ h', h' ≠ h) (armed w);
                nextHandle := nextHandle w |},
             [CenterLongPress])
  else None.

(** [onClick]: [onCenterClick] unless the press was a long one. *)
Definition handleClick (w : t) : t * list Input :=
  if isLongPress w then (w, []) else (w, [Center]).

Inductive Action := MouseDown | MouseUp | TimerFires (h : positive) | Click.

(** One action: the state after it and what is passed on to the engine;
    [None] for the callback of a timer that is not armed. *)
Definition act (a : Action) (w : t) : option (t * list Input) :=
  match a with
  | MouseDown => Some (handleMouseDown w, [])
  | MouseUp => Some (handleMouseUp w, [])
  | TimerFires h => timerFires h w
  | Click => Some (handleClick w)
  end.

Fixpoint acts (l : list Action) (w : t) : option (t * list Input) :=
  match l with
  | [] => Some (w, [])
  | a :: l' =>
      '(w', out) ← act a w;
      '(w'', out') ← acts l' w';
      Some (w'', out ++ out')
  end.

(** The handles in use are below the next one. *)
Definition handlesBelowNext (w : t) : Prop :=
  Forall (λ h, (h < nextHandle w)%positive) (armed w).

(** The long presses among what was passed on, and the presses among the
    actions. *)
Fixpoint longPresses (out : list Input) : nat :=
  match out with
  | CenterLongPress :: out' => S (longPresses out')
  | _ :: out' => longPresses out'
  | [] => 0
  end.

Fixpoint presses (l : list Action) : nat :=
  match l with
  | MouseDown :: l' => S (presses l')
  | _ :: l' => presses l'
  | [] => 0
  end.

End ClickWheel.

(** * Properties *)

(** ** General facts about the model *)

Lemma setSelectedIndex_id st v : selectedIndex st = v → setSelectedIndex v st = st.
Proof. intros <-. by destruct st. Qed.

Lemma iter_fixed {A} (f : A → A) x k : f x = x → Nat.iter k f x = x.
Proof. intros H. induction k as [|k IH]; [done|]. by rewrite Nat.iter_succ, IH. Qed.

Lemma atNum_lookup {A} (l : list A) i :
  0 ≤ i < len l → is_Some (atNum l (Int i)).
Proof.
  intros H. unfold atNum, atZ, len in *. case_decide; [lia|].
  apply lookup_lt_is_Some. lia.
Qed.

Lemma findPlaylist_Some pid ps p :
  findPlaylist pid ps = Some p → pid = Some (pl_id p) ∧ p ∈ ps.
Proof.
  unfold findPlaylist. destruct (list_find _ ps) as [[k q]|] eqn:E; [|done].
  intros [= ->]. apply list_find_Some in E as (Hk & Hq & _).
  split; [done|]. by eapply list_elem_of_lookup_2.
Qed.

(** [find] after a [map] that keeps the ids finds the image of what it found
    before. *)
Lemma findPlaylist_map pid (f : Playlist → Playlist) ps :
  (∀ p, pl_id (f p) = pl_id p) →
  findPlaylist pid (map f ps) = f <$> findPlaylist pid ps.
Proof.
  intros Hf. unfold findPlaylist. induction ps as [|p ps IH]; [done|].
  cbn. rewrite Hf. case_decide; [done|].
  revert IH. change (map f ps) with (f <$> ps).
  destruct (list_find _ (f <$> ps)) as [[??]|], (list_find _ ps) as [[??]|];
    cbn; congruence.
Qed.

Lemma reachable_run env inputs ps : reachable env (run env inputs (initialState ps)).
Proof.
  unfold run. induction inputs as [|i inputs IH] using rev_ind.
  - apply reachable_init.
  - rewrite foldl_app. cbn. by apply reachable_step.
Qed.

(** ** The selection index *)

Section Selection.

Lemma indexInRange_zero st : selectedIndex st = Int 0 → indexInRange st.
Proof. intros H. exists 0. split; [done | lia]. Qed.

Lemma indexInRange_same st st' :
  indexInRange st → selectedIndex st' = selectedIndex st →
  viewItemsLength st' = viewItemsLength st → indexInRange st'.
Proof. intros (i & Hi & Hr) Hs Hl. exists i. rewrite Hs, Hl. done. Qed.

(** The effect on the search query and the view keeps or resets the index. *)
Lemma indexInRange_commit st st' : indexInRange st' → indexInRange (commit st st').
Proof.
  intros (i & Hi & Hr). unfold commit. case_decide.
  - apply indexInRange_zero. reflexivity.
  - exists i. done.
Qed.

Lemma commit_same_view st st' :
  view st' = view st → playlistSearchQuery st' = playlistSearchQuery st →
  commit st st' = st'.
Proof.
  intros Hv Hq. unfold commit. rewrite Hv, Hq.
  case_decide as H; [|done]. destruct H as [_ [H|H]]; by destruct H.
Qed.

Lemma commit_same_view_other st st' :
  view st' ≠ playlists_view → commit st st' = st'.
Proof. intros Hv. unfold commit. case_decide as H; [by destruct H|done]. Qed.

Lemma wheel_no_list d st :
  navigable (view st) = false → commit st (exec (handleWheel d) st) = st.
Proof.
  intros Hv. unfold exec, handleWheel.
  destruct (view st) eqn:E; try discriminate Hv; cbn; by apply commit_same_view.
Qed.

(** What one rotation does: the JavaScript expression of [navigate] on the
    current index and the length of the view's list. *)
Lemma wheel_navigate d st :
  navigable (view st) = true →
  commit st (exec (handleWheel d) st) =
  setSelectedIndex
    (let N := Int (Z.of_nat (viewItemsLength st)) in
     match d with
     | next => jsRem (jsAdd (selectedIndex st) (Int 1)) N
     | prev => jsRem (jsAdd (jsSub (selectedIndex st) (Int 1)) N) N
     end) st.
Proof.
  intros Hv. rewrite commit_same_view.
  - unfold exec, handleWheel, viewItemsLength.
    destruct (view st) eqn:E; try discriminate Hv; destruct d; reflexivity.
  - unfold exec, handleWheel. destruct (view st) eqn:E; cbn; congruence.
  - unfold exec, handleWheel. destruct (view st); reflexivity.
Qed.

(** On a non-empty list and an index inside it, the remainders of
    JavaScript are those of [mod]. *)
Lemma wheel_in_range d st i :
  navigable (view st) = true →
  selectedIndex st = Int i →
  let N := Z.of_nat (viewItemsLength st) in
  0 ≤ i < N →
  commit st (exec (handleWheel d) st) =
  setSelectedIndex (Int (match d with
                         | next => (i + 1 + N) `mod` N
                         | prev => (i - 1 + N) `mod` N
                         end)) st.
Proof.
  intros Hv Hi N Hr. rewrite wheel_navigate by done. rewrite Hi. fold N.
  f_equal. cbn -[Z.rem Z.modulo].
  destruct d; cbn; case_decide; try lia; f_equal.
  - rewrite Z.rem_mod_nonneg by lia.
    rewrite <- (Z.add_mod_idemp_r (i + 1) N N) by lia.
    rewrite Z.mod_same by lia. f_equal. lia.
  - by rewrite Z.rem_mod_nonneg by lia.
Qed.

Lemma wheel_setSelectedIndex d st j :
  navigable (view st) = true →
  let N := Z.of_nat (viewItemsLength st) in
  0 ≤ j < N →
  commit (setSelectedIndex (Int j) st)
         (exec (handleWheel d) (setSelectedIndex (Int j) st)) =
  setSelectedIndex (Int (match d with
                         | next => (j + 1) `mod` N
                         | prev => (j - 1) `mod` N
                         end)) st.
Proof.
  intros Hv N Hj.
  rewrite (wheel_in_range d _ j) by done.
  change (viewItemsLength (setSelectedIndex (Int j) st)) with (viewItemsLength st).
  fold N.
  change (setSelectedIndex ?a (setSelectedIndex ?b st)) with (setSelectedIndex a st).
  do 2 f_equal.
  destruct d; by rewrite <- Z.add_mod_idemp_r, Z.mod_same, Z.add_0_r by lia.
Qed.

(** [k] rotations forward from index [i] lead to [(i + k) mod N]. *)
Lemma iter_onNext st i k :
  navigable (view st) = true →
  let N := Z.of_nat (viewItemsLength st) in
  0 ≤ i < N →
  Nat.iter k onNext (setSelectedIndex (Int i) st) =
  setSelectedIndex (Int ((i + Z.of_nat k) `mod` N)) st.
Proof.
  intros Hv N Hi. induction k as [|k IH].
  - cbn. rewrite Z.add_0_r, Z.mod_small by lia. done.
  - rewrite Nat.iter_succ, IH. unfold onNext, handleNext.
    rewrite (wheel_setSelectedIndex next) by (done || (apply Z.mod_pos_bound; lia)).
    cbn zeta. fold N. rewrite Z.add_mod_idemp_l by lia. do 3 f_equal. lia.
Qed.

(** [k] rotations backward from index [i] lead to [(i - k) mod N]. *)
Lemma iter_onPrev st i k :
  navigable (view st) = true →
  let N := Z.of_nat (viewItemsLength st) in
  0 ≤ i < N →
  Nat.iter k onPrev (setSelectedIndex (Int i) st) =
  setSelectedIndex (Int ((i - Z.of_nat k) `mod` N)) st.
Proof.
  intros Hv N Hi. induction k as [|k IH].
  - cbn. rewrite Z.sub_0_r, Z.mod_small by lia. done.
  - rewrite Nat.iter_succ, IH. unfold onPrev, handlePrev.
    rewrite (wheel_setSelectedIndex prev) by (done || (apply Z.mod_pos_bound; lia)).
    cbn zeta. fold N. rewrite Zminus_mod_idemp_l. do 3 f_equal. lia.
Qed.

End Selection.

(** C2. Circular navigation round-trips: from an index valid for the current
    view's list of length N, N times [onNext] followed by N times [onPrev]
    gives back the state, and so do N pairs of [onNext] then [onPrev]. *)
Theorem circular_navigation_round_trip st :
  indexInRange st →
  let N := viewItemsLength st in
  Nat.iter N onPrev (Nat.iter N onNext st) = st
  ∧ Nat.iter N (λ s, onPrev (onNext s)) st = st.
Proof.
  intros (i & Hi & Hr) N.
  destruct (navigable (view st)) eqn:Hv.
  - destruct (decide (N = 0%nat)) as [->|HN]; [done|].
    assert (Hi' : 0 ≤ i < Z.of_nat N) by (subst N; lia).
    assert (Hst : setSelectedIndex (Int i) st = st) by by apply setSelectedIndex_id.
    assert (Hback : (((i + 1) `mod` Z.of_nat N) - 1) `mod` Z.of_nat N = i).
    { rewrite Zminus_mod_idemp_l, Z.add_simpl_r, Z.mod_small; lia. }
    split.
    + transitivity (Nat.iter N onPrev (Nat.iter N onNext (setSelectedIndex (Int i) st)));
        [by rewrite Hst|].
      rewrite iter_onNext by done. fold N.
      rewrite iter_onPrev by (done || (apply Z.mod_pos_bound; lia)).
      fold N. by rewrite Zminus_mod_idemp_l, Z.add_simpl_r, Z.mod_small by lia.
    + apply iter_fixed.
      transitivity (onPrev (onNext (setSelectedIndex (Int i) st))); [by rewrite Hst|].
      unfold onNext, onPrev, handleNext, handlePrev.
      rewrite (wheel_setSelectedIndex next) by done. fold N.
      rewrite (wheel_setSelectedIndex prev) by (done || (apply Z.mod_pos_bound; lia)).
      fold N. by rewrite Hback.
  - split.
    + rewrite (iter_fixed onNext) by by apply (wheel_no_list next).
      apply iter_fixed. by apply (wheel_no_list prev).
    + apply iter_fixed. unfold onPrev, onNext, handleNext, handlePrev.
      rewrite (wheel_no_list next) by done. by apply (wheel_no_list prev).
Qed.

(** The round trip in the playlist-contents view of a playlist of four songs
    (six items), from the third item. *)
(** The round trip in the playlist-contents view of a playlist of four songs
    (six items), from the third item. *)
Lemma circular_navigation_round_trip_witness :
  let st := setSelectedIndex (Int 2) (playingFrom fourSongs 0 repeat_off) in
  indexInRange st
  ∧ Nat.iter 6 onPrev (Nat.iter 6 onNext st) = st
  ∧ Nat.iter 6 (λ s, onPrev (onNext s)) st = st.
Proof.
  intros st.
  assert (H : indexInRange st) by (apply (bool_decide_unpack _); vm_compute; exact I).
  split; [exact H|].
  exact (circular_navigation_round_trip st H).
Defined.

Section Activation.

Local Ltac index_zero :=
  left; apply indexInRange_commit, indexInRange_zero; reflexivity.

Local Ltac index_kept Hin Hv :=
  left; apply indexInRange_commit; eapply indexInRange_same; [exact Hin| |];
  [reflexivity | unfold viewItemsLength; cbn; by rewrite Hv].

(** The center button keeps the index inside the list of the view it
    leads to, but for one transition: from select-playlist-for-song, an
    entry with the id "new" opens create-playlist-input (a view without
    a list) and leaves the index where it was. *)
Lemma onCenter_index env st :
  indexInRange st →
  ∃ st', onCenter env st = Ok st'
    ∧ (indexInRange st'
       ∨ (view st = select_playlist_for_song
          ∧ view st' = create_playlist_input
          ∧ selectedIndex st' = selectedIndex st)).
Proof.
  intros Hin. pose proof Hin as (i & Hi & Hr).
  unfold onCenter, handleCenterClick.
  destruct (view st) eqn:Hv.
  - (* main-menu *)
    eexists; split; [reflexivity|]. unfold handleMainMenuSelection.
    repeat case_decide; index_zero.
  - (* playlists *)
    unfold handlePlaylistsSelection. rewrite Hi.
    destruct (atNum_lookup (playlistMenuItems st) i) as [item ->].
    { unfold viewItemsLength in Hr. rewrite Hv in Hr. unfold len.
      assert (0 < length (playlistMenuItems st))%nat
        by (unfold playlistMenuItems; rewrite length_app; cbn; lia).
      lia. }
    eexists; split; [reflexivity|]. case_decide; index_zero.
  - (* playlist-view *)
    eexists; split; [reflexivity|]. unfold handlePlaylistViewSelection.
    destruct (atNum _ _) as [item|].
    + repeat first [case_decide | case_match]; index_zero.
    + index_kept Hin Hv.
  - (* add-song *)
    eexists; split; [reflexivity|]. unfold handleAddSongUrl.
    destruct (truthy _); [index_zero|].
    left. apply indexInRange_commit. exact Hin.
  - (* now-playing *)
    eexists; split; [reflexivity|]. left. apply indexInRange_commit.
    unfold handleNowPlayingSelection, handlePrevTrack, handlePlayPause,
      handleNextTrack.
    eapply indexInRange_same; [exact Hin| |].
    + repeat first [case_decide | case_match]; reflexivity.
    + unfold viewItemsLength at 2. rewrite Hv.
      match goal with |- viewItemsLength ?s = _ =>
        assert (Hview : view s = now_playing)
          by (repeat first [case_decide | case_match]; cbn; done);
        unfold viewItemsLength; by rewrite Hview
      end.
  - (* select-playlist-for-song *)
    unfold handleSelectPlaylistForSongSelection. rewrite Hi.
    destruct (atNum_lookup (selectPlaylistItems st) i) as [selection Hsel].
    { unfold viewItemsLength in Hr. rewrite Hv in Hr. unfold len.
      assert (0 < length (selectPlaylistItems st))%nat
        by (unfold selectPlaylistItems; rewrite length_app; cbn; lia).
      lia. }
    rewrite Hsel. eexists; split; [reflexivity|].
    case_decide.
    + right. by rewrite <- Hi.
    + destruct (tempSong st) as [s|] eqn:Ht;
        [|rewrite <- Hi; index_kept Hin Hv].
      left. apply indexInRange_commit. unfold addSongToPlaylist.
      set (pid := pl_id selection).
      destruct (findPlaylist (Some pid) (playlists st)) as [p|] eqn:Hf;
        [|apply indexInRange_zero; reflexivity].
      exists (len (pl_songs p)). split; [reflexivity|].
      unfold viewItemsLength, getPlaylistViewItems, activePlaylist.
      cbn -[findPlaylist].
      rewrite findPlaylist_map by (intros q; by case_decide).
      rewrite Hf. cbn.
      apply findPlaylist_Some in Hf as [[= Hpid] _].
      rewrite !(decide_True (P := pl_id p = pid)) by done. cbn.
      unfold len. rewrite decide_True by (rewrite length_app; cbn; lia).
      cbn. rewrite !length_app. cbn. lia.
  - (* create-playlist-input *)
    eexists; split; [reflexivity|]. left. unfold handleCreatePlaylist.
    case_decide; [apply indexInRange_commit; exact Hin|].
    destruct (tempSong st);
      [apply indexInRange_commit, indexInRange_zero; reflexivity|].
    apply indexInRange_zero. unfold commit. rewrite decide_True; [reflexivity|].
    cbn. rewrite Hv. split; [done|]. by left.
  - (* song-menu *)
    eexists; split; [reflexivity|]. unfold handleSongMenuSelection.
    case_decide; index_zero.
  - (* delete-song-confirm *)
    eexists; split; [reflexivity|]. unfold handleConfirmation, handleDeleteSong.
    rewrite Hv. case_decide; [|index_zero].
    repeat case_match; try index_zero; index_kept Hin Hv.
  - (* delete-playlist-confirm *)
    eexists; split; [reflexivity|].
    unfold handleConfirmation, handleDeletePlaylist.
    rewrite Hv. case_decide; [|index_zero].
    repeat case_match; try index_zero; index_kept Hin Hv.
  - (* shuffle-confirm *)
    eexists; split; [reflexivity|].
    unfold handleConfirmation, handleShufflePlaylist.
    rewrite Hv. case_decide as Hone; [|index_zero].
    destruct (truthy _); [|index_kept Hin Hv].
    left. apply indexInRange_commit. exists 1. split; [by cbn|]. cbn. lia.
  - (* edit-song-title *)
    eexists; split; [reflexivity|]. left. apply indexInRange_commit. exact Hin.
Qed.

Lemma onMenu_index st : selectedIndex (onMenu st) = Int 0.
Proof.
  unfold onMenu, exec, handleMenu, commit.
  destruct (view st); repeat first [case_decide | case_match]; reflexivity.
Qed.

Lemma onCenterLongPress_index st :
  indexInRange st → indexInRange (onCenterLongPress st).
Proof.
  intros Hin. unfold onCenterLongPress, exec, handleCenterLongPress.
  apply indexInRange_commit.
  repeat first [case_decide | case_match];
    first [exact Hin | apply indexInRange_zero; reflexivity].
Qed.

End Activation.

Lemma navigable_of_items st : viewItemsLength st ≠ 0%nat → navigable (view st) = true.
Proof. unfold viewItemsLength. by destruct (view st). Qed.

(** C1 (as amended). From a state whose index is an integer with
    [0 <= index < max(1, N)]:
    - when the current view's list is not empty, [onNext] and [onPrev] set the
      index to [(index ± 1 + N) mod N], which is again in range;
    - in the views without a list the wheel changes nothing;
    - [onMenu] sets the index to 0;
    - [onCenterLongPress] keeps it in range;
    - [onCenter] does not throw and keeps it in range of the view it leads
      to, the transition from select-playlist-for-song to
      create-playlist-input apart. *)
Theorem selection_index_after_input env st :
  indexInRange st →
  (∀ i, selectedIndex st = Int i → viewItemsLength st ≠ 0%nat →
     let N := Z.of_nat (viewItemsLength st) in
     selectedIndex (onNext st) = Int ((i + 1 + N) `mod` N)
     ∧ selectedIndex (onPrev st) = Int ((i - 1 + N) `mod` N)
     ∧ indexInRange (onNext st)
     ∧ indexInRange (onPrev st))
  ∧ (navigable (view st) = false → onNext st = st ∧ onPrev st = st)
  ∧ selectedIndex (onMenu st) = Int 0
  ∧ indexInRange (onCenterLongPress st)
  ∧ ∃ st', onCenter env st = Ok st'
      ∧ (indexInRange st'
         ∨ (view st = select_playlist_for_song
            ∧ view st' = create_playlist_input)).
Proof.
  intros Hin. pose proof Hin as (i0 & Hi0 & Hr0).
  split; [|split; [|split; [|split]]].
  - intros i Hi HN N.
    assert (Hnav := navigable_of_items st HN).
    assert (Hr : 0 ≤ i < N) by (rewrite Hi in Hi0; injection Hi0 as ->; subst N; lia).
    unfold onNext, onPrev, handleNext, handlePrev.
    rewrite (wheel_in_range next st i), (wheel_in_range prev st i) by done.
    fold N. cbn [selectedIndex setSelectedIndex].
    split; [done|]. split; [done|].
    split; eexists; (split; [reflexivity|]);
      change (viewItemsLength (setSelectedIndex _ st)) with (viewItemsLength st);
      fold N; pose proof (Z.mod_pos_bound (i + 1 + N) N);
      pose proof (Z.mod_pos_bound (i - 1 + N) N); lia.
  - intros Hnav. split; [apply (wheel_no_list next) | apply (wheel_no_list prev)]; done.
  - apply onMenu_index.
  - by apply onCenterLongPress_index.
  - destruct (onCenter_index env st Hin) as (st' & Hcenter & [Hst'|(Hv & Hv' & _)]);
      exists st'; (split; [exact Hcenter|]); [by left | by right].
Qed.

(** The theorem in the playlist-contents view of a playlist of four songs
    (six items), on the third item. *)
Lemma selection_index_after_input_witness :
  let st := setSelectedIndex (Int 2) (playingFrom fourSongs 0 repeat_off) in
  indexInRange st
  ∧ selectedIndex (onNext st) = Int 3
  ∧ selectedIndex (onPrev st) = Int 1
  ∧ selectedIndex (onMenu st) = Int 0
  ∧ indexInRange (onCenterLongPress st)
  ∧ ∃ st', onCenter sampleEnv st = Ok st' ∧ indexInRange st'.
Proof.
  intros st.
  assert (H : indexInRange st) by (apply (bool_decide_unpack _); vm_compute; exact I).
  destruct (selection_index_after_input sampleEnv st H)
    as (Hrot & _ & Hmenu & Hlong & st' & Hcenter & Hst').
  destruct (Hrot 2 eq_refl) as (Hnext & Hprev & _); [by vm_compute|].
  split; [exact H|]. split; [exact Hnext|]. split; [exact Hprev|].
  split; [exact Hmenu|]. split; [exact Hlong|].
  exists st'. split; [exact Hcenter|].
  destruct Hst' as [Hst'|(Hv & _)]; [exact Hst' | discriminate Hv].
Defined.

(** C1 (counterexample). A state the wheel reaches from a first render in
    which the index leaves the range: after [toMissingPlaylist] the view is
    playlist-contents, the active playlist id names the deleted playlist,
    the item list is empty, and one rotation computes [1 % 0]. *)
Lemma rotation_on_empty_list_is_NaN :
  let st := run sampleEnv toMissingPlaylist (initialState [playlistA; playlistZ]) in
  reachable sampleEnv st
  ∧ indexInRange st
  ∧ view st = playlist_view
  ∧ viewItemsLength st = 0%nat
  ∧ selectedIndex (onNext st) = NaN
  ∧ ¬ indexInRange (onNext st).
Proof.
  intros st. split; [apply reachable_run|].
  split; [apply (bool_decide_unpack _); vm_compute; exact I|].
  split; [by vm_compute|]. split; [by vm_compute|]. split; [by vm_compute|].
  intros (i & Hi & _). vm_compute in Hi. discriminate Hi.
Qed.

(** ** Shuffle *)

Section Shuffle.

Context {A : Type}.
Implicit Types l : list A.

Lemma swap_Permutation l i j : swap l i j ≡ₚ l.
Proof.
  unfold swap. destruct (l !! i) as [x|] eqn:Hi; [|done].
  destruct (l !! j) as [y|] eqn:Hj; [|done].
  by apply Permutation_insert_swap.
Qed.

Lemma fisherYates_Permutation rnd k i l : fisherYates rnd k i l ≡ₚ l.
Proof.
  revert k l. induction i as [|i IH]; intros k l; [done|].
  cbn [fisherYates]. rewrite IH. apply swap_Permutation.
Qed.

End Shuffle.

Lemma shuffleSongs_Permutation rnd k songs : shuffleSongs rnd k songs ≡ₚ songs.
Proof. apply fisherYates_Permutation. Qed.

Lemma shufflePlaylists_related rnd k pid ps :
  Forall2 (shuffledFrom pid) ps (shufflePlaylists rnd k pid ps).
Proof.
  revert k. induction ps as [|p ps IH]; intros k; [constructor|].
  cbn [shufflePlaylists]. destruct (decide (pl_id p = pid)) as [Hp|Hp].
  - constructor; [|apply IH]. unfold shuffledFrom. cbn.
    rewrite decide_True by done. split; [done|]. split; [done|].
    split; [apply shuffleSongs_Permutation|].
    apply Permutation_length, shuffleSongs_Permutation.
  - constructor; [|apply IH]. unfold shuffledFrom.
    by rewrite decide_False by done.
Qed.

(** The playlist that [find] returns is shuffled with the first calls of
    [Math.random]. *)
Lemma findPlaylist_shufflePlaylists rnd k pid ps :
  findPlaylist (Some pid) (shufflePlaylists rnd k pid ps) =
  (λ p, withSongs p (shuffleSongs rnd k (pl_songs p))) <$> findPlaylist (Some pid) ps.
Proof.
  unfold findPlaylist. induction ps as [|p ps IH]; [done|].
  cbn [shufflePlaylists]. destruct (decide (pl_id p = pid)) as [Hp|Hp].
  - cbn. rewrite !decide_True by congruence. done.
  - cbn. rewrite !decide_False by congruence.
    revert IH.
    destruct (list_find _ (shufflePlaylists rnd k pid ps)) as [[??]|],
             (list_find _ ps) as [[??]|]; cbn; congruence.
Qed.

(** C3. Confirming the shuffle of the active playlist (id [pid], a non-empty
    string as every id made by [Date.now().toString()] is) stores a
    permutation of its songs in its place (same songs, same ids, same
    length; the order is the one of the Fisher-Yates loop), leaves the other
    playlists as they are, sets the now-playing pointer to [(pid, 0)] and
    shows now-playing. *)
Theorem shuffle_confirmed env st pid :
  view st = shuffle_confirm →
  selectedIndex st = Int 1 →
  activePlaylistId st = Some pid →
  pid ≠ "" →
  ∃ st', onCenter env st = Ok st'
    ∧ st' = exec (handleShufflePlaylist env) st
    ∧ Forall2 (shuffledFrom pid) (playlists st) (playlists st')
    ∧ (∀ ap, activePlaylist st = Some ap →
         ∃ ap', activePlaylist st' = Some ap'
           ∧ pl_songs ap' = shuffleSongs (random env) 0 (pl_songs ap)
           ∧ pl_songs ap' ≡ₚ pl_songs ap
           ∧ song_id <$> pl_songs ap' ≡ₚ song_id <$> pl_songs ap
           ∧ length (pl_songs ap') = length (pl_songs ap))
    ∧ nowPlaying st' = Some {| playlistId := Some pid; songIndex := Some 0 |}
    ∧ view st' = now_playing.
Proof.
  intros Hv Hi Hid Hpid.
  assert (Ht : truthy (activePlaylistId st) = Some pid).
  { rewrite Hid. cbn. by rewrite decide_False. }
  unfold onCenter, handleCenterClick. rewrite Hv, Hi.
  unfold handleConfirmation. rewrite decide_True by done. rewrite Hv.
  unfold exec, handleShufflePlaylist. rewrite Ht.
  eexists. split; [reflexivity|].
  rewrite commit_same_view_other by (cbn; done).
  split.
  { change (batch ([setSelectedIndex (Int 1)] ++ ?us) st)
      with (batch us (setSelectedIndex (Int 1) st)).
    by rewrite (setSelectedIndex_id st (Int 1) Hi). }
  split; [cbn -[shufflePlaylists]; apply shufflePlaylists_related|].
  split; [|done].
  intros ap Hap. unfold activePlaylist in *. cbn -[shufflePlaylists findPlaylist].
  rewrite Hid in *. rewrite findPlaylist_shufflePlaylists, Hap. cbn.
  eexists. split; [reflexivity|]. cbn.
  pose proof (shuffleSongs_Permutation (random env) 0 (pl_songs ap)) as HP.
  split; [done|]. split; [done|]. split; [by rewrite HP|].
  by apply Permutation_length.
Qed.

(** The shuffle of [fourSongs] with the draws of [sampleEnv] (0, 1, 0 for the
    bounds 4, 3, 2): the stored order changes. *)
Lemma shuffle_confirmed_witness :
  let st := setSelectedIndex (Int 1)
              (setView shuffle_confirm (playingFrom fourSongs 3 repeat_off)) in
  ∃ st', onCenter sampleEnv st = Ok st'
    ∧ pl_songs <$> playlists st' = [[song "s2"; song "s3"; song "s1"; song "s0"]]
    ∧ nowPlaying st' = Some {| playlistId := Some "4"; songIndex := Some 0 |}
    ∧ view st' = now_playing.
Proof.
  intros st.
  destruct (shuffle_confirmed sampleEnv st "4")
    as (st' & Hcenter & Hst' & _ & _ & Hnp & Hview);
    [reflexivity | reflexivity | reflexivity | discriminate |].
  exists st'. split; [exact Hcenter|].
  split; [rewrite Hst'; by vm_compute|].
  split; [exact Hnp | exact Hview].
Defined.

(** ** Playback coordinator *)



(** ** Adding a song *)

(** C10. When the resolver maps the entered text to an identifier [v] (a
    non-empty string, as the check [if (videoId)] requires), the staged song
    has the id [v] and the title "Song: " followed by [v]. *)
Theorem staged_song_title env st v :
  view st = add_song →
  getYouTubeId env (urlInput st) = Some v →
  v ≠ "" →
  ∃ st', onCenter env st = Ok st'
    ∧ tempSong st' = Some {| song_id := v; song_title := "Song: " +:+ v |}
    ∧ view st' = select_playlist_for_song.
Proof.
  intros Hv Hid Hne. unfold onCenter, handleCenterClick. rewrite Hv.
  unfold handleAddSongUrl, truthy. rewrite Hid, decide_False by done.
  eexists. split; [reflexivity|].
  rewrite commit_same_view_other by (cbn; done). by cbn.
Qed.

(** The first scenario of the spec: the long-form URL of the video abc123. *)
Lemma staged_song_title_witness :
  let st := setUrlInput "https://www.youtube.com/watch?v=abc123" (initialState []) in
  ∃ st', onCenter sampleEnv st = Ok st'
    ∧ tempSong st' = Some {| song_id := "abc123"; song_title := "Song: abc123" |}
    ∧ view st' = select_playlist_for_song.
Proof.
  intros st.
  exact (staged_song_title sampleEnv st "abc123" eq_refl eq_refl
           ltac:(discriminate)).
Defined.

(** Selecting a playlist with a staged song: the index becomes the number
    of songs the playlist had, and the song lands one item further, behind
    the shuffle entry. *)
Lemma addSongToPlaylist_index env st i sel s p :
  view st = select_playlist_for_song →
  selectedIndex st = Int i →
  atNum (selectPlaylistItems st) (Int i) = Some sel →
  pl_id sel ≠ "new" →
  tempSong st = Some s →
  findPlaylist (Some (pl_id sel)) (playlists st) = Some p →
  ∃ st', onCenter env st = Ok st'
    ∧ view st' = playlist_view
    ∧ tempSong st' = None
    ∧ activePlaylistId st' = Some (pl_id sel)
    ∧ activePlaylist st' = Some (withSongs p (pl_songs p ++ [s]))
    ∧ selectedIndex st' = Int (len (pl_songs p))
    ∧ getPlaylistViewItems st' =
        SHUFFLE_PLAYLIST :: pl_songs p ++ [s; DELETE_PLAYLIST].
Proof.
  intros Hv Hi Hsel Hnew Ht Hf.
  unfold onCenter, handleCenterClick. rewrite Hv.
  unfold handleSelectPlaylistForSongSelection. rewrite Hi, Hsel.
  rewrite decide_False by done. rewrite Ht. unfold addSongToPlaylist. rewrite Hf.
  eexists. split; [reflexivity|].
  rewrite commit_same_view_other by (cbn; done).
  assert (Hact : activePlaylist
            (batch
               ([setSelectedIndex (Int i)] ++
                [updPlaylists
                   (map (λ q, if decide (pl_id q = pl_id sel)
                              then withSongs q (pl_songs q ++ [s]) else q));
                 setTempSong None; setActivePlaylistId (Some (pl_id sel));
                 setView playlist_view;
                 setSelectedIndex (Int (len (pl_songs p)))]) st)
          = Some (withSongs p (pl_songs p ++ [s]))).
  { unfold activePlaylist. cbn -[findPlaylist].
    rewrite findPlaylist_map by (intros q; by case_decide).
    rewrite Hf. cbn. apply findPlaylist_Some in Hf as [[= Hpid] _].
    by rewrite decide_True. }
  split; [done|]. split; [done|]. split; [done|]. split; [exact Hact|].
  split; [done|].
  unfold getPlaylistViewItems. rewrite Hact. cbn [pl_songs withSongs].
  rewrite decide_True by (unfold len; rewrite length_app; cbn; lia).
  cbn. by rewrite <- app_assoc.
Qed.

(** C5 (the code at the failing input). A song [s2] is staged and the
    playlist A, holding [s1], is selected: the index becomes 1, the item
    list is [shuffle, s1, s2, delete], so the index points at [s1] and the
    appended song is at 2. *)
Lemma added_song_is_not_the_selected_item :
  let st := stagedFor [playlistA] (song "s2") 0 in
  ∃ st', onCenter sampleEnv st = Ok st'
    ∧ view st' = playlist_view
    ∧ selectedIndex st' = Int 1
    ∧ getPlaylistViewItems st' =
        [SHUFFLE_PLAYLIST; song "s1"; song "s2"; DELETE_PLAYLIST]
    ∧ atNum (getPlaylistViewItems st') (selectedIndex st') = Some (song "s1")
    ∧ atNum (getPlaylistViewItems st') (Int 2) = Some (song "s2").
Proof.
  intros st. eexists. split; [reflexivity|].
  repeat split; by vm_compute.
Qed.

(** ** Creating a playlist *)

(** C8. Submitting a name that is empty after trimming changes nothing: the
    playlists, the view, the staged song and the input fields are as
    before. *)
Theorem blank_name_is_ignored env st :
  view st = create_playlist_input →
  trim (newPlaylistName st) = "" →
  onCenter env st = Ok st.
Proof.
  intros Hv Hname. unfold onCenter, handleCenterClick. rewrite Hv.
  unfold handleCreatePlaylist. rewrite decide_True by done.
  by rewrite commit_same_view.
Qed.

(** The name of two spaces, with a song staged. *)
Lemma blank_name_is_ignored_witness :
  let st := setTempSong (Some (song "s2")) (typedName [playlistA; playlistZ] "  ") in
  onCenter sampleEnv st = Ok st.
Proof.
  intros st. exact (blank_name_is_ignored sampleEnv st eq_refl eq_refl).
Defined.

Section Sort.

Context {A : Type} (cmp : A → A → Z).
Hypothesis Hcmp : ConsistentComparator cmp.

Let le (a b : A) : Prop := cmp a b ≤ 0.

Lemma insertSorted_Permutation x l : insertSorted cmp x l ≡ₚ x :: l.
Proof.
  induction l as [|y l IH]; [done|]. cbn. case_decide; [done|].
  rewrite IH. apply Permutation_swap.
Qed.

Lemma sortBy_Permutation l : sortBy cmp l ≡ₚ l.
Proof.
  induction l as [|x l IH]; [done|]. cbn.
  by rewrite insertSorted_Permutation, IH.
Qed.

Lemma cmp_total a b : ¬ cmp a b ≤ 0 → cmp b a ≤ 0.
Proof.
  intros H. assert (cmp b a < 0); [|lia].
  apply (cmp_flip _ Hcmp). lia.
Qed.

Lemma insertSorted_sorted x l :
  StronglySorted le l → StronglySorted le (insertSorted cmp x l).
Proof.
  induction 1 as [|y l Hs IH Hy]; cbn.
  - repeat constructor.
  - case_decide as Hxy.
    + constructor; [by constructor|]. constructor; [done|].
      eapply Forall_impl; [exact Hy|]. intros z Hz.
      by apply (cmp_trans _ Hcmp x y z).
    + constructor; [done|].
      rewrite insertSorted_Permutation. constructor; [|done].
      by apply cmp_total.
Qed.

Lemma sortBy_sorted l : StronglySorted le (sortBy cmp l).
Proof.
  induction l as [|x l IH]; cbn; [constructor|]. by apply insertSorted_sorted.
Qed.

End Sort.

Lemma compareNames_consistent env :
  ConsistentComparator (localeCompare env) → ConsistentComparator (compareNames env).
Proof.
  intros [Hflip Htrans]. split; unfold compareNames.
  - intros a b. apply Hflip.
  - intros a b c. apply Htrans.
Qed.

(** C7. After a playlist is created under a name that is not empty after
    trimming, the collection is the former one with the new playlist, sorted
    by the host's [localeCompare] at sensitivity 'base' (a consistent
    comparator); when the host puts "A" before "B" before "z", creating "B"
    beside "A" and "z" gives the names A, B, z. *)
Theorem created_playlist_is_sorted env st :
  ConsistentComparator (localeCompare env) →
  view st = create_playlist_input →
  trim (newPlaylistName st) ≠ "" →
  ∃ st', onCenter env st = Ok st'
    ∧ StronglySorted (nameLe env) (playlists st')
    ∧ playlists st' ≡ₚ
        playlists st ++
        [{| pl_id := now env; pl_name := newPlaylistName st;
            pl_songs := match tempSong st with Some s => [s] | None => [] end |}]
    ∧ (pl_name <$> playlists st = ["A"; "z"] →
       newPlaylistName st = "B" →
       localeCompare env "A" "B" < 0 →
       localeCompare env "B" "z" < 0 →
       pl_name <$> playlists st' = ["A"; "B"; "z"]).
Proof.
  intros Hcmp Hv Hname. unfold onCenter, handleCenterClick. rewrite Hv.
  unfold handleCreatePlaylist. rewrite decide_False by done.
  eexists. split; [reflexivity|].
  set (new := {| pl_id := now env; pl_name := newPlaylistName st;
                 pl_songs := match tempSong st with Some s => [s] | None => [] end |}).
  assert (Hkeep : playlists
      (commit st (batch
         ([setPlaylists (sortBy (compareNames env) (playlists st ++ [new]));
           setNewPlaylistName ""; setTempSong None] ++
          match tempSong st with
          | Some _ =>
              [setActivePlaylistId (Some (pl_id new)); setView playlist_view;
               setSelectedIndex (Int 0)]
          | None =>
              [setView playlists_view;
               setSelectedIndex
                 (Int match list_find (λ p, pl_id p = pl_id new)
                              (sortBy (compareNames env) (playlists st ++ [new])) with
                      | Some (newIndex, _) => Z.of_nat newIndex
                      | None => 0
                      end)]
          end) st))
      = sortBy (compareNames env) (playlists st ++ [new])).
  { unfold commit. destruct (tempSong st); by case_decide. }
  rewrite Hkeep.
  split; [apply sortBy_sorted, compareNames_consistent, Hcmp|].
  split; [apply sortBy_Permutation|].
  intros Hnames HB HAB HBz.
  destruct (playlists st) as [|pa [|pz [|? ?]]]; try discriminate Hnames.
  injection Hnames as Ha Hz.
  assert (HzB : ¬ localeCompare env "z" "B" ≤ 0).
  { apply (cmp_flip _ Hcmp) in HBz. lia. }
  unfold sortBy, compareNames. cbn. rewrite Hz, HB.
  rewrite decide_False by done. cbn. rewrite Ha, HB.
  rewrite decide_True by lia. cbn. by rewrite Ha, Hz, HB.
Qed.

Lemma compareCodeUnits_flip a b :
  compareCodeUnits a b < 0 ↔ 0 < compareCodeUnits b a.
Proof.
  revert b. induction a as [|x a IH]; intros [|y b]; cbn; try lia.
  repeat case_decide; try lia. apply IH.
Qed.

Lemma compareCodeUnits_trans a b c :
  compareCodeUnits a b ≤ 0 → compareCodeUnits b c ≤ 0 → compareCodeUnits a c ≤ 0.
Proof.
  revert b c. induction a as [|x a IH]; intros [|y b] [|z c]; cbn; try lia.
  repeat case_decide; try lia. apply IH.
Qed.

Lemma baseCompare_consistent : ConsistentComparator baseCompare.
Proof.
  split; unfold baseCompare.
  - intros a b. apply compareCodeUnits_flip.
  - intros a b c. apply compareCodeUnits_trans.
Qed.

(** The scenario of the spec with the sample host: "B" created beside "A"
    and "z". *)
Lemma created_playlist_is_sorted_witness :
  let st := typedName [playlistA; playlistZ] "B" in
  ∃ st', onCenter sampleEnv st = Ok st'
    ∧ pl_name <$> playlists st' = ["A"; "B"; "z"]
    ∧ StronglySorted (nameLe sampleEnv) (playlists st').
Proof.
  intros st.
  destruct (created_playlist_is_sorted sampleEnv st baseCompare_consistent eq_refl)
    as (st' & Hcenter & Hsorted & _ & Hscenario); [by vm_compute|].
  exists st'. split; [exact Hcenter|]. split; [|exact Hsorted].
  apply Hscenario; by vm_compute.
Defined.

(** ** Drag to reorder *)

Section Splice.

Context {A : Type}.
Implicit Types l : list A.

Lemma spliceStart_inside l (i : nat) :
  (i ≤ length l)%nat → spliceStart l (Z.of_nat i) = i.
Proof. intros H. unfold spliceStart, len. case_decide; lia. Qed.

(** [l.splice(i, 1)] takes out the element at [i]. *)
Lemma splice_remove l i x :
  l !! i = Some x → splice l (Z.of_nat i) 1 [] = (delete i l, [x]).
Proof.
  intros Hi. pose proof (lookup_lt_Some _ _ _ Hi) as Hlt.
  unfold splice. rewrite spliceStart_inside by lia. cbn [app]. f_equal.
  - rewrite delete_take_drop. do 2 f_equal. lia.
  - by rewrite (drop_S _ _ _ Hi).
Qed.

(** [l.splice(j, 0, x)] puts [x] in at [j]. *)
Lemma splice_insert l j x :
  (j ≤ length l)%nat →
  (splice l (Z.of_nat j) 0 [x]).1 = take j l ++ x :: drop j l.
Proof.
  intros Hj. unfold splice. rewrite spliceStart_inside by lia. cbn.
  by rewrite Nat.add_0_r.
Qed.

Lemma moved_same l i x : l !! i = Some x → moved l i i = l.
Proof.
  intros Hi. pose proof (lookup_lt_Some _ _ _ Hi).
  unfold moved. rewrite Hi, delete_take_drop.
  rewrite take_app_length', drop_app_length' by (rewrite length_take; lia).
  by apply take_drop_middle.
Qed.

Lemma moved_lookup l i j x :
  l !! i = Some x → (j < length l)%nat → moved l i j !! j = Some x.
Proof.
  intros Hi Hj. pose proof (lookup_lt_Some _ _ _ Hi).
  unfold moved. rewrite Hi. apply list_lookup_middle.
  rewrite length_take, length_delete by eauto. lia.
Qed.

(** The other elements keep their order: without the moved element the
    list is the original one without it. *)
Lemma moved_delete l i j x :
  l !! i = Some x → (j < length l)%nat → delete j (moved l i j) = delete i l.
Proof.
  intros Hi Hj. pose proof (lookup_lt_Some _ _ _ Hi).
  unfold moved. rewrite Hi.
  assert (Hlen : length (take j (delete i l)) = j).
  { rewrite length_take, length_delete by eauto. lia. }
  rewrite <- Hlen at 1. rewrite delete_middle. apply take_drop.
Qed.

Lemma moved_Permutation l i j : moved l i j ≡ₚ l.
Proof.
  unfold moved. destruct (l !! i) as [x|] eqn:Hi; [|done].
  rewrite <- Permutation_middle, take_drop. symmetry.
  by apply delete_Permutation.
Qed.

End Splice.

Lemma withSongs_same p : withSongs p (pl_songs p) = p.
Proof. by destruct p. Qed.

(** C9. One drag-enter step that carries the song at index [s] of the active
    playlist over the song at index [t] (item [t + 1] of the view): the
    playlist becomes the one with that song taken out and put back at [t],
    the other songs keep their relative order, and the dragged index
    becomes [t]; a song dragged from 0 to 2 among four gives the order
    1, 2, 0, 3. *)
Theorem drag_reorder st ap (s t : nat) x :
  activePlaylist st = Some ap →
  draggedItemIndex st = Some (Z.of_nat s) →
  pl_songs ap !! s = Some x →
  (t < length (pl_songs ap))%nat →
  ∃ us, handleDragEnter (Z.of_nat t + 1) st = Some us
    ∧ activePlaylist (batch us st) = Some (withSongs ap (moved (pl_songs ap) s t))
    ∧ draggedItemIndex (batch us st) = Some (Z.of_nat t)
    ∧ moved (pl_songs ap) s t !! t = Some x
    ∧ delete t (moved (pl_songs ap) s t) = delete s (pl_songs ap)
    ∧ (∀ a b c d, pl_songs ap = [a; b; c; d] → s = 0%nat → t = 2%nat →
         moved (pl_songs ap) s t = [b; c; a; d]).
Proof.
  intros Hap Hdrag Hs Ht.
  pose proof (lookup_lt_Some _ _ _ Hs) as Hslt.
  assert (Hidx : dragSongIndex (Z.of_nat t + 1) st = Z.of_nat t).
  { unfold dragSongIndex. rewrite Hap, decide_True by (unfold len; lia). lia. }
  unfold handleDragEnter. rewrite Hdrag, Hap, Hidx.
  rewrite decide_False by (unfold len; lia).
  destruct (decide (s = t)) as [<-|Hne].
  - rewrite decide_True by done. eexists. split; [reflexivity|].
    split.
    { rewrite (moved_same _ _ _ Hs), withSongs_same. exact Hap. }
    split; [exact Hdrag|].
    split; [by apply moved_lookup|]. split; [by eapply moved_delete|].
    intros a b c d _ H0 H2. congruence.
  - rewrite decide_False by lia.
    rewrite (splice_remove _ _ _ Hs).
    eexists. split; [reflexivity|].
    split.
    { unfold activePlaylist in *. cbn -[findPlaylist splice].
      rewrite findPlaylist_map by (intros q; by case_decide).
      rewrite Hap. cbn -[splice].
      apply findPlaylist_Some in Hap as [-> _].
      rewrite decide_True by done. do 2 f_equal.
      rewrite splice_insert by (rewrite length_delete by eauto; lia).
      unfold moved. by rewrite Hs. }
    split; [done|].
    split; [by apply moved_lookup|]. split; [by eapply moved_delete|].
    intros a b c d Hl -> ->. by rewrite Hl.
Qed.

(** The scenario of the spec: the song at position 0 of [fourSongs], dragged
    over the item of position 2. *)
Lemma drag_reorder_witness :
  let st := setDraggedItemIndex (Some 0) (playingFrom fourSongs 0 repeat_off) in
  ∃ us, handleDragEnter 3 st = Some us
    ∧ pl_songs <$> activePlaylist (batch us st) =
        Some [song "s1"; song "s2"; song "s0"; song "s3"]
    ∧ draggedItemIndex (batch us st) = Some 2.
Proof.
  intros st.
  destruct (drag_reorder st fourSongs 0 2 (song "s0") eq_refl eq_refl eq_refl)
    as (us & Henter & Hact & Hdrag & _); [cbn; lia|].
  exists us. split; [exact Henter|].
  split; [by rewrite Hact | exact Hdrag].
Defined.

(** ** Deleting the song that is playing *)

Section Pointer.

Variables (env : Env) (s : State) (pid : string) (k : Z) (q : Playlist).
Hypothesis Hnp :
  nowPlaying s = Some {| playlistId := Some pid; songIndex := Some k |}.
Hypothesis Hfind : findPlaylist (Some pid) (playlists s) = Some q.
(** The index is inside the playlist or one past its end. *)
Hypothesis Hk : 0 ≤ k ≤ len (pl_songs q).





End Pointer.




(** * Further properties of the component *)

(** ** The invariant of the reachable states *)

Lemma wellFormed_initial ps : wellFormed (initialState ps).
Proof.
  unfold wellFormed, pointerWellTyped, initialState. cbn.
  split; [by case_decide|]. split; [by case_decide|].
  split; [by intros [H|H]; case_decide|]. done.
Qed.

(** What the invariant reads of a state. *)
Lemma wellFormed_frame st st' :
  view st' = view st → tempSong st' = tempSong st →
  selectedSongIndex st' = selectedSongIndex st →
  activePlaylistId st' = activePlaylistId st →
  playlists st' = playlists st → nowPlaying st' = nowPlaying st →
  wellFormed st → wellFormed st'.
Proof.
  intros Hv Ht Hs Ha Hp Hn (H1 & H2 & H3 & H4).
  unfold wellFormed, songStaged, pointerWellTyped, activePlaylist in *.
  rewrite Hv, Ht, Hs, Ha, Hp, Hn. done.
Qed.

Lemma wellFormed_commit st st' : wellFormed st' → wellFormed (commit st st').
Proof.
  intros H. unfold commit. case_decide; [|done].
  by eapply wellFormed_frame; [..|exact H].
Qed.

Lemma findSongIndex_Some id songs k :
  findSongIndex id songs = Some k → ∃ x, songs !! k = Some x ∧ song_id x = id
    ∧ ∀ j y, songs !! j = Some y → (j < k)%nat → song_id y ≠ id.
Proof.
  unfold findSongIndex. destruct (list_find _ songs) as [[i x]|] eqn:E; [|done].
  intros [= ->]. apply list_find_Some in E as (Hk & Hx & Hmin). eauto.
Qed.

Lemma activePlaylist_id st ap :
  activePlaylist st = Some ap → activePlaylistId st = Some (pl_id ap).
Proof. intros H. by apply findPlaylist_Some in H as [-> _]. Qed.

Ltac wf_frame H := eapply wellFormed_frame; [..|exact H]; reflexivity.

Lemma wheel_wellFormed d st : wellFormed st → wellFormed (exec (handleWheel d) st).
Proof.
  intros H. unfold exec, handleWheel. destruct (view st) eqn:Hv; cbn; try done; wf_frame H.
Qed.

Lemma handleMenu_wellFormed st : wellFormed st → wellFormed (exec handleMenu st).
Proof.
  intros H. pose proof H as (H1 & H2 & H3 & H4).
  unfold exec, handleMenu.
  destruct (view st) eqn:Hv; try done;
    repeat first [case_decide | case_match];
    unfold wellFormed, songStaged, pointerWellTyped, activePlaylist in *; cbn;
    rewrite ?Hv in *;
    (split; [try done|split; [try done; intros; try discriminate; eauto|split; [intros [?|?]; try discriminate; eauto|try done]]]).
Qed.

Lemma wellFormed_plain st :
  plainView (view st) = true → pointerWellTyped st → wellFormed st.
Proof.
  intros Hv Hp. unfold wellFormed.
  destruct (view st); try discriminate Hv;
    (split; [done|split; [done|split; [by intros [?|?]|done]]]).
Qed.

Lemma pointerWellTyped_same st st' :
  nowPlaying st' = nowPlaying st → pointerWellTyped st → pointerWellTyped st'.
Proof. unfold pointerWellTyped. by intros ->. Qed.

Lemma pointerWellTyped_set st np :
  is_Some (playlistId np) → (∃ k, songIndex np = Some k ∧ 0 ≤ k) →
  pointerWellTyped (setNowPlaying (Some np) st).
Proof. intros H1 H2 np' [= <-]. done. Qed.

Ltac wf_leaf H :=
  first
    [ exact H
    | wf_frame H
    | apply wellFormed_plain;
      [reflexivity | eapply pointerWellTyped_same; [|apply H]; reflexivity] ].

Lemma handleCenterLongPress_wellFormed st :
  wellFormed st → wellFormed (exec handleCenterLongPress st).
Proof.
  intros H. unfold exec, handleCenterLongPress.
  case_decide as Hv; [|done].
  destruct (activePlaylist st) as [ap|] eqn:Hap; [|done].
  destruct (atNum _ _) as [item|]; [|done].
  case_decide; [|done].
  destruct (findSongIndex _ _) as [k|] eqn:Hk; [|done].
  apply findSongIndex_Some in Hk as (x & Hx & _).
  destruct H as (Wv & Wt & Ws & Wp).
  split; [done|]. split; [done|]. split; [|done].
  intros _. exists k, ap, x. done.
Qed.

Lemma handlePlaylistViewSelection_wellFormed index st :
  wellFormed st → wellFormed (exec (handlePlaylistViewSelection index) st).
Proof.
  intros H. unfold exec, handlePlaylistViewSelection.
  destruct (atNum _ _) as [item|]; [|wf_leaf H].
  case_decide; [wf_leaf H|]. case_decide; [wf_leaf H|].
  destruct (activePlaylist st) as [ap|] eqn:Hap; cbn -[findSongIndex]; [|wf_leaf H].
  destruct (findSongIndex _ _) as [k|] eqn:Hk; [|wf_leaf H].
  apply findSongIndex_Some in Hk as (x & Hx & _).
  destruct H as (Wv & Wt & Ws & Wp).
  split; [done|]. split; [done|]. split; [|done].
  intros _. exists k, ap, x. done.
Qed.

Lemma handleMainMenuSelection_wellFormed index st :
  wellFormed st → wellFormed (exec (handleMainMenuSelection index) st).
Proof.
  intros H. unfold exec, handleMainMenuSelection.
  repeat case_decide; wf_leaf H.
Qed.

Lemma handlePlaylistsSelection_wellFormed index st :
  wellFormed st →
  wellFormed (batch (runUpdates (handlePlaylistsSelection index st)) st).
Proof.
  intros H. unfold handlePlaylistsSelection.
  destruct (atNum _ _) as [item|]; cbn [runUpdates]; [|wf_leaf H].
  case_decide; wf_leaf H.
Qed.

(** Moving the index of a well-typed pointer to a non-negative value. *)
Lemma withSongIndex_wellTyped st np i :
  pointerWellTyped st → nowPlaying st = Some np → 0 ≤ i →
  ∀ st', nowPlaying st' = withSongIndex np i → pointerWellTyped st'.
Proof.
  intros Hp Hnp Hi st' Hst' np' Hnp'. rewrite Hst' in Hnp'.
  injection Hnp' as <-. cbn. split; [by apply (Hp np)|]. eauto.
Qed.

Lemma pointer_index_nonneg st np :
  pointerWellTyped st → nowPlaying st = Some np → 0 ≤ toNumber (songIndex np).
Proof. intros Hp Hnp. destruct (Hp np Hnp) as (_ & k & -> & Hk). done. Qed.

Lemma wellFormed_pointer st st' :
  view st' = view st → tempSong st' = tempSong st →
  selectedSongIndex st' = selectedSongIndex st →
  activePlaylistId st' = activePlaylistId st →
  playlists st' = playlists st →
  pointerWellTyped st' →
  wellFormed st → wellFormed st'.
Proof.
  intros Hv Ht Hs Ha Hp Hn (W1 & W2 & W3 & W4).
  unfold wellFormed, songStaged, activePlaylist in *.
  rewrite Hv, Ht, Hs, Ha, Hp. done.
Qed.

Lemma handleNextTrack_wellFormed st :
  wellFormed st → wellFormed (exec handleNextTrack st).
Proof.
  intros H. unfold exec, handleNextTrack.
  destruct (nowPlaying st) as [np|] eqn:Hnp; [|done].
  destruct (findPlaylist _ _) as [p|]; [|done].
  pose proof (pointer_index_nonneg st np (proj2 (proj2 (proj2 H))) Hnp).
  repeat case_decide; try done;
    (eapply wellFormed_pointer; [..|exact H]; try reflexivity;
     eapply (withSongIndex_wellTyped st np); [apply H|done| |reflexivity]; lia).
Qed.

Lemma handlePrevTrack_wellFormed env st :
  wellFormed st → wellFormed (exec (handlePrevTrack env) st).
Proof.
  intros H. unfold exec, handlePrevTrack.
  destruct (nowPlaying st) as [np|] eqn:Hnp; [|done].
  pose proof (pointer_index_nonneg st np (proj2 (proj2 (proj2 H))) Hnp).
  destruct (playerTimeOver3 env); [wf_frame H|].
  case_decide.
  { eapply wellFormed_pointer; [..|exact H]; try reflexivity.
    eapply (withSongIndex_wellTyped st np); [apply H|done| |reflexivity]. lia. }
  destruct (findPlaylist _ _) as [p|]; [|wf_frame H].
  case_decide as Hall; [|wf_frame H].
  eapply wellFormed_pointer; [..|exact H]; try reflexivity.
  eapply (withSongIndex_wellTyped st np); [apply H|done| |reflexivity]. lia.
Qed.

Lemma handleSongEnd_wellFormed env st :
  wellFormed st → wellFormed (exec (handleSongEnd env) st).
Proof.
  intros H. unfold exec, handleSongEnd.
  destruct (nowPlaying st) as [np|] eqn:Hnp; [|done].
  pose proof (pointer_index_nonneg st np (proj2 (proj2 (proj2 H))) Hnp).
  destruct (findPlaylist _ _) as [p|]; [|wf_frame H].
  case_decide; [wf_frame H|].
  destruct (repeatMode st).
  - case_decide; [|wf_frame H].
    eapply wellFormed_pointer; [..|exact H]; try reflexivity.
    eapply (withSongIndex_wellTyped st np); [apply H|done| |reflexivity]. lia.
  - wf_frame H.
  - eapply wellFormed_pointer; [..|exact H]; try reflexivity.
    eapply (withSongIndex_wellTyped st np); [apply H|done| |reflexivity].
    apply Z.rem_nonneg; unfold len in *; lia.
Qed.

Lemma handlePlayPause_wellFormed env st :
  wellFormed st → wellFormed (exec (handlePlayPause env) st).
Proof.
  intros H. unfold exec, handlePlayPause.
  destruct (ytPlayer env && isPlayerReady env).
  { destruct (playerStatePlaying env); wf_frame H. }
  destruct (currentSong st); [wf_frame H|].
  destruct (playlists st) as [|p0 ps] eqn:Hps; [done|].
  case_decide; [|done].
  apply wellFormed_plain; [reflexivity|].
  intros np [= <-]. cbn. split; [done|]. by exists 0.
Qed.

Lemma handleSongMenuSelection_wellFormed index st :
  wellFormed st → view st = song_menu →
  wellFormed (exec (handleSongMenuSelection index) st).
Proof.
  intros H Hv. unfold exec, handleSongMenuSelection.
  case_decide; [|wf_frame H].
  destruct H as (Wv & Wt & Ws & Wp).
  destruct Ws as (k & ap & x & Hk & Hap & Hx); [by left|].
  apply wellFormed_plain; [reflexivity|].
  intros np [= <-]. cbn. rewrite (activePlaylist_id _ _ Hap), Hk.
  split; [done|]. exists (Z.of_nat k). split; [done|lia].
Qed.

Lemma handleConfirmation_wellFormed env index st :
  wellFormed st →
  view st = delete_song_confirm ∨ view st = delete_playlist_confirm
    ∨ view st = shuffle_confirm →
  wellFormed (exec (handleConfirmation env index) st).
Proof.
  intros H Hv. unfold exec, handleConfirmation.
  case_decide.
  - destruct Hv as [Hv|[Hv|Hv]]; rewrite Hv.
    + unfold handleDeleteSong. repeat case_match; try wf_frame H; wf_leaf H.
    + unfold handleDeletePlaylist. repeat case_match; try wf_frame H; wf_leaf H.
    + unfold handleShufflePlaylist. destruct (truthy _); [|wf_frame H].
      apply wellFormed_plain; [reflexivity|].
      intros np [= <-]. cbn. split; [done|]. by exists 0.
  - destruct Hv as [Hv|[Hv|Hv]]; rewrite Hv; try wf_leaf H.
    destruct H as (Wv & Wt & Ws & Wp).
    split; [done|]. split; [done|]. split; [|done].
    intros _. apply Ws. by right.
Qed.

Lemma handleSelectPlaylistForSongSelection_wellFormed index st :
  wellFormed st →
  wellFormed (batch (runUpdates (handleSelectPlaylistForSongSelection index st)) st).
Proof.
  intros H. unfold handleSelectPlaylistForSongSelection.
  destruct (atNum _ _) as [sel|]; cbn [runUpdates]; [|wf_leaf H].
  case_decide; [wf_leaf H|].
  destruct (tempSong st); [|wf_leaf H].
  unfold addSongToPlaylist. wf_leaf H.
Qed.

Lemma handleNowPlayingSelection_wellFormed env index st :
  wellFormed st → view st = now_playing →
  wellFormed (exec (handleNowPlayingSelection env index) st).
Proof.
  intros H Hv. unfold exec, handleNowPlayingSelection.
  change (batch ([setSelectedIndex index] ++ ?us) st)
    with (batch us (setSelectedIndex index st)).
  assert (H' : wellFormed (setSelectedIndex index st)) by wf_frame H.
  repeat case_decide.
  - apply (handlePrevTrack_wellFormed env (setSelectedIndex index st) H').
  - apply (handlePlayPause_wellFormed env (setSelectedIndex index st) H').
  - apply (handleNextTrack_wellFormed (setSelectedIndex index st) H').
  - wf_frame H.
  - wf_frame H.
  - exact H'.
Qed.

Lemma handleAddSongUrl_wellFormed env st :
  wellFormed st → wellFormed (exec (handleAddSongUrl env) st).
Proof.
  intros H. unfold exec, handleAddSongUrl.
  destruct (truthy _); [|done].
  destruct H as (Wv & Wt & Ws & Wp).
  split; [done|]. split; [by eexists|]. split; [by intros [?|?]|done].
Qed.

Lemma handleCreatePlaylist_wellFormed env st :
  wellFormed st → wellFormed (exec (handleCreatePlaylist env) st).
Proof.
  intros H. unfold exec, handleCreatePlaylist.
  case_decide; [done|]. destruct (tempSong st); wf_leaf H.
Qed.

Lemma handleCenterClick_wellFormed env st :
  wellFormed st →
  wellFormed (batch (runUpdates (handleCenterClick env st)) st).
Proof.
  intros H. unfold handleCenterClick.
  destruct (view st) eqn:Hv; cbn [runUpdates].
  - by apply handleMainMenuSelection_wellFormed.
  - by apply handlePlaylistsSelection_wellFormed.
  - by apply handlePlaylistViewSelection_wellFormed.
  - by apply handleAddSongUrl_wellFormed.
  - by apply handleNowPlayingSelection_wellFormed.
  - by apply handleSelectPlaylistForSongSelection_wellFormed.
  - by apply handleCreatePlaylist_wellFormed.
  - by apply handleSongMenuSelection_wellFormed.
  - apply handleConfirmation_wellFormed; auto.
  - apply handleConfirmation_wellFormed; auto.
  - apply handleConfirmation_wellFormed; auto.
  - done.
Qed.

Lemma handleItemClick_wellFormed env i st :
  wellFormed st →
  wellFormed (batch (runUpdates (handleItemClick env i st)) st).
Proof.
  intros H. unfold handleItemClick.
  destruct (view st) eqn:Hv; cbn [runUpdates].
  - by apply handleMainMenuSelection_wellFormed.
  - by apply handlePlaylistsSelection_wellFormed.
  - by apply handlePlaylistViewSelection_wellFormed.
  - done.
  - by apply handleNowPlayingSelection_wellFormed.
  - by apply handleSelectPlaylistForSongSelection_wellFormed.
  - done.
  - by apply handleSongMenuSelection_wellFormed.
  - apply handleConfirmation_wellFormed; auto.
  - apply handleConfirmation_wellFormed; auto.
  - apply handleConfirmation_wellFormed; auto.
  - done.
Qed.

Lemma handleDragEnter_wellFormed i st us :
  wellFormed st → view st = playlist_view →
  handleDragEnter i st = Some us → wellFormed (batch us st).
Proof.
  intros H Hv. unfold handleDragEnter.
  destruct (draggedItemIndex st); [|intros [= <-]; done].
  destruct (activePlaylist st); [|intros [= <-]; done].
  case_decide; [intros [= <-]; wf_frame H|].
  case_decide; [intros [= <-]; wf_frame H|].
  destruct (splice _ _ _ _) as [newSongs removedList].
  destruct removedList; [done|]. intros [= <-].
  apply wellFormed_plain; [cbn; by rewrite Hv|].
  eapply pointerWellTyped_same; [|apply H]. reflexivity.
Qed.

(** Every event keeps the invariant. *)
Lemma fire_wellFormed env e st st' :
  wellFormed st → fire env e st = Some st' → wellFormed st'.
Proof.
  intros H. destruct e; cbn [fire].
  - intros [= <-]. destruct i; cbn [step].
    + by apply wellFormed_commit, wheel_wellFormed.
    + by apply wellFormed_commit, wheel_wellFormed.
    + unfold onCenter.
      pose proof (handleCenterClick_wellFormed env st H) as Hc.
      destruct (handleCenterClick env st); by apply wellFormed_commit.
    + by apply wellFormed_commit, handleCenterLongPress_wellFormed.
    + by apply wellFormed_commit, handleMenu_wellFormed.
  - intros [= <-]. by apply wellFormed_commit, handlePlayPause_wellFormed.
  - intros [= <-]. destruct (ytPlayer env); [|done].
    by apply wellFormed_commit, handleSongEnd_wellFormed.
  - intros [= <-]. destruct (ytPlayer env); [|done].
    apply wellFormed_commit. wf_frame H.
  - intros [= <-]. destruct (ytPlayer env); [|done].
    apply wellFormed_commit. wf_frame H.
  - intros [= <-]. unfold onUrlChange. case_decide; [|done].
    apply wellFormed_commit. wf_frame H.
  - intros [= <-]. unfold onNameChange. case_decide; [|done].
    apply wellFormed_commit. wf_frame H.
  - intros [= <-]. unfold onSearchChange. case_decide; [|done].
    apply wellFormed_commit. wf_frame H.
  - intros [= <-]. unfold onItemClick. case_decide; [|done].
    pose proof (handleItemClick_wellFormed env i st H) as Hc.
    destruct (handleItemClick env i st); by apply wellFormed_commit.
  - intros [= <-]. case_decide; [|done]. apply wellFormed_commit. wf_frame H.
  - case_decide as Hi; [|by intros [= <-]].
    destruct (handleDragEnter _ st) as [us|] eqn:Hus; [|done]. intros [= <-].
    apply wellFormed_commit. eapply handleDragEnter_wellFormed; [done| |done].
    unfold dragItems in Hi. case_decide; [done|lia].
  - intros [= <-]. case_decide; [|done]. apply wellFormed_commit. wf_frame H.
  - intros [= <-]. case_decide; [|done]. apply wellFormed_commit. wf_frame H.
Qed.

(** The callback of an earlier render: it moves the index of that render's
    pointer, stops playback or replays. *)
Lemma handleSongEnd_from_wellFormed env rendered st :
  wellFormed rendered → wellFormed st →
  wellFormed (batch (handleSongEnd env rendered) st).
Proof.
  intros H0 H. unfold handleSongEnd.
  destruct (nowPlaying rendered) as [np|] eqn:Hnp; [|done].
  pose proof (pointer_index_nonneg rendered np (proj2 (proj2 (proj2 H0))) Hnp).
  assert (Hset : ∀ i, 0 ≤ i →
            wellFormed (batch [setNowPlaying (withSongIndex np i)] st)).
  { intros i Hi. eapply wellFormed_pointer; [..|exact H]; try reflexivity.
    intros np' [= <-]. cbn. split; [by apply (proj2 (proj2 (proj2 H0)) np)|].
    by exists i. }
  destruct (findPlaylist _ _) as [p|]; [|wf_frame H].
  case_decide; [wf_frame H|].
  destruct (repeatMode rendered).
  - case_decide; [|wf_frame H]. apply Hset. lia.
  - wf_frame H.
  - apply Hset. apply Z.rem_nonneg; unfold len in *; lia.
Qed.

Lemma Reachable_wellFormed st : Reachable st → wellFormed st.
Proof.
  induction 1 as [ps|env e st st' _ IH Hfire|env rendered st _ IH0 _ IH].
  - apply wellFormed_initial.
  - by eapply fire_wellFormed.
  - by apply wellFormed_commit, handleSongEnd_from_wellFormed.
Qed.

Lemma fireAll_None env es : foldl (λ o e, o ≫= fire env e) None es = None.
Proof. by induction es. Qed.

Lemma Reachable_fireAll env es st st' :
  Reachable st → fireAll env es st = Some st' → Reachable st'.
Proof.
  unfold fireAll. revert st. induction es as [|e es IH]; intros st Hst; cbn.
  - by intros [= <-].
  - destruct (fire env e st) as [st1|] eqn:Hfire; cbn.
    + apply IH. by eapply Reachable_fire.
    + by rewrite fireAll_None.
Qed.

(** X1. The view 'edit-song-title' of types.ts is never shown: no event
    leads to it from a first render. *)
Theorem unused_view_never_shown st : Reachable st → view st ≠ edit_song_title.
Proof. intros H. apply (Reachable_wellFormed st H). Qed.

Lemma Reachable_songMenuOfA : Reachable songMenuOfA.
Proof.
  apply (Reachable_fireAll sampleEnv toSongMenu (initialState [playlistA; playlistZ]));
    [apply Reachable_init | by vm_compute].
Qed.

Lemma Reachable_choosingPlaylist : Reachable choosingPlaylist.
Proof.
  apply (Reachable_fireAll sampleEnv toChoosePlaylist (initialState []));
    [apply Reachable_init | by vm_compute].
Qed.


Lemma unused_view_never_shown_witness : view songMenuOfA ≠ edit_song_title.
Proof. exact (unused_view_never_shown songMenuOfA Reachable_songMenuOfA). Defined.

(** X2. While the playlist for a new song is being chosen a song is staged,
    so the branch [else if (tempSong)] of the selection is always taken. *)
Theorem song_staged_while_choosing st :
  Reachable st → view st = select_playlist_for_song → is_Some (tempSong st).
Proof. intros H. apply (Reachable_wellFormed st H). Qed.

Lemma song_staged_while_choosing_witness : is_Some (tempSong choosingPlaylist).
Proof.
  exact (song_staged_while_choosing choosingPlaylist Reachable_choosingPlaylist
           eq_refl).
Defined.







(** ** How the collection of playlists changes *)

Lemma sameIdsAndNames_refl ps : sameIdsAndNames ps ps.
Proof. unfold sameIdsAndNames. induction ps; by constructor. Qed.

Lemma sameIdsAndNames_map (f : Playlist → Playlist) ps :
  (∀ p, pl_id (f p) = pl_id p ∧ pl_name (f p) = pl_name p) →
  sameIdsAndNames ps (map f ps).
Proof. intros Hf. unfold sameIdsAndNames. induction ps; by constructor. Qed.

Lemma sameIdsAndNames_shuffle rnd k pid ps :
  sameIdsAndNames ps (shufflePlaylists rnd k pid ps).
Proof.
  eapply Forall2_impl; [apply shufflePlaylists_related|].
  intros p p' (Hid & Hname & _). done.
Qed.

Lemma sameIdsAndNames_ids ps ps' :
  sameIdsAndNames ps ps' → pl_id <$> ps' = pl_id <$> ps.
Proof. induction 1 as [|p p' ps ps' [Hid _] _ IH]; cbn; congruence. Qed.

Lemma sameIdsAndNames_names ps ps' :
  sameIdsAndNames ps ps' → pl_name <$> ps' = pl_name <$> ps.
Proof. induction 1 as [|p p' ps ps' [_ Hn] _ IH]; cbn; congruence. Qed.

Section Change.

Variable env : Env.

Local Ltac unchanged := apply change_songs, sameIdsAndNames_refl.

Local Ltac songs_only :=
  apply change_songs; cbn -[splice];
  first [ apply sameIdsAndNames_refl
        | apply sameIdsAndNames_shuffle
        | apply sameIdsAndNames_map; intros ?; by case_decide ].

Lemma handleCenterClick_change st :
  PlaylistsChange env st (playlists (batch (runUpdates (handleCenterClick env st)) st)).
Proof.
  unfold handleCenterClick. destruct (view st) eqn:Hv; cbn [runUpdates].
  - unfold handleMainMenuSelection. repeat case_decide; unchanged.
  - unfold handlePlaylistsSelection.
    destruct (atNum _ _); cbn [runUpdates]; [case_decide|]; unchanged.
  - unfold handlePlaylistViewSelection.
    repeat first [case_decide | case_match]; unchanged.
  - unfold handleAddSongUrl. destruct (truthy _); unchanged.
  - unfold handleNowPlayingSelection, handlePrevTrack, handlePlayPause,
      handleNextTrack.
    repeat first [case_decide | case_match]; unchanged.
  - unfold handleSelectPlaylistForSongSelection, addSongToPlaylist.
    destruct (atNum _ _); cbn [runUpdates]; [|unchanged].
    case_decide; [unchanged|]. destruct (tempSong st); [songs_only|unchanged].
  - unfold handleCreatePlaylist. case_decide; [unchanged|].
    destruct (tempSong st); cbn -[sortBy]; by apply change_created.
  - unfold handleSongMenuSelection. case_decide; unchanged.
  - unfold handleConfirmation, handleDeleteSong. rewrite Hv.
    repeat first [case_decide | case_match]; first [unchanged | songs_only].
  - unfold handleConfirmation, handleDeletePlaylist, truthy. rewrite Hv.
    case_decide; [|unchanged].
    destruct (playlistToDeleteId st) as [pid|] eqn:Hpid; [|unchanged].
    case_decide; [unchanged|]. cbn -[filter]. by apply change_removed.
  - unfold handleConfirmation, handleShufflePlaylist. rewrite Hv.
    repeat first [case_decide | case_match]; first [unchanged | songs_only].
  - unchanged.
Qed.

Lemma handleItemClick_change i st :
  PlaylistsChange env st (playlists (batch (runUpdates (handleItemClick env i st)) st)).
Proof.
  unfold handleItemClick. destruct (view st) eqn:Hv; cbn [runUpdates].
  - unfold handleMainMenuSelection. repeat case_decide; unchanged.
  - unfold handlePlaylistsSelection.
    destruct (atNum _ _); cbn [runUpdates]; [case_decide|]; unchanged.
  - unfold handlePlaylistViewSelection.
    repeat first [case_decide | case_match]; unchanged.
  - unchanged.
  - unfold handleNowPlayingSelection, handlePrevTrack, handlePlayPause,
      handleNextTrack.
    repeat first [case_decide | case_match]; unchanged.
  - unfold handleSelectPlaylistForSongSelection, addSongToPlaylist.
    destruct (atNum _ _); cbn [runUpdates]; [|unchanged].
    case_decide; [unchanged|]. destruct (tempSong st); [songs_only|unchanged].
  - unchanged.
  - unfold handleSongMenuSelection. case_decide; unchanged.
  - unfold handleConfirmation, handleDeleteSong. rewrite Hv.
    repeat first [case_decide | case_match]; first [unchanged | songs_only].
  - unfold handleConfirmation, handleDeletePlaylist, truthy. rewrite Hv.
    case_decide; [|unchanged].
    destruct (playlistToDeleteId st) as [pid|] eqn:Hpid; [|unchanged].
    case_decide; [unchanged|]. cbn -[filter]. by apply change_removed.
  - unfold handleConfirmation, handleShufflePlaylist. rewrite Hv.
    repeat first [case_decide | case_match]; first [unchanged | songs_only].
  - unchanged.
Qed.

Lemma playlists_commit st st' : playlists (commit st st') = playlists st'.
Proof. unfold commit. by case_decide. Qed.

Lemma fire_change e st st' :
  fire env e st = Some st' → PlaylistsChange env st (playlists st').
Proof.
  destruct e; cbn [fire].
  - intros [= <-]. destruct i; cbn [step].
    + unfold onNext. rewrite playlists_commit. unfold exec, handleNext, handleWheel.
      destruct (view st); unchanged.
    + unfold onPrev. rewrite playlists_commit. unfold exec, handlePrev, handleWheel.
      destruct (view st); unchanged.
    + unfold onCenter. pose proof (handleCenterClick_change st) as Hc.
      destruct (handleCenterClick env st); cbn [stateOf];
        by rewrite playlists_commit.
    + unfold onCenterLongPress. rewrite playlists_commit.
      unfold exec, handleCenterLongPress.
      repeat first [case_decide | case_match]; unchanged.
    + unfold onMenu. rewrite playlists_commit. unfold exec, handleMenu.
      destruct (view st); repeat first [case_decide | case_match]; unchanged.
  - intros [= <-]. unfold onPlayPause. rewrite playlists_commit.
    unfold exec, handlePlayPause.
    repeat first [case_decide | case_match]; unchanged.
  - intros [= <-]. destruct (ytPlayer env); [|unchanged].
    unfold onTrackEnded. rewrite playlists_commit. unfold exec, handleSongEnd.
    repeat first [case_decide | case_match]; unchanged.
  - intros [= <-]. destruct (ytPlayer env); [|unchanged].
    unfold onPlayerPlaying. rewrite playlists_commit. unchanged.
  - intros [= <-]. destruct (ytPlayer env); [|unchanged].
    unfold onPlayerPaused. rewrite playlists_commit. unchanged.
  - intros [= <-]. unfold onUrlChange. case_decide; [|unchanged].
    rewrite playlists_commit. unchanged.
  - intros [= <-]. unfold onNameChange. case_decide; [|unchanged].
    rewrite playlists_commit. unchanged.
  - intros [= <-]. unfold onSearchChange. case_decide; [|unchanged].
    rewrite playlists_commit. unchanged.
  - intros [= <-]. unfold onItemClick. case_decide; [|unchanged].
    pose proof (handleItemClick_change i st) as Hc.
    destruct (handleItemClick env i st); cbn [stateOf];
      by rewrite playlists_commit.
  - intros [= <-]. case_decide; [|unchanged]. rewrite playlists_commit. unchanged.
  - case_decide; [|intros [= <-]; unchanged].
    unfold handleDragEnter.
    repeat first [case_decide | case_match]; cbn; try done; intros [= <-];
      rewrite playlists_commit; first [unchanged | songs_only].
  - intros [= <-]. case_decide; [|unchanged]. rewrite playlists_commit. unchanged.
  - intros [= <-]. case_decide; [|unchanged]. rewrite playlists_commit. unchanged.
Qed.

End Change.

(** X6. No event renames a playlist, changes an id or reorders the
    collection.  An event leaves ids and names in place (only songs may
    change), or removes the playlists with the staged id when a deletion is
    confirmed, or, on the creation of a playlist under a name that is not
    blank, adds that playlist and sorts. *)
Theorem collection_changes_in_three_ways env e st st' :
  fire env e st = Some st' → PlaylistsChange env st (playlists st').
Proof. apply fire_change. Qed.

Lemma collection_changes_in_three_ways_witness :
  PlaylistsChange sampleEnv nowPlayingA
    (playlists (stateOf (onItemClick sampleEnv 2 nowPlayingA))).
Proof.
  apply (collection_changes_in_three_ways sampleEnv (ItemClick 2) nowPlayingA).
  reflexivity.
Defined.

Lemma StronglySorted_filter {A} (R : relation A) (P : A → Prop)
    `{∀ x, Decision (P x)} l :
  StronglySorted R l → StronglySorted R (filter P l).
Proof.
  induction 1 as [|x l Hs IH Hx]; [constructor|].
  rewrite filter_cons. case_decide; [|done].
  constructor; [done|].
  apply Forall_forall. intros y [_ Hy]%list_elem_of_filter.
  by eapply Forall_forall in Hx.
Qed.

(** Being sorted by name is a matter of the names. *)
Lemma sorted_by_names env ps :
  StronglySorted (nameLe env) ps ↔
  StronglySorted (λ a b, localeCompare env a b ≤ 0) (pl_name <$> ps).
Proof.
  induction ps as [|p ps IH]; cbn.
  - split; constructor.
  - rewrite !StronglySorted_cons, IH, Forall_fmap. done.
Qed.

(** X7. A collection sorted by name stays sorted through every event, the
    host's comparator being consistent. *)
Theorem collection_stays_sorted env e st st' :
  ConsistentComparator (localeCompare env) →
  StronglySorted (nameLe env) (playlists st) →
  fire env e st = Some st' →
  StronglySorted (nameLe env) (playlists st').
Proof.
  intros Hcmp Hsorted Hfire.
  destruct (fire_change env e st st' Hfire) as [ps' Hsame|pid _ _|songs _ _].
  - apply sorted_by_names. rewrite (sameIdsAndNames_names _ _ Hsame).
    by apply sorted_by_names.
  - by apply StronglySorted_filter.
  - apply sortBy_sorted. by apply compareNames_consistent.
Qed.

(** The deletion of "z" is confirmed beside "A": the collection stays
    sorted. *)
Lemma collection_stays_sorted_witness :
  let st := setSelectedIndex (Int 1)
              (setPlaylistToDeleteId (Some "2")
                 (setView delete_playlist_confirm
                    (initialState [playlistA; playlistZ]))) in
  playlists (step sampleEnv Center st) = [playlistA]
  ∧ StronglySorted (nameLe sampleEnv) (playlists (step sampleEnv Center st)).
Proof.
  intros st. split; [reflexivity|].
  apply (collection_stays_sorted sampleEnv (Wheel Center) st).
  - apply baseCompare_consistent.
  - repeat constructor; by vm_compute.
  - reflexivity.
Defined.

(** X8. Playlist ids stay pairwise distinct through every event, provided
    the time stamp that would name a new playlist is not already an id. *)
Theorem playlist_ids_stay_distinct env e st st' :
  NoDup (playlistIds st) →
  now env ∉ playlistIds st →
  fire env e st = Some st' →
  NoDup (playlistIds st').
Proof.
  intros Hnodup Hfresh Hfire. unfold playlistIds in *.
  destruct (fire_change env e st st' Hfire) as [ps' Hsame|pid _ _|songs _ _].
  - by rewrite (sameIdsAndNames_ids _ _ Hsame).
  - assert (Hsub : pl_id <$> filter (λ p, pl_id p ≠ pid) (playlists st)
                    `sublist_of` pl_id <$> playlists st)
      by apply fmap_sublist, sublist_filter.
    by eapply sublist_NoDup.
  - rewrite (sortBy_Permutation (compareNames env)), fmap_app. cbn.
    apply NoDup_app. split; [done|]. split; [|apply NoDup_singleton].
    intros x Hx Hin. apply list_elem_of_singleton in Hin. by subst.
Qed.

(** "B" is created beside "A" and "z" at a new time stamp. *)
Lemma playlist_ids_stay_distinct_witness :
  let st := typedName [playlistA; playlistZ] "B" in
  playlistIds (step sampleEnv Center st) = ["1"; "1700000000000"; "2"]
  ∧ NoDup (playlistIds (step sampleEnv Center st)).
Proof.
  intros st. split; [by vm_compute|].
  apply (playlist_ids_stay_distinct sampleEnv (Wheel Center) st).
  - apply (bool_decide_unpack _). by vm_compute.
  - apply (bool_decide_unpack _). by vm_compute.
  - reflexivity.
Defined.

(** ** Playback: the pointer under next, previous and track-ended *)

Section PointerInRange.

Variables (env : Env) (st : State).
Hypothesis Hin : pointerInRange st.

Local Ltac keep np p Hnp Hp Hr :=
  exists np, p; split; [exact Hnp|]; split; [exact Hp | exact Hr].

Local Ltac moved_to p Hp :=
  eexists _, p; split; [reflexivity|]; split; [exact Hp|];
  cbn [songIndex toNumber default from_option id]; unfold id, len in *.

Lemma handleNextTrack_in_range : pointerInRange (exec handleNextTrack st).
Proof.
  destruct Hin as (np & p & Hnp & Hp & Hr).
  unfold exec, handleNextTrack. rewrite Hnp, Hp.
  case_decide; [moved_to p Hp; lia|].
  case_decide; [moved_to p Hp; lia | keep np p Hnp Hp Hr].
Qed.

Lemma handlePrevTrack_in_range : pointerInRange (exec (handlePrevTrack env) st).
Proof.
  destruct Hin as (np & p & Hnp & Hp & Hr).
  unfold exec, handlePrevTrack. rewrite Hnp, Hp.
  destruct (playerTimeOver3 env); [keep np p Hnp Hp Hr|].
  case_decide; [moved_to p Hp; lia|].
  case_decide; [moved_to p Hp; lia | keep np p Hnp Hp Hr].
Qed.

Lemma handleSongEnd_in_range : pointerInRange (exec (handleSongEnd env) st).
Proof.
  destruct Hin as (np & p & Hnp & Hp & Hr).
  unfold exec, handleSongEnd. rewrite Hnp, Hp.
  case_decide; [keep np p Hnp Hp Hr|].
  destruct (repeatMode st).
  - case_decide; [moved_to p Hp; lia | keep np p Hnp Hp Hr].
  - keep np p Hnp Hp Hr.
  - moved_to p Hp. rewrite Z.rem_mod_nonneg by lia. apply Z.mod_pos_bound. lia.
Qed.

End PointerInRange.

(** X9. A pointer that names a song of an existing playlist still does so
    after next track, previous track and track-ended, whatever the repeat
    mode and the player's clock. *)
Theorem playback_keeps_pointer_in_range env st :
  pointerInRange st →
  pointerInRange (exec handleNextTrack st)
  ∧ pointerInRange (exec (handlePrevTrack env) st)
  ∧ pointerInRange (exec (handleSongEnd env) st).
Proof.
  intros Hin. split; [by apply handleNextTrack_in_range|].
  split; [by apply handlePrevTrack_in_range | by apply handleSongEnd_in_range].
Qed.

Lemma pointerInRange_playingFrom :
  pointerInRange (playingFrom threeSongs 2 repeat_all).
Proof.
  eexists _, threeSongs. split; [reflexivity|]. split; [reflexivity|].
  by vm_compute.
Qed.

Lemma playback_keeps_pointer_in_range_witness :
  nowPlaying (exec handleNextTrack (playingFrom threeSongs 2 repeat_all)) =
    Some {| playlistId := Some "3"; songIndex := Some 0 |}
  ∧ pointerInRange (exec handleNextTrack (playingFrom threeSongs 2 repeat_all)).
Proof.
  split; [reflexivity|].
  exact (proj1 (playback_keeps_pointer_in_range sampleEnv _
                  pointerInRange_playingFrom)).
Defined.

(** X10. Next track and previous track undo each other: with at most 3
    seconds played, previous after next gives the pointer back when the
    track is not the last one or the repeat mode is 'all' (next then wraps
    to 0 and previous back to the last track), and next after previous gives
    it back when the track is not the first one or the repeat mode is
    'all'. *)
Theorem next_and_previous_track_round_trip env st pid k p :
  nowPlaying st = Some {| playlistId := Some pid; songIndex := Some k |} →
  findPlaylist (Some pid) (playlists st) = Some p →
  0 ≤ k < len (pl_songs p) →
  playerTimeOver3 env = false →
  (k + 1 < len (pl_songs p) ∨ repeatMode st = repeat_all →
   nowPlaying (exec (handlePrevTrack env) (exec handleNextTrack st)) = nowPlaying st)
  ∧ (0 < k ∨ repeatMode st = repeat_all →
     nowPlaying (exec handleNextTrack (exec (handlePrevTrack env) st)) = nowPlaying st).
Proof.
  intros Hnp Hp Hk Htime. split; intros Hcase.
  - unfold exec at 2. unfold handleNextTrack. rewrite Hnp.
    cbn [playlistId songIndex]. rewrite Hp. change (toNumber (Some k)) with k.
    case_decide as Hlast.
    + unfold exec, handlePrevTrack. cbn -[findPlaylist].
      rewrite Htime, decide_True by lia. cbn. rewrite ?Hnp. unfold withSongIndex. cbn. do 3 f_equal. lia.
    + destruct Hcase as [?|Hall]; [lia|]. rewrite decide_True by done.
      unfold exec, handlePrevTrack. cbn -[findPlaylist].
      rewrite Htime, decide_False by lia. rewrite Hp.
      rewrite decide_True by (split; [done|lia]).
      cbn. rewrite ?Hnp. unfold withSongIndex. cbn. do 3 f_equal. lia.
  - unfold exec at 2. unfold handlePrevTrack. rewrite Hnp, Htime.
    cbn [playlistId songIndex]. change (toNumber (Some k)) with k.
    case_decide as Hfirst.
    + unfold exec, handleNextTrack. cbn -[findPlaylist]. rewrite Hp.
      rewrite decide_True by lia. cbn. rewrite ?Hnp. unfold withSongIndex. cbn. do 3 f_equal. lia.
    + destruct Hcase as [?|Hall]; [lia|]. rewrite Hp.
      rewrite decide_True by (split; [done|lia]).
      unfold exec, handleNextTrack. cbn -[findPlaylist]. rewrite Hp.
      rewrite decide_False by lia. rewrite decide_True by done.
      cbn. rewrite ?Hnp. unfold withSongIndex. cbn. do 3 f_equal. lia.
Qed.

(** The last of three tracks under repeat-all: next wraps to the first and
    previous comes back. *)
Lemma next_and_previous_track_round_trip_witness :
  let st := playingFrom threeSongs 2 repeat_all in
  nowPlaying (exec (handlePrevTrack sampleEnv) (exec handleNextTrack st)) = nowPlaying st
  ∧ nowPlaying (exec handleNextTrack (exec (handlePrevTrack sampleEnv) st)) = nowPlaying st.
Proof.
  intros st.
  destruct (next_and_previous_track_round_trip sampleEnv st "3" 2 threeSongs
              eq_refl eq_refl) as [Hnp Hpn]; [by vm_compute | reflexivity |].
  split; [apply Hnp | apply Hpn]; by right.
Defined.

(** X11. Play/pause without a player that is ready and without a current
    song starts the first song of the first playlist: now-playing is shown
    with that song, and the selection index is left as it was.  When the
    first playlist is empty nothing happens, whatever the other playlists
    hold. *)
Theorem play_pause_starts_first_song env st p0 ps :
  ytPlayer env && isPlayerReady env = false →
  currentSong st = None →
  playlists st = p0 :: ps →
  (∀ s0 ss, pl_songs p0 = s0 :: ss →
     view (onPlayPause env st) = now_playing
     ∧ currentSong (onPlayPause env st) = Some s0
     ∧ pointerInRange (onPlayPause env st)
     ∧ selectedIndex (onPlayPause env st) = selectedIndex st)
  ∧ (pl_songs p0 = [] → onPlayPause env st = st).
Proof.
  intros Hplayer Hcur Hps.
  unfold onPlayPause, exec, handlePlayPause. rewrite Hplayer, Hcur, Hps.
  split.
  - intros s0 ss Hsongs. rewrite Hsongs.
    rewrite decide_True by (unfold len; cbn; lia).
    rewrite commit_same_view_other by (cbn; done).
    assert (Hfind : findPlaylist (Some (pl_id p0)) (playlists st) = Some p0).
    { rewrite Hps. unfold findPlaylist. cbn. by rewrite decide_True. }
    split; [done|]. split.
    + unfold currentSong. cbn -[findPlaylist]. rewrite Hfind. cbn.
      by rewrite Hsongs.
    + split; [|done]. eexists _, p0. split; [reflexivity|].
      split; [exact Hfind|]. rewrite Hsongs. unfold len. cbn. lia.
  - intros ->. rewrite decide_False by (unfold len; cbn; lia).
    by apply commit_same_view.
Qed.

(** Play/pause in the list of playlists, before any song was played. *)
Lemma play_pause_starts_first_song_witness :
  let st := setSelectedIndex (Int 2)
              (setView playlists_view (initialState [playlistA; playlistZ])) in
  view (onPlayPause sampleEnv st) = now_playing
  ∧ currentSong (onPlayPause sampleEnv st) = Some (song "s1")
  ∧ selectedIndex (onPlayPause sampleEnv st) = Int 2.
Proof.
  intros st.
  destruct (play_pause_starts_first_song sampleEnv st playlistA [playlistZ]
              eq_refl eq_refl eq_refl) as [Hstart _].
  destruct (Hstart (song "s1") [] eq_refl) as (Hv & Hcur & _ & Hi).
  split; [exact Hv|]. split; [exact Hcur | exact Hi].
Defined.

Lemma setRepeatMode_id st m : repeatMode st = m → setRepeatMode m st = st.
Proof. intros <-. by destruct st. Qed.

Lemma setPlaybackMode_id st m : playbackMode st = m → setPlaybackMode m st = st.
Proof. intros <-. by destruct st. Qed.

(** X12. In now-playing, activating the repeat control three times, or the
    playback-mode control twice, gives the state back: the repeat mode
    cycles off, all, one, and the playback mode toggles. *)
Theorem repeat_and_playback_mode_cycle env st :
  view st = now_playing →
  (selectedIndex st = Int 4 →
     Nat.iter 3 (λ s, stateOf (onCenter env s)) st = st
     ∧ repeatMode (stateOf (onCenter env st)) =
         match repeatMode st with
         | repeat_off => repeat_all
         | repeat_all => repeat_one
         | repeat_one => repeat_off
         end)
  ∧ (selectedIndex st = Int 3 →
       Nat.iter 2 (λ s, stateOf (onCenter env s)) st = st
       ∧ playbackMode (stateOf (onCenter env st)) ≠ playbackMode st).
Proof.
  intros Hv. split; intros Hi.
  - assert (Hstep : ∀ s, view s = now_playing → selectedIndex s = Int 4 →
              stateOf (onCenter env s) =
              setRepeatMode match repeatMode s with
                            | repeat_off => repeat_all
                            | repeat_all => repeat_one
                            | repeat_one => repeat_off
                            end s).
    { intros s Hvs His. unfold onCenter, handleCenterClick. rewrite Hvs, His.
      unfold handleNowPlayingSelection.
      change (atNum nowPlayingMenuItems (Int 4)) with (Some "repeat-mode").
      rewrite !decide_False by discriminate. rewrite decide_True by done.
      cbn. rewrite commit_same_view by done. cbn.
      unfold updRepeatMode. cbn. f_equal. by apply setSelectedIndex_id. }
    split; [|by rewrite Hstep].
    change (Nat.iter 3 (λ s, stateOf (onCenter env s)) st)
      with (stateOf (onCenter env (stateOf (onCenter env (stateOf (onCenter env st)))))).
    rewrite (Hstep st Hv Hi).
    rewrite (Hstep (setRepeatMode _ st) Hv Hi).
    rewrite (Hstep (setRepeatMode _ (setRepeatMode _ st)) Hv Hi).
    destruct (repeatMode st) eqn:Hm; cbn;
      (etransitivity; [|exact (setRepeatMode_id st _ Hm)]); reflexivity.
  - assert (Hstep : ∀ s, view s = now_playing → selectedIndex s = Int 3 →
              stateOf (onCenter env s) =
              setPlaybackMode match playbackMode s with
                              | video => audio
                              | audio => video
                              end s).
    { intros s Hvs His. unfold onCenter, handleCenterClick. rewrite Hvs, His.
      unfold handleNowPlayingSelection.
      change (atNum nowPlayingMenuItems (Int 3)) with (Some "playback-mode").
      rewrite !decide_False by discriminate. rewrite decide_True by done.
      cbn. rewrite commit_same_view by done. cbn.
      unfold updPlaybackMode. cbn. f_equal. by apply setSelectedIndex_id. }
    split.
    + change (Nat.iter 2 (λ s, stateOf (onCenter env s)) st)
        with (stateOf (onCenter env (stateOf (onCenter env st)))).
      rewrite (Hstep st Hv Hi).
      rewrite (Hstep (setPlaybackMode _ st) Hv Hi).
      destruct (playbackMode st) eqn:Hm; cbn;
        (etransitivity; [|exact (setPlaybackMode_id st _ Hm)]); reflexivity.
    + rewrite Hstep by done. cbn. by destruct (playbackMode st).
Qed.

Lemma repeat_and_playback_mode_cycle_witness :
  let st := setSelectedIndex (Int 4) nowPlayingA in
  Nat.iter 3 (λ s, stateOf (onCenter sampleEnv s)) st = st
  ∧ repeatMode (stateOf (onCenter sampleEnv st)) = repeat_all.
Proof.
  intros st.
  exact (proj1 (repeat_and_playback_mode_cycle sampleEnv st eq_refl) eq_refl).
Defined.

(** ** The menu button *)

Lemma onMenu_playlists st : playlists (onMenu st) = playlists st.
Proof.
  unfold onMenu. rewrite playlists_commit. unfold exec, handleMenu.
  destruct (view st); repeat first [case_decide | case_match]; reflexivity.
Qed.

(** One press brings the view at least one level closer to the root. *)
Lemma onMenu_depth st :
  playlists st ≠ [] →
  (menuDepth (view (onMenu st)) ≤ menuDepth (view st) - 1)%nat.
Proof.
  intros Hps.
  assert (0 < len (playlists st)).
  { unfold len. destruct (playlists st); [done|cbn; lia]. }
  unfold onMenu, exec, handleMenu, commit.
  destruct (view st) eqn:Hv;
    repeat first [case_decide | case_match]; cbn; try lia;
    rewrite ?Hv; cbn; try lia.
  all: match goal with Hn : ¬ (_ ∧ _) |- _ => destruct Hn; by split end.
Qed.

Lemma iter_onMenu_depth n st :
  playlists st ≠ [] →
  (menuDepth (view (Nat.iter n onMenu st)) ≤ menuDepth (view st) - n)%nat
  ∧ playlists (Nat.iter n onMenu st) = playlists st.
Proof.
  intros Hps. induction n as [|n [IHd IHp]]; [cbn; split; [lia|done]|].
  rewrite Nat.iter_succ. split.
  - pose proof (onMenu_depth (Nat.iter n onMenu st)) as Hd.
    rewrite IHp in Hd. specialize (Hd Hps). lia.
  - by rewrite onMenu_playlists.
Qed.

(** X13. With at least one playlist, four presses of the menu button lead
    from any view to the root menu, with the first entry selected and the
    playlists untouched. *)
Theorem menu_leads_to_root st :
  playlists st ≠ [] →
  view (Nat.iter 4 onMenu st) = main_menu
  ∧ selectedIndex (Nat.iter 4 onMenu st) = Int 0
  ∧ playlists (Nat.iter 4 onMenu st) = playlists st.
Proof.
  intros Hps. destruct (iter_onMenu_depth 4 st Hps) as [Hd Hp].
  split; [|split; [|exact Hp]].
  - assert (menuDepth (view st) ≤ 4)%nat by (destruct (view st); cbn; lia).
    destruct (view (Nat.iter 4 onMenu st)); cbn in Hd; (done || lia).
  - rewrite Nat.iter_succ. apply onMenu_index.
Qed.

(** From the confirmation of a song's deletion, the deepest view. *)
Lemma menu_leads_to_root_witness :
  let st := stateOf (onCenter sampleEnv
                       (setView delete_song_confirm songMenuOfA)) in
  view st = song_menu ∧ view (Nat.iter 4 onMenu st) = main_menu.
Proof.
  intros st. split; [by vm_compute|].
  exact (proj1 (menu_leads_to_root st ltac:(by vm_compute))).
Defined.

(** ** The search box of the list of playlists *)

Lemma prefix_spec sub s : String.prefix sub s = true ↔ ∃ post, s = sub +:+ post.
Proof.
  revert sub. induction s as [|d s IH]; intros [|c sub]; cbn.
  - split; [by exists ""|done].
  - split; [done|intros [post H]; discriminate].
  - split; [intros _; by eexists|done].
  - destruct (ascii_dec c d) as [->|Hne].
    + rewrite IH. split; intros [post H]; exists post; [by rewrite H|by injection H].
    + split; [done|]. intros [post H]. injection H. congruence.
Qed.

(** [s.includes(sub)] holds exactly when [sub] is a contiguous part of [s]. *)
Lemma includes_substring s sub : includes s sub = true ↔ substring sub s.
Proof.
  unfold substring. induction s as [|c s IH]; cbn [includes].
  - rewrite orb_false_r, prefix_spec. split.
    + intros [post H]. by exists "", post.
    + intros (pre & post & H). destruct pre; [by exists post|discriminate].
  - rewrite orb_true_iff, prefix_spec, IH. split.
    + intros [[post H]|(pre & post & H)].
      * by exists "", post.
      * exists (String c pre), post. cbn. by rewrite H.
    + intros (pre & post & H). destruct pre as [|c' pre]; cbn in H.
      * left. by exists post.
      * right. injection H as -> H. by exists pre, post.
Qed.

Lemma includes_empty s : includes s "" = true.
Proof. by destruct s. Qed.

(** The list shown is the filtered one whatever the query: the empty query
    is part of every name. *)
Lemma playlistItems_filter st :
  playlistItems st =
  filter (λ p, includes (toLowerCase (pl_name p))
                        (toLowerCase (playlistSearchQuery st)) = true)
         (playlists st).
Proof.
  unfold playlistItems. case_decide as Hq; [|done]. rewrite Hq. cbn.
  induction (playlists st) as [|p ps IH]; [done|].
  rewrite filter_cons, decide_True by apply includes_empty. by f_equal.
Qed.

(** X14. The list of playlists shows, in the order of the collection,
    exactly the playlists whose name in lower case contains the query in
    lower case (every playlist when the query is empty). *)
Theorem search_shows_the_matching_playlists st :
  playlistItems st `sublist_of` playlists st
  ∧ ∀ p, p ∈ playlistItems st ↔
         p ∈ playlists st
         ∧ substring (toLowerCase (playlistSearchQuery st))
                     (toLowerCase (pl_name p)).
Proof.
  rewrite playlistItems_filter. split; [apply sublist_filter|].
  intros p. rewrite list_elem_of_filter, includes_substring. tauto.
Qed.

(** X15. Two queries that differ only in the case of their letters show the
    same playlists. *)
Theorem search_ignores_case st q q' :
  toLowerCase q = toLowerCase q' →
  playlistItems (setPlaylistSearchQuery q st) =
  playlistItems (setPlaylistSearchQuery q' st).
Proof. intros H. rewrite !playlistItems_filter. cbn. by rewrite H. Qed.

Lemma search_ignores_case_witness :
  let st := initialState [playlistA; playlistZ] in
  playlistItems (setPlaylistSearchQuery "Z" st) = [playlistZ]
  ∧ playlistItems (setPlaylistSearchQuery "Z" st) =
    playlistItems (setPlaylistSearchQuery "z" st).
Proof.
  intros st. split; [by vm_compute|].
  apply (search_ignores_case st "Z" "z"). reflexivity.
Defined.

(** X16. Typing a different text into the search box stores it as the
    query and puts the selection on the first entry shown, which always
    exists (the entry that creates a playlist is never filtered out), so a
    press of the centre button then does not throw.  The playlists are
    untouched. *)
Theorem typing_a_query_selects_the_first_entry env st text :
  view st = playlists_view →
  text ≠ playlistSearchQuery st →
  playlistSearchQuery (onSearchChange text st) = text
  ∧ selectedIndex (onSearchChange text st) = Int 0
  ∧ playlists (onSearchChange text st) = playlists st
  ∧ is_Some (atNum (playlistMenuItems (onSearchChange text st))
                   (selectedIndex (onSearchChange text st)))
  ∧ ∃ st', onCenter env (onSearchChange text st) = Ok st'.
Proof.
  intros Hv Hq. unfold onSearchChange. rewrite decide_True by done.
  unfold commit. rewrite decide_True by (cbn; split; [done|right; congruence]).
  split; [done|]. split; [done|]. split; [done|].
  set (st1 := setSelectedIndex _ _).
  assert (Hitem : is_Some (atNum (playlistMenuItems st1) (Int 0))).
  { unfold playlistMenuItems. by destruct (playlistItems st1). }
  split; [exact Hitem|].
  destruct Hitem as [p Hp].
  unfold onCenter, handleCenterClick.
  change (view st1) with (view st). rewrite Hv.
  unfold handlePlaylistsSelection.
  change (selectedIndex st1) with (Int 0). rewrite Hp. by eexists.
Qed.

Lemma typing_a_query_selects_the_first_entry_witness :
  let st := setSelectedIndex (Int 2)
              (setView playlists_view (initialState [playlistA; playlistZ])) in
  playlistMenuItems (onSearchChange "z" st) !! 0%nat = Some playlistZ
  ∧ selectedIndex (onSearchChange "z" st) = Int 0.
Proof.
  intros st. split; [by vm_compute|].
  destruct (typing_a_query_selects_the_first_entry sampleEnv st "z" eq_refl)
    as (_ & Hi & _); [discriminate|exact Hi].
Defined.

(** ** Deleting a playlist *)

Lemma findPlaylist_filter_out pid ps :
  findPlaylist (Some pid) (filter (λ p, pl_id p ≠ pid) ps) = None.
Proof.
  unfold findPlaylist. apply fmap_None, list_find_None, Forall_forall.
  intros p [Hp _]%list_elem_of_filter [= E]. done.
Qed.

Lemma findPlaylist_filter_other pid pid' ps :
  pid' ≠ pid →
  findPlaylist (Some pid') (filter (λ p, pl_id p ≠ pid) ps) =
  findPlaylist (Some pid') ps.
Proof.
  intros Hne. unfold findPlaylist. induction ps as [|p ps IH]; [done|].
  rewrite filter_cons. case_decide as Hp.
  - cbn. case_decide; [done|].
    destruct (list_find _ (filter _ ps)) as [[??]|], (list_find _ ps) as [[??]|];
      cbn in *; congruence.
  - cbn. rewrite decide_False by congruence.
    destruct (list_find _ (filter _ ps)) as [[??]|], (list_find _ ps) as [[??]|];
      cbn in *; congruence.
Qed.

(** X17. 'Yes' on the confirmation of a playlist's deletion removes the
    playlists with the staged id and no other, and shows the list of
    playlists with its first entry selected.  The active playlist id and the
    now-playing pointer are left as they were: when they name the deleted
    playlist there is no active playlist and no current song afterwards. *)
Theorem delete_playlist_confirmed env st pid :
  view st = delete_playlist_confirm →
  selectedIndex st = Int 1 →
  playlistToDeleteId st = Some pid →
  pid ≠ "" →
  ∃ st', onCenter env st = Ok st'
    ∧ playlists st' = filter (λ p, pl_id p ≠ pid) (playlists st)
    ∧ findPlaylist (Some pid) (playlists st') = None
    ∧ (∀ pid', pid' ≠ pid →
         findPlaylist (Some pid') (playlists st') =
         findPlaylist (Some pid') (playlists st))
    ∧ view st' = playlists_view
    ∧ selectedIndex st' = Int 0
    ∧ playlistToDeleteId st' = None
    ∧ activePlaylistId st' = activePlaylistId st
    ∧ nowPlaying st' = nowPlaying st
    ∧ (activePlaylistId st = Some pid → activePlaylist st' = None)
    ∧ (∀ np, nowPlaying st = Some np → playlistId np = Some pid →
         currentSong st' = None).
Proof.
  intros Hv Hi Hdel Hpid.
  unfold onCenter, handleCenterClick. rewrite Hv, Hi.
  unfold handleConfirmation. rewrite decide_True by done. rewrite Hv.
  unfold handleDeletePlaylist. rewrite Hdel. cbn [truthy].
  rewrite decide_False by done.
  eexists. split; [reflexivity|].
  unfold commit. rewrite decide_True by (cbn; split; [done|left; by rewrite Hv]).
  cbn -[filter findPlaylist].
  split; [done|]. split; [apply findPlaylist_filter_out|].
  split; [intros pid' Hne; by apply findPlaylist_filter_other|].
  do 5 (split; [done|]). split.
  - intros Ha. unfold activePlaylist. cbn -[filter findPlaylist].
    rewrite Ha. apply findPlaylist_filter_out.
  - intros np Hnp Hid. unfold currentSong. cbn -[filter findPlaylist].
    rewrite Hnp. cbn -[filter findPlaylist]. rewrite Hid.
    by rewrite findPlaylist_filter_out.
Qed.

(** "A" is playing and open when its deletion is confirmed. *)
Lemma delete_playlist_confirmed_witness :
  let st := setSelectedIndex (Int 1)
              (setPlaylistToDeleteId (Some "1")
                 (setView delete_playlist_confirm
                    (setActivePlaylistId (Some "1") nowPlayingA))) in
  currentSong st = Some (song "s1")
  ∧ ∃ st', onCenter sampleEnv st = Ok st'
      ∧ playlists st' = [playlistZ]
      ∧ activePlaylistId st' = Some "1"
      ∧ activePlaylist st' = None
      ∧ currentSong st' = None.
Proof.
  intros st. split; [by vm_compute|].
  destruct (delete_playlist_confirmed sampleEnv st "1" eq_refl eq_refl eq_refl)
    as (st' & Hc & Hps & _ & _ & _ & _ & _ & Ha & _ & Hact & Hcur);
    [discriminate|].
  exists st'. split; [exact Hc|]. split; [by rewrite Hps|].
  split; [by rewrite Ha|]. split; [by apply Hact|].
  by apply (Hcur {| playlistId := Some "1"; songIndex := Some 0 |}).
Defined.

(** ** Creating a playlist *)

Lemma findPlaylist_unique pid ps p :
  p ∈ ps → pl_id p = pid →
  (∀ q, q ∈ ps → pl_id q = pid → q = p) →
  findPlaylist (Some pid) ps = Some p.
Proof.
  intros Hin Hid Huniq. unfold findPlaylist.
  destruct (list_find_elem_of (λ q, Some (pl_id q) = Some pid) ps p)
    as [[k q] Hq]; [done|by rewrite Hid|].
  rewrite Hq. cbn. f_equal.
  apply list_find_Some in Hq as (Hk & [= Hq] & _).
  apply Huniq; [by eapply list_elem_of_lookup_2|done].
Qed.

(** X18. A playlist created under a name that is not blank, at a time stamp
    that is not yet an id: with a song staged, the new playlist holds that
    song and is opened, the selection on the first entry of its contents
    (the shuffle entry); without one, the list of playlists is shown with
    its first entry selected and the new, empty playlist is in the
    collection.  The name typed and the staged song are cleared. *)
Theorem playlist_created env st :
  view st = create_playlist_input →
  trim (newPlaylistName st) ≠ "" →
  now env ∉ playlistIds st →
  ∃ st', onCenter env st = Ok st'
    ∧ (∀ s, tempSong st = Some s →
         view st' = playlist_view
         ∧ activePlaylist st' =
             Some {| pl_id := now env; pl_name := newPlaylistName st;
                     pl_songs := [s] |}
         ∧ getPlaylistViewItems st' = [SHUFFLE_PLAYLIST; s; DELETE_PLAYLIST]
         ∧ selectedIndex st' = Int 0)
    ∧ (tempSong st = None →
         view st' = playlists_view
         ∧ selectedIndex st' = Int 0
         ∧ findPlaylist (Some (now env)) (playlists st') =
             Some {| pl_id := now env; pl_name := newPlaylistName st;
                     pl_songs := [] |})
    ∧ tempSong st' = None
    ∧ newPlaylistName st' = "".
Proof.
  intros Hv Hname Hfresh.
  assert (Hfind : ∀ songs,
    findPlaylist (Some (now env))
      (sortBy (compareNames env)
         (playlists st ++ [{| pl_id := now env; pl_name := newPlaylistName st;
                              pl_songs := songs |}])) =
    Some {| pl_id := now env; pl_name := newPlaylistName st; pl_songs := songs |}).
  { intros songs. apply findPlaylist_unique; [|done|].
    - rewrite sortBy_Permutation. apply elem_of_app. right. by left.
    - intros q Hq Hid. rewrite sortBy_Permutation in Hq.
      apply elem_of_app in Hq as [Hq|Hq%list_elem_of_singleton]; [|done].
      destruct Hfresh. rewrite <- Hid. unfold playlistIds.
      by apply list_elem_of_fmap_2. }
  unfold onCenter, handleCenterClick. rewrite Hv.
  unfold handleCreatePlaylist. rewrite decide_False by done.
  eexists. split; [reflexivity|].
  destruct (tempSong st) as [s|] eqn:Htemp.
  - rewrite commit_same_view_other by (cbn; done).
    set (st' := batch _ st).
    assert (Hact : activePlaylist st' =
              Some {| pl_id := now env; pl_name := newPlaylistName st;
                      pl_songs := [s] |}).
    { unfold activePlaylist. subst st'. cbn -[sortBy findPlaylist]. apply Hfind. }
    split; [|split; [done|]].
    + intros s' [= <-]. split; [done|].
      split; [exact Hact|]. split; [|done].
      unfold getPlaylistViewItems. by rewrite Hact.
    + done.
  - unfold commit.
    rewrite decide_True by (cbn; split; [done|left; by rewrite Hv]).
    split; [intros s [=]|]. split; [|done].
    intros _. split; [done|]. split; [done|].
    cbn -[sortBy findPlaylist]. apply Hfind.
Qed.

(** A song is staged and the name "B" typed beside "A" and "z". *)
Lemma playlist_created_witness :
  let st := setTempSong (Some (song "s9")) (typedName [playlistA; playlistZ] "B") in
  ∃ st', onCenter sampleEnv st = Ok st'
    ∧ view st' = playlist_view
    ∧ activePlaylist st' =
        Some {| pl_id := "1700000000000"; pl_name := "B"; pl_songs := [song "s9"] |}.
Proof.
  intros st.
  destruct (playlist_created sampleEnv st eq_refl) as (st' & Hc & Hs & _).
  - by vm_compute.
  - apply (bool_decide_unpack _). by vm_compute.
  - destruct (Hs (song "s9") eq_refl) as (Hview & Hact & _).
    exists st'. split; [exact Hc|]. split; [exact Hview | exact Hact].
Defined.

(** ** Choosing a song in the contents of a playlist *)

(** X19. The centre button on a song of the open playlist shows the song
    menu, and a long press the confirmation of its deletion, for the first
    song of the playlist with the same id as the selected one: the selected
    song itself when the ids of the playlist's songs are distinct, an
    earlier copy otherwise. *)
Theorem selecting_a_song_stages_its_first_occurrence env st ap (i : nat) x :
  view st = playlist_view →
  activePlaylist st = Some ap →
  selectedIndex st = Int (Z.of_nat i + 1) →
  pl_songs ap !! i = Some x →
  song_id x ≠ "SHUFFLE_PLAYLIST" →
  song_id x ≠ "DELETE_PLAYLIST" →
  ∃ (k : nat) y,
    pl_songs ap !! k = Some y ∧ song_id y = song_id x ∧ (k ≤ i)%nat
    ∧ (∀ j z, pl_songs ap !! j = Some z → (j < k)%nat → song_id z ≠ song_id x)
    ∧ (NoDup (song_id <$> pl_songs ap) → k = i)
    ∧ view (stateOf (onCenter env st)) = song_menu
    ∧ selectedSongIndex (stateOf (onCenter env st)) = Some (Z.of_nat k)
    ∧ view (onCenterLongPress st) = delete_song_confirm
    ∧ selectedSongIndex (onCenterLongPress st) = Some (Z.of_nat k).
Proof.
  intros Hv Hap Hi Hx Hshuffle Hdelete.
  pose proof (lookup_lt_Some _ _ _ Hx) as Hlt.
  assert (Hitem : atNum (getPlaylistViewItems st) (Int (Z.of_nat i + 1)) = Some x).
  { unfold getPlaylistViewItems. rewrite Hap.
    rewrite decide_True by (unfold len; lia).
    unfold atNum, atZ. rewrite decide_False by lia.
    replace (Z.to_nat (Z.of_nat i + 1)) with (S i) by lia. cbn.
    by apply lookup_app_l_Some. }
  destruct (list_find_elem_of (λ s, song_id s = song_id x) (pl_songs ap) x)
    as [[k y] Hfind]; [by eapply list_elem_of_lookup_2|done|].
  assert (Hidx : findSongIndex (song_id x) (pl_songs ap) = Some k).
  { unfold findSongIndex. by rewrite Hfind. }
  apply list_find_Some in Hfind as (Hk & Hy & Hmin).
  assert (Hle : (k ≤ i)%nat).
  { destruct (decide (k ≤ i)%nat) as [|Hn]; [done|].
    destruct (Hmin i x Hx); [lia|done]. }
  exists k, y. split; [exact Hk|]. split; [exact Hy|]. split; [exact Hle|].
  split; [exact Hmin|]. split.
  { intros Hnodup. eapply NoDup_lookup; [exact Hnodup| |].
    - by rewrite list_lookup_fmap, Hk.
    - rewrite list_lookup_fmap, Hx. cbn. by rewrite Hy. }
  assert (Hcenter :
    stateOf (onCenter env st) =
    batch [setSelectedIndex (Int (Z.of_nat i + 1));
           setSelectedSongIndex (Some (Z.of_nat k)); setView song_menu;
           setSelectedIndex (Int 0)] st).
  { unfold onCenter, handleCenterClick. rewrite Hv, Hi.
    unfold handlePlaylistViewSelection. rewrite Hitem, Hap.
    rewrite !decide_False by done. cbn [mbind option_bind]. rewrite Hidx.
    cbn [stateOf]. by rewrite commit_same_view_other by (cbn; done). }
  assert (Hlong :
    onCenterLongPress st =
    batch [setSelectedSongIndex (Some (Z.of_nat k));
           setView delete_song_confirm; setSelectedIndex (Int 0)] st).
  { unfold onCenterLongPress, exec, handleCenterLongPress.
    rewrite decide_True by done. rewrite Hap, Hi, Hitem.
    rewrite decide_True by done. rewrite Hidx.
    by rewrite commit_same_view_other by (cbn; done). }
  rewrite Hcenter, Hlong. done.
Qed.

(** The same song twice in a playlist: the second copy is selected, the
    first one is staged. *)
Lemma selecting_a_song_stages_its_first_occurrence_witness :
  let twice := {| pl_id := "5"; pl_name := "Twice";
                  pl_songs := [song "s0"; song "s1"; song "s0"] |} in
  let st := setSelectedIndex (Int 3) (playingFrom twice 0 repeat_off) in
  selectedSongIndex (onCenterLongPress st) = Some 0
  ∧ ∃ (k : nat), (k ≤ 2)%nat
      ∧ selectedSongIndex (onCenterLongPress st) = Some (Z.of_nat k).
Proof.
  intros twice st. split; [by vm_compute|].
  destruct (selecting_a_song_stages_its_first_occurrence sampleEnv st twice 2
              (song "s0") eq_refl eq_refl eq_refl eq_refl)
    as (k & y & _ & _ & Hle & _ & _ & _ & _ & _ & Hlong);
    [discriminate | discriminate |].
  exists k. split; [exact Hle | exact Hlong].
Defined.

(** ** A drag gesture *)

Lemma fireAll_cons env e es st :
  fireAll env (e :: es) st = fire env e st ≫= fireAll env es.
Proof.
  unfold fireAll. cbn. destruct (fire env e st); [done|]. apply fireAll_None.
Qed.

Lemma dragging_frame ap x st st' :
  view st' = view st → activePlaylistId st' = activePlaylistId st →
  playlists st' = playlists st → draggedItemIndex st' = draggedItemIndex st →
  dragging ap x st → dragging ap x st'.
Proof.
  intros Hv Ha Hp Hd. unfold dragging, activePlaylist.
  by rewrite Hv, Ha, Hp, Hd.
Qed.

(** One drag-enter during a drag: the handler never takes [undefined] out of
    the songs, and the song picked up stays under the dragged index. *)
Lemma dragEnter_dragging env ap x j st :
  dragging ap x st →
  ∃ st', fire env (DragEnter j) st = Some st' ∧ dragging ap x st'.
Proof.
  intros Hdrag. pose proof Hdrag as (Hv & ap' & d & Hap & Hid & Hname & Hperm & Hd & Hx).
  pose proof (lookup_lt_Some _ _ _ Hx) as Hlt.
  cbn [fire]. case_decide as Hj; [|by exists st].
  unfold handleDragEnter. rewrite Hd, Hap.
  case_decide as Hout.
  { eexists. split; [reflexivity|].
    rewrite commit_same_view by done. by eapply dragging_frame; [..|exact Hdrag]. }
  case_decide as Hsame.
  { eexists. split; [reflexivity|].
    rewrite commit_same_view by done. by eapply dragging_frame; [..|exact Hdrag]. }
  rewrite (splice_remove _ _ _ Hx).
  eexists. split; [reflexivity|].
  rewrite commit_same_view by done.
  set (t := Z.to_nat (dragSongIndex (Z.of_nat j) st)).
  assert (Ht : dragSongIndex (Z.of_nat j) st = Z.of_nat t) by (unfold len in *; lia).
  assert (Htlt : (t < length (pl_songs ap'))%nat) by (unfold len in *; lia).
  rewrite Ht.
  split; [done|].
  exists (withSongs ap' (moved (pl_songs ap') d t)), t.
  split.
  { unfold activePlaylist in *. cbn -[findPlaylist splice].
    rewrite findPlaylist_map by (intros q; by case_decide).
    rewrite Hap. cbn -[splice].
    apply findPlaylist_Some in Hap as [-> _].
    rewrite decide_True by done. do 2 f_equal.
    rewrite splice_insert by (rewrite length_delete by eauto; lia).
    unfold moved. by rewrite Hx. }
  split; [done|]. split; [done|].
  split; [cbn; by rewrite moved_Permutation|].
  split; [done|]. cbn. by apply moved_lookup.
Qed.

Lemma dragEnters_dragging env ap x targets st :
  dragging ap x st →
  ∃ st', fireAll env (DragEnter <$> targets) st = Some st' ∧ dragging ap x st'.
Proof.
  revert st. induction targets as [|j targets IH]; intros st Hdrag.
  - by exists st.
  - destruct (dragEnter_dragging env ap x j st Hdrag) as (st1 & Hfire & Hdrag1).
    destruct (IH st1 Hdrag1) as (st' & Hall & Hdrag').
    exists st'. split; [|done].
    rewrite fmap_cons, fireAll_cons, Hfire. exact Hall.
Qed.

(** X20. A drag gesture on a song of the open playlist: whatever items the
    dragged song enters, in whatever order, every step is defined (no
    [undefined] is put among the songs), the playlist keeps its id, its
    name and its songs up to their order, and the song picked up is the one
    at the dragged index; the end of the drag clears the drag state and
    leaves the playlists as they are. *)
Theorem drag_gesture_carries_the_song env st ap (i : nat) x targets :
  view st = playlist_view →
  activePlaylist st = Some ap →
  pl_songs ap !! i = Some x →
  ∃ st', fireAll env (DragStart (S i) :: (DragEnter <$> targets)) st = Some st'
    ∧ dragging ap x st'
    ∧ ∃ st'', fire env DragEnd st' = Some st''
        ∧ draggedItemIndex st'' = None
        ∧ dragOverIndex st'' = None
        ∧ playlists st'' = playlists st'.
Proof.
  intros Hv Hap Hx. pose proof (lookup_lt_Some _ _ _ Hx) as Hlt.
  assert (Hitems : ∀ s ap', view s = playlist_view → activePlaylist s = Some ap' →
            pl_songs ap' ≠ [] → dragItems s = (length (pl_songs ap') + 2)%nat).
  { intros s ap' Hvs Haps Hne. unfold dragItems, getPlaylistViewItems.
    rewrite decide_True by done. rewrite Haps.
    rewrite decide_True by (unfold len; destruct (pl_songs ap'); [done|cbn; lia]).
    cbn. rewrite length_app. cbn. lia. }
  assert (Hstart : ∃ st1, fire env (DragStart (S i)) st = Some st1 ∧ dragging ap x st1).
  { cbn [fire].
    rewrite decide_True
      by (rewrite (Hitems st ap Hv Hap) by (by destruct (pl_songs ap)); lia).
    eexists. split; [reflexivity|].
    rewrite commit_same_view by done.
    split; [done|]. exists ap, i.
    split; [exact Hap|]. split; [done|]. split; [done|]. split; [done|].
    split; [|done]. cbn. unfold dragSongIndex. rewrite Hap.
    rewrite decide_True by (unfold len; lia). f_equal. lia. }
  destruct Hstart as (st1 & Hfire1 & Hdrag1).
  destruct (dragEnters_dragging env ap x targets st1 Hdrag1) as (st' & Hall & Hdrag').
  exists st'. split; [by rewrite fireAll_cons, Hfire1|]. split; [done|].
  destruct Hdrag' as (Hv' & ap' & d & Hap' & _ & _ & _ & _ & Hx').
  cbn [fire].
  rewrite decide_True
    by (rewrite (Hitems st' ap' Hv' Hap') by (by destruct (pl_songs ap')); lia).
  eexists. split; [reflexivity|].
  by rewrite commit_same_view.
Qed.

(** The first of four songs is carried over the third, the fourth and back
    over the second. *)
Lemma drag_gesture_carries_the_song_witness :
  let st := playingFrom fourSongs 0 repeat_off in
  ∃ st', fireAll sampleEnv
           [DragStart 1; DragEnter 3; DragEnter 4; DragEnter 2] st = Some st'
    ∧ (pl_songs <$> activePlaylist st') =
        Some [song "s1"; song "s0"; song "s2"; song "s3"]
    ∧ dragging fourSongs (song "s0") st'.
Proof.
  intros st.
  destruct (drag_gesture_carries_the_song sampleEnv st fourSongs 0 (song "s0")
              [3; 4; 2]%nat eq_refl eq_refl eq_refl)
    as (st' & Hall & Hdrag & _).
  exists st'. split; [exact Hall|]. split; [|exact Hdrag].
  change (DragStart 1 :: (DragEnter <$> [3; 4; 2]%nat))
    with [DragStart 1; DragEnter 3; DragEnter 4; DragEnter 2] in Hall.
  assert (E : default st (fireAll sampleEnv
                [DragStart 1; DragEnter 3; DragEnter 4; DragEnter 2] st) = st')
    by (by rewrite Hall).
  rewrite <- E. by vm_compute.
Defined.

(** ** The click wheel *)

Lemma filter_other_handles (h : positive) (l : list positive) :
  Forall (λ h', (h' < h)%positive) l → filter (λ h', h' ≠ h) l = l.
Proof.
  induction 1 as [|h' l Hh' _ IH]; [done|].
  rewrite filter_cons, decide_True by lia. by f_equal.
Qed.

(** X21. A press of the centre button is a click or a long press, never
    both.  Released before its timer fires, the press cancels the timer
    (which can then no longer fire), and the click is passed on as a centre
    click.  When the timer fires first, a long press is passed on and the
    click that follows the release is swallowed.  The timers armed before
    the press are not touched. *)
Theorem press_is_a_click_or_a_long_press w :
  ClickWheel.handlesBelowNext w →
  (∃ w', ClickWheel.acts
           [ClickWheel.MouseDown; ClickWheel.MouseUp; ClickWheel.Click] w =
         Some (w', [Center])
       ∧ ClickWheel.armed w' = ClickWheel.armed w
       ∧ ClickWheel.timerFires (ClickWheel.nextHandle w) w' = None)
  ∧ (∃ w', ClickWheel.acts
             [ClickWheel.MouseDown;
              ClickWheel.TimerFires (ClickWheel.nextHandle w);
              ClickWheel.MouseUp; ClickWheel.Click] w =
           Some (w', [CenterLongPress])
         ∧ ClickWheel.armed w' = ClickWheel.armed w).
Proof.
  intros Hbelow. pose proof (filter_other_handles _ _ Hbelow) as Hfilter.
  assert (Hfresh : ClickWheel.nextHandle w ∉ ClickWheel.armed w).
  { intros Hin. unfold ClickWheel.handlesBelowNext in Hbelow.
    rewrite Forall_forall in Hbelow. specialize (Hbelow _ Hin). lia. }
  split.
  - eexists. split; [reflexivity|]. cbn -[filter].
    rewrite filter_cons, decide_False by (intros H; by apply H).
    rewrite Hfilter. split; [done|].
    unfold ClickWheel.timerFires. cbn -[filter]. by rewrite decide_False.
  - cbn -[filter]. unfold ClickWheel.timerFires. cbn -[filter].
    rewrite decide_True by apply list_elem_of_here. cbn -[filter].
    eexists. split; [reflexivity|]. cbn -[filter].
    rewrite filter_cons, decide_False by (intros H; by apply H).
    by rewrite Hfilter, Hfilter.
Qed.

Lemma press_is_a_click_or_a_long_press_witness :
  ClickWheel.acts [ClickWheel.MouseDown; ClickWheel.TimerFires 1;
                   ClickWheel.MouseUp; ClickWheel.Click] ClickWheel.initial
  = Some ({| ClickWheel.longPressTimeout := Some 1%positive;
             ClickWheel.isLongPress := true;
             ClickWheel.armed := [];
             ClickWheel.nextHandle := 2%positive |}, [CenterLongPress])
  ∧ ∃ w', ClickWheel.acts
            [ClickWheel.MouseDown; ClickWheel.MouseUp; ClickWheel.Click]
            ClickWheel.initial = Some (w', [Center]).
Proof.
  split; [reflexivity|].
  destruct (press_is_a_click_or_a_long_press ClickWheel.initial)
    as [(w' & Hclick & _) _]; [by constructor|].
  by exists w'.
Defined.

Lemma filter_handle_length (h : positive) (l : list positive) :
  h ∈ l → (length (filter (λ h', h' ≠ h) l) < length l)%nat.
Proof.
  induction 1 as [h l|h h' l _ IH].
  - rewrite filter_cons, decide_False by (intros H; by apply H).
    pose proof (length_filter (λ h', h' ≠ h) l). cbn. lia.
  - rewrite filter_cons. case_decide; cbn; lia.
Qed.

Lemma act_long_presses a w w' out :
  ClickWheel.act a w = Some (w', out) →
  (ClickWheel.longPresses out + length (ClickWheel.armed w')
   ≤ ClickWheel.presses [a] + length (ClickWheel.armed w))%nat.
Proof.
  destruct a as [| |h|]; cbn.
  - intros [= <- <-]. cbn. lia.
  - intros [= <- <-]. unfold ClickWheel.handleMouseUp.
    destruct (ClickWheel.longPressTimeout w); cbn; [|lia].
    pose proof (length_filter (λ h', h' ≠ p) (ClickWheel.armed w)). lia.
  - unfold ClickWheel.timerFires. case_decide as Hin; [|done].
    intros [= <- <-]. cbn.
    pose proof (filter_handle_length _ _ Hin). lia.
  - unfold ClickWheel.handleClick.
    destruct (ClickWheel.isLongPress w); intros [= <- <-]; cbn; lia.
Qed.

Lemma longPresses_app out out' :
  ClickWheel.longPresses (out ++ out') =
  (ClickWheel.longPresses out + ClickWheel.longPresses out')%nat.
Proof.
  induction out as [|i out IH]; [done|]. destruct i; cbn; rewrite IH; lia.
Qed.

(** X22. A timer fires at most once and only while it is armed: through any
    sequence of actions the long presses passed on, together with the
    timers still armed, are no more than the presses, together with the
    timers armed before. *)
Theorem long_presses_are_bounded_by_presses l w w' out :
  ClickWheel.acts l w = Some (w', out) →
  (ClickWheel.longPresses out + length (ClickWheel.armed w')
   ≤ ClickWheel.presses l + length (ClickWheel.armed w))%nat.
Proof.
  revert w w' out. induction l as [|a l IH]; intros w w' out; cbn [ClickWheel.acts].
  - intros [= <- <-]. cbn. lia.
  - assert (ClickWheel.presses (a :: l) =
            (ClickWheel.presses [a] + ClickWheel.presses l)%nat) as ->
      by (by destruct a).
    destruct (ClickWheel.act a w) as [[w1 out1]|] eqn:Hact; [|done].
    cbn [mbind option_bind].
    destruct (ClickWheel.acts l w1) as [[w2 out2]|] eqn:Hacts; [|done].
    cbn [mbind option_bind]. intros [= <- <-].
    pose proof (act_long_presses _ _ _ _ Hact) as H1.
    pose proof (IH _ _ _ Hacts) as H2.
    rewrite longPresses_app. lia.
Qed.

(** Two presses, the timer of the first one fires: one long press. *)
Lemma long_presses_are_bounded_by_presses_witness :
  ∃ w' out,
    ClickWheel.acts [ClickWheel.MouseDown; ClickWheel.TimerFires 1;
                     ClickWheel.MouseUp; ClickWheel.Click;
                     ClickWheel.MouseDown; ClickWheel.MouseUp; ClickWheel.Click]
                    ClickWheel.initial = Some (w', out)
    ∧ out = [CenterLongPress; Center]
    ∧ (ClickWheel.longPresses out ≤ 2)%nat.
Proof.
  eexists _, _. split; [reflexivity|]. split; [reflexivity|].
  pose proof (long_presses_are_bounded_by_presses
                [ClickWheel.MouseDown; ClickWheel.TimerFires 1;
                 ClickWheel.MouseUp; ClickWheel.Click;
                 ClickWheel.MouseDown; ClickWheel.MouseUp; ClickWheel.Click]
                ClickWheel.initial _ _ eq_refl) as H.
  cbn in H. cbn. lia.
Defined.

(** X23. Only the timer of the latest press is cancelled by a release: when
    the button is pressed twice before it is released once, the timer of
    the first press stays armed and fires, a long press is passed on after
    the release and the click is swallowed. *)
Theorem only_the_latest_press_is_cancelled w :
  ClickWheel.handlesBelowNext w →
  ∃ w', ClickWheel.acts
          [ClickWheel.MouseDown; ClickWheel.MouseDown; ClickWheel.MouseUp;
           ClickWheel.TimerFires (ClickWheel.nextHandle w); ClickWheel.Click] w
        = Some (w', [CenterLongPress])
      ∧ ClickWheel.isLongPress w' = true.
Proof.
  intros Hbelow. cbn -[filter]. unfold ClickWheel.timerFires. cbn -[filter].
  rewrite filter_cons.
  rewrite (decide_False (P := Pos.succ (ClickWheel.nextHandle w)
                              ≠ Pos.succ (ClickWheel.nextHandle w)))
    by (intros H; by apply H).
  rewrite filter_cons.
  rewrite (decide_True (P := ClickWheel.nextHandle w
                             ≠ Pos.succ (ClickWheel.nextHandle w))) by lia.
  rewrite decide_True by apply list_elem_of_here.
  cbn -[filter]. by eexists.
Qed.

Lemma only_the_latest_press_is_cancelled_witness :
  ∃ w', ClickWheel.acts
          [ClickWheel.MouseDown; ClickWheel.MouseDown; ClickWheel.MouseUp;
           ClickWheel.TimerFires 1; ClickWheel.Click] ClickWheel.initial
        = Some (w', [CenterLongPress]).
Proof.
  destruct (only_the_latest_press_is_cancelled ClickWheel.initial)
    as (w' & Hacts & _); [by constructor|].
  by exists w'.
Defined.

(** ** The first song *)

(** X24. Without playlists, the add-song view is left only by the centre
    button on a text the resolver accepts, which stages the song and asks
    for its playlist; every other event keeps the view, and no event
    creates a playlist there. *)
Theorem without_playlists_only_a_url_leaves_add_song env e st st' :
  playlists st = [] →
  view st = add_song →
  fire env e st = Some st' →
  playlists st' = []
  ∧ (view st' = add_song
     ∨ (e = Wheel Center
        ∧ view st' = select_playlist_for_song
        ∧ ∃ v, truthy (getYouTubeId env (urlInput st)) = Some v
            ∧ tempSong st' =
                Some {| song_id := v; song_title := "Song: " +:+ v |})).
Proof.
  intros Hps Hv.
  assert (Hcur : currentSong st = None).
  { unfold currentSong. destruct (nowPlaying st); [|done]. cbn. by rewrite Hps. }
  assert (Hdrag : dragItems st = 0%nat).
  { unfold dragItems. rewrite decide_False; [done|]. by rewrite Hv. }
  destruct e; cbn [fire]; rewrite ?Hdrag.
  - intros [= <-]. destruct i; cbn [step].
    + unfold onNext, exec, handleNext, handleWheel. rewrite Hv. cbn.
      rewrite commit_same_view by done. split; [done|by left].
    + unfold onPrev, exec, handlePrev, handleWheel. rewrite Hv. cbn.
      rewrite commit_same_view by done. split; [done|by left].
    + unfold onCenter, handleCenterClick. rewrite Hv.
      unfold handleAddSongUrl.
      destruct (truthy (getYouTubeId env (urlInput st))) as [v|] eqn:Hid.
      * cbn [stateOf]. rewrite commit_same_view_other by (cbn; done).
        split; [done|]. right. split; [done|]. split; [done|]. by exists v.
      * cbn. rewrite commit_same_view by done. split; [done|by left].
    + unfold onCenterLongPress, exec, handleCenterLongPress.
      rewrite decide_False by (by rewrite Hv). cbn.
      rewrite commit_same_view by done. split; [done|by left].
    + unfold onMenu, exec, handleMenu. rewrite Hv, Hps.
      rewrite decide_False by (unfold len; cbn; lia). cbn.
      unfold commit. rewrite decide_False by (cbn; rewrite Hv; intros [? _]; done).
      cbn. split; [done|by left].
  - intros [= <-]. unfold onPlayPause, exec, handlePlayPause.
    rewrite Hcur, Hps.
    destruct (ytPlayer env && isPlayerReady env);
      [destruct (playerStatePlaying env)|]; cbn;
      rewrite commit_same_view by done; (split; [done|by left]).
  - intros [= <-]. destruct (ytPlayer env); [|split; [done|by left]].
    unfold onTrackEnded, exec, handleSongEnd.
    destruct (nowPlaying st); cbn; rewrite ?Hps; cbn;
      rewrite commit_same_view by done; (split; [done|by left]).
  - intros [= <-]. destruct (ytPlayer env); [|split; [done|by left]].
    unfold onPlayerPlaying. rewrite commit_same_view by done.
    split; [done|by left].
  - intros [= <-]. destruct (ytPlayer env); [|split; [done|by left]].
    unfold onPlayerPaused. rewrite commit_same_view by done.
    split; [done|by left].
  - intros [= <-]. unfold onUrlChange. rewrite decide_True by done.
    rewrite commit_same_view by done. split; [done|by left].
  - intros [= <-]. unfold onNameChange. rewrite decide_False by (by rewrite Hv).
    split; [done|by left].
  - intros [= <-]. unfold onSearchChange. rewrite decide_False by (by rewrite Hv).
    split; [done|by left].
  - intros [= <-]. unfold onItemClick, renderedItems, viewItemsLength.
    rewrite Hv. rewrite decide_False by lia. split; [done|by left].
  - rewrite decide_False by lia. intros [= <-]. split; [done|by left].
  - rewrite decide_False by lia. intros [= <-]. split; [done|by left].
  - rewrite decide_False by lia. intros [= <-]. split; [done|by left].
  - rewrite decide_False by lia. intros [= <-]. split; [done|by left].
Qed.

(** The first render without playlists, a URL typed: only the centre button
    leads on. *)
Lemma without_playlists_only_a_url_leaves_add_song_witness :
  let st := setUrlInput "https://www.youtube.com/watch?v=abc123" (initialState []) in
  view (step sampleEnv Menu st) = add_song
  ∧ view (step sampleEnv Center st) = select_playlist_for_song.
Proof.
  intros st. split.
  - destruct (without_playlists_only_a_url_leaves_add_song sampleEnv (Wheel Menu)
                st (step sampleEnv Menu st) eq_refl eq_refl eq_refl)
      as [_ [Hview|(Hcenter & _)]]; [exact Hview | discriminate Hcenter].
  - by vm_compute.
Defined.

(** ** A second invariant: what the confirmations and now-playing rest on *)

Lemma grounded_initial ps : grounded (initialState ps).
Proof.
  unfold grounded, initialState. cbn.
  split; [by case_decide|]. split; by case_decide.
Qed.

Lemma grounded_frame st st' :
  view st' = view st → playlistToDeleteId st' = playlistToDeleteId st →
  activePlaylistId st' = activePlaylistId st → playlists st' = playlists st →
  (is_Some (nowPlaying st) → is_Some (nowPlaying st')) →
  grounded st → grounded st'.
Proof.
  intros Hv Hd Ha Hp Hn (G1 & G2 & G3).
  unfold grounded, activePlaylist in *. rewrite Hv, Hd, Ha, Hp. auto.
Qed.

Lemma grounded_plain st : needsGround (view st) = false → grounded st.
Proof.
  intros Hv. unfold grounded.
  destruct (view st); try discriminate Hv; done.
Qed.

Lemma grounded_now_playing st :
  view st = now_playing → is_Some (nowPlaying st) → grounded st.
Proof. intros Hv Hn. unfold grounded. rewrite Hv. done. Qed.

Lemma grounded_commit st st' : grounded st' → grounded (commit st st').
Proof.
  intros H. unfold commit. case_decide; [|done].
  by eapply grounded_frame; [..|exact H].
Qed.

Ltac gr_leaf H :=
  first
    [ exact H
    | eapply grounded_frame; [..|exact H]; try reflexivity;
      (intros ?; first [assumption | by eexists])
    | apply grounded_plain; reflexivity
    | apply grounded_now_playing; [reflexivity | by eexists] ].

Lemma wheel_grounded d st : grounded st → grounded (exec (handleWheel d) st).
Proof.
  intros H. unfold exec, handleWheel. destruct (view st) eqn:Hv; cbn; gr_leaf H.
Qed.

Lemma handleMenu_grounded st : grounded st → grounded (exec handleMenu st).
Proof.
  intros H. unfold exec, handleMenu.
  destruct (view st) eqn:Hv; repeat first [case_decide | case_match];
    try (apply grounded_plain; cbn; by rewrite ?Hv);
    (eapply grounded_frame; [..|exact H]; try reflexivity; by intros ?).
Qed.

Lemma handleCenterLongPress_grounded st :
  grounded st → grounded (exec handleCenterLongPress st).
Proof.
  intros H. unfold exec, handleCenterLongPress.
  repeat first [case_decide | case_match]; gr_leaf H.
Qed.

(** An entry of the contents of a playlist exists only for a playlist that
    exists; the shuffle entry and every song only when it has songs. *)
Lemma playlistViewItem st index item :
  atNum (getPlaylistViewItems st) index = Some item →
  ∃ ap, activePlaylist st = Some ap
    ∧ (song_id item ≠ "DELETE_PLAYLIST" → pl_songs ap ≠ []).
Proof.
  unfold getPlaylistViewItems.
  destruct (activePlaylist st) as [ap|].
  - intros Hitem. exists ap. split; [done|]. intros Hid Hnil.
    rewrite Hnil in Hitem. cbn in Hitem.
    destruct index as [z|]; [|done]. unfold atNum, atZ in Hitem.
    case_decide; [done|].
    destruct (Z.to_nat z) as [|[|n]]; cbn in Hitem; [|done|done].
    injection Hitem as <-. done.
  - by destruct index as [z|]; [unfold atNum, atZ; case_decide; [|rewrite lookup_nil]|].
Qed.

Lemma handlePlaylistViewSelection_grounded index st :
  grounded st → grounded (exec (handlePlaylistViewSelection index) st).
Proof.
  intros H. unfold exec, handlePlaylistViewSelection.
  destruct (atNum _ _) as [item|] eqn:Hitem; [|gr_leaf H].
  destruct (playlistViewItem _ _ _ Hitem) as (ap & Hap & Hsongs).
  case_decide as Hshuffle.
  { split; [done|]. split; [|done]. intros _. exists ap. split; [exact Hap|].
    apply Hsongs. by rewrite Hshuffle. }
  case_decide as Hdelete.
  { split; [|done]. intros _. split; [done|]. by exists ap. }
  rewrite Hap. cbn -[findSongIndex].
  destruct (findSongIndex _ _); gr_leaf H.
Qed.

Lemma currentSong_pointer st : is_Some (currentSong st) → is_Some (nowPlaying st).
Proof. unfold currentSong. destruct (nowPlaying st); [by eexists|by intros [??]]. Qed.

Lemma handleMainMenuSelection_grounded index st :
  grounded st → grounded (exec (handleMainMenuSelection index) st).
Proof.
  intros H. unfold exec, handleMainMenuSelection.
  repeat case_decide;
    first [ gr_leaf H
          | apply grounded_now_playing; [reflexivity|];
            apply currentSong_pointer;
            match goal with Hc : _ ∧ is_Some (currentSong _) |- _ => apply Hc end ].
Qed.

Lemma handlePlaylistsSelection_grounded index st :
  grounded st →
  grounded (batch (runUpdates (handlePlaylistsSelection index st)) st).
Proof.
  intros H. unfold handlePlaylistsSelection.
  destruct (atNum _ _) as [item|]; cbn [runUpdates]; [|gr_leaf H].
  case_decide; gr_leaf H.
Qed.

Lemma handleNextTrack_grounded st : grounded st → grounded (exec handleNextTrack st).
Proof.
  intros H. unfold exec, handleNextTrack.
  repeat first [case_decide | case_match]; gr_leaf H.
Qed.

Lemma handlePrevTrack_grounded env st :
  grounded st → grounded (exec (handlePrevTrack env) st).
Proof.
  intros H. unfold exec, handlePrevTrack.
  repeat first [case_decide | case_match]; gr_leaf H.
Qed.

Lemma handleSongEnd_grounded env st :
  grounded st → grounded (exec (handleSongEnd env) st).
Proof.
  intros H. unfold exec, handleSongEnd.
  repeat first [case_decide | case_match]; gr_leaf H.
Qed.

Lemma handlePlayPause_grounded env st :
  grounded st → grounded (exec (handlePlayPause env) st).
Proof.
  intros H. unfold exec, handlePlayPause.
  repeat first [case_decide | case_match]; gr_leaf H.
Qed.

Lemma handleSongMenuSelection_grounded index st :
  grounded st → grounded (exec (handleSongMenuSelection index) st).
Proof.
  intros H. unfold exec, handleSongMenuSelection. case_decide; gr_leaf H.
Qed.

Lemma handleConfirmation_grounded env index st :
  grounded st → grounded (exec (handleConfirmation env index) st).
Proof.
  intros H.
  unfold exec, handleConfirmation, handleDeleteSong, handleDeletePlaylist,
    handleShufflePlaylist.
  repeat first [case_decide | case_match]; gr_leaf H.
Qed.

Lemma handleSelectPlaylistForSongSelection_grounded index st :
  grounded st →
  grounded (batch (runUpdates (handleSelectPlaylistForSongSelection index st)) st).
Proof.
  intros H. unfold handleSelectPlaylistForSongSelection, addSongToPlaylist.
  repeat first [case_decide | case_match]; cbn [runUpdates]; gr_leaf H.
Qed.

Lemma handleNowPlayingSelection_grounded env index st :
  grounded st → grounded (exec (handleNowPlayingSelection env index) st).
Proof.
  intros H. unfold exec, handleNowPlayingSelection.
  change (batch ([setSelectedIndex index] ++ ?us) st)
    with (batch us (setSelectedIndex index st)).
  assert (H' : grounded (setSelectedIndex index st)) by gr_leaf H.
  repeat case_decide.
  - apply (handlePrevTrack_grounded env (setSelectedIndex index st) H').
  - apply (handlePlayPause_grounded env (setSelectedIndex index st) H').
  - apply (handleNextTrack_grounded (setSelectedIndex index st) H').
  - gr_leaf H.
  - gr_leaf H.
  - exact H'.
Qed.

Lemma handleAddSongUrl_grounded env st :
  grounded st → grounded (exec (handleAddSongUrl env) st).
Proof.
  intros H. unfold exec, handleAddSongUrl. destruct (truthy _); gr_leaf H.
Qed.

Lemma handleCreatePlaylist_grounded env st :
  grounded st → grounded (exec (handleCreatePlaylist env) st).
Proof.
  intros H. unfold exec, handleCreatePlaylist.
  case_decide; [done|]. destruct (tempSong st); gr_leaf H.
Qed.

Lemma handleCenterClick_grounded env st :
  grounded st → grounded (batch (runUpdates (handleCenterClick env st)) st).
Proof.
  intros H. unfold handleCenterClick.
  destruct (view st) eqn:Hv; cbn [runUpdates].
  - by apply handleMainMenuSelection_grounded.
  - by apply handlePlaylistsSelection_grounded.
  - by apply handlePlaylistViewSelection_grounded.
  - by apply handleAddSongUrl_grounded.
  - by apply handleNowPlayingSelection_grounded.
  - by apply handleSelectPlaylistForSongSelection_grounded.
  - by apply handleCreatePlaylist_grounded.
  - by apply handleSongMenuSelection_grounded.
  - by apply handleConfirmation_grounded.
  - by apply handleConfirmation_grounded.
  - by apply handleConfirmation_grounded.
  - done.
Qed.

Lemma handleItemClick_grounded env i st :
  grounded st → grounded (batch (runUpdates (handleItemClick env i st)) st).
Proof.
  intros H. unfold handleItemClick.
  destruct (view st) eqn:Hv; cbn [runUpdates].
  - by apply handleMainMenuSelection_grounded.
  - by apply handlePlaylistsSelection_grounded.
  - by apply handlePlaylistViewSelection_grounded.
  - done.
  - by apply handleNowPlayingSelection_grounded.
  - by apply handleSelectPlaylistForSongSelection_grounded.
  - done.
  - by apply handleSongMenuSelection_grounded.
  - by apply handleConfirmation_grounded.
  - by apply handleConfirmation_grounded.
  - by apply handleConfirmation_grounded.
  - done.
Qed.

Lemma handleDragEnter_grounded i st us :
  view st = playlist_view →
  handleDragEnter i st = Some us → grounded (batch us st).
Proof.
  intros Hv. unfold handleDragEnter.
  assert (Hplain : ∀ st', view st' = view st → grounded st').
  { intros st' Hst'. apply grounded_plain. by rewrite Hst', Hv. }
  destruct (draggedItemIndex st); [|intros [= <-]; by apply Hplain].
  destruct (activePlaylist st); [|intros [= <-]; by apply Hplain].
  case_decide; [intros [= <-]; by apply Hplain|].
  case_decide; [intros [= <-]; by apply Hplain|].
  destruct (splice _ _ _ _) as [newSongs removedList].
  destruct removedList; [done|]. intros [= <-]. by apply Hplain.
Qed.

(** Every event keeps the second invariant. *)
Lemma fire_grounded env e st st' :
  grounded st → fire env e st = Some st' → grounded st'.
Proof.
  intros H. destruct e; cbn [fire].
  - intros [= <-]. destruct i; cbn [step].
    + by apply grounded_commit, wheel_grounded.
    + by apply grounded_commit, wheel_grounded.
    + unfold onCenter.
      pose proof (handleCenterClick_grounded env st H) as Hc.
      destruct (handleCenterClick env st); by apply grounded_commit.
    + by apply grounded_commit, handleCenterLongPress_grounded.
    + by apply grounded_commit, handleMenu_grounded.
  - intros [= <-]. by apply grounded_commit, handlePlayPause_grounded.
  - intros [= <-]. destruct (ytPlayer env); [|done].
    by apply grounded_commit, handleSongEnd_grounded.
  - intros [= <-]. destruct (ytPlayer env); [|done].
    apply grounded_commit. gr_leaf H.
  - intros [= <-]. destruct (ytPlayer env); [|done].
    apply grounded_commit. gr_leaf H.
  - intros [= <-]. unfold onUrlChange. case_decide; [|done].
    apply grounded_commit. gr_leaf H.
  - intros [= <-]. unfold onNameChange. case_decide; [|done].
    apply grounded_commit. gr_leaf H.
  - intros [= <-]. unfold onSearchChange. case_decide; [|done].
    apply grounded_commit. gr_leaf H.
  - intros [= <-]. unfold onItemClick. case_decide; [|done].
    pose proof (handleItemClick_grounded env i st H) as Hc.
    destruct (handleItemClick env i st); by apply grounded_commit.
  - intros [= <-]. case_decide; [|done]. apply grounded_commit. gr_leaf H.
  - case_decide as Hi; [|by intros [= <-]].
    destruct (handleDragEnter _ st) as [us|] eqn:Hus; [|done]. intros [= <-].
    apply grounded_commit. eapply handleDragEnter_grounded; [|done].
    unfold dragItems in Hi. case_decide; [done|lia].
  - intros [= <-]. case_decide; [|done]. apply grounded_commit. gr_leaf H.
  - intros [= <-]. case_decide; [|done]. apply grounded_commit. gr_leaf H.
Qed.

Lemma handleSongEnd_from_grounded env rendered st :
  grounded st → grounded (batch (handleSongEnd env rendered) st).
Proof.
  intros H. unfold handleSongEnd.
  repeat first [case_decide | case_match]; gr_leaf H.
Qed.

Lemma Reachable_grounded st : Reachable st → grounded st.
Proof.
  induction 1 as [ps|env e st st' _ IH Hfire|env rendered st _ _ _ IH].
  - apply grounded_initial.
  - by eapply fire_grounded.
  - by apply grounded_commit, handleSongEnd_from_grounded.
Qed.

Lemma Reachable_shuffleConfirmOfA : Reachable shuffleConfirmOfA.
Proof.
  apply (Reachable_fireAll sampleEnv toShuffleConfirm
           (initialState [playlistA; playlistZ]));
    [apply Reachable_init | by vm_compute].
Qed.

Lemma Reachable_deleteConfirmOfA : Reachable deleteConfirmOfA.
Proof.
  apply (Reachable_fireAll sampleEnv toDeleteConfirm
           (initialState [playlistA; playlistZ]));
    [apply Reachable_init | by vm_compute].
Qed.

(** X25. Whenever the confirmation of a playlist's deletion is shown, the
    playlist staged for deletion is the open one, and it exists. *)
Theorem deletion_is_confirmed_for_the_open_playlist st :
  Reachable st →
  view st = delete_playlist_confirm →
  playlistToDeleteId st = activePlaylistId st ∧ is_Some (activePlaylist st).
Proof. intros H. apply (Reachable_grounded st H). Qed.

Lemma deletion_is_confirmed_for_the_open_playlist_witness :
  view deleteConfirmOfA = delete_playlist_confirm
  ∧ playlistToDeleteId deleteConfirmOfA = Some "1"
  ∧ playlistToDeleteId deleteConfirmOfA = activePlaylistId deleteConfirmOfA.
Proof.
  split; [by vm_compute|]. split; [by vm_compute|].
  exact (proj1 (deletion_is_confirmed_for_the_open_playlist deleteConfirmOfA
                  Reachable_deleteConfirmOfA eq_refl)).
Defined.

(** X26. Whenever the confirmation of a shuffle is shown, the open playlist
    exists and has at least one song. *)
Theorem shuffle_is_confirmed_for_a_playlist_with_songs st :
  Reachable st →
  view st = shuffle_confirm →
  ∃ ap, activePlaylist st = Some ap ∧ pl_songs ap ≠ [].
Proof. intros H. apply (Reachable_grounded st H). Qed.

Lemma shuffle_is_confirmed_for_a_playlist_with_songs_witness :
  view shuffleConfirmOfA = shuffle_confirm
  ∧ ∃ ap, activePlaylist shuffleConfirmOfA = Some ap ∧ pl_songs ap ≠ [].
Proof.
  split; [by vm_compute|].
  exact (shuffle_is_confirmed_for_a_playlist_with_songs shuffleConfirmOfA
           Reachable_shuffleConfirmOfA eq_refl).
Defined.



(** ** The callback of the player on the end of a track *)

(** X28. The callback that runs when a track ends is the one of the render
    in which the player was created.  When that render's pointer was on a
    track that is not the last of its playlist and the repeat mode was not
    'one', every end of a track, whatever the state then, puts the pointer
    on the successor of that render's track; the playlists and the view are
    left as they are. *)
Theorem track_end_callback_reads_the_render_of_its_player env rendered pid k p :
  nowPlaying rendered = Some {| playlistId := Some pid; songIndex := Some k |} →
  findPlaylist (Some pid) (playlists rendered) = Some p →
  0 ≤ k →
  k + 1 < len (pl_songs p) →
  repeatMode rendered ≠ repeat_one →
  ∀ st,
    nowPlaying (onTrackEndedFrom env rendered st) =
      Some {| playlistId := Some pid; songIndex := Some (k + 1) |}
    ∧ playlists (onTrackEndedFrom env rendered st) = playlists st
    ∧ view (onTrackEndedFrom env rendered st) = view st.
Proof.
  intros Hnp Hp Hk Hlast Hmode st.
  unfold onTrackEndedFrom, handleSongEnd. rewrite Hnp.
  cbn [playlistId songIndex]. rewrite Hp.
  rewrite decide_False by lia.
  change (toNumber (Some k)) with k.
  destruct (repeatMode rendered); [|done|].
  - rewrite decide_True by lia.
    rewrite commit_same_view by done. done.
  - rewrite Z.rem_small by lia.
    rewrite commit_same_view by done. done.
Qed.

(** A player created on the first of three tracks: the first end leads to
    the second track, and so does the next one. *)
Lemma track_end_callback_reads_the_render_of_its_player_witness :
  let rendered := playingFrom threeSongs 0 repeat_off in
  let st1 := onTrackEndedFrom sampleEnv rendered rendered in
  nowPlaying st1 = Some {| playlistId := Some "3"; songIndex := Some 1 |}
  ∧ nowPlaying (onTrackEndedFrom sampleEnv rendered st1) =
      Some {| playlistId := Some "3"; songIndex := Some 1 |}.
Proof.
  intros rendered st1.
  pose proof (track_end_callback_reads_the_render_of_its_player sampleEnv
                rendered "3" 0 threeSongs eq_refl eq_refl) as H.
  split; [apply (H ltac:(lia) ltac:(by vm_compute) ltac:(discriminate) rendered)|].
  apply (H ltac:(lia) ltac:(by vm_compute) ltac:(discriminate) st1).
Defined.

(** ** Deleting the song the confirmation names *)



(** ** Opening a playlist *)

Lemma playlist_of_id ps p q :
  NoDup (pl_id <$> ps) → p ∈ ps → q ∈ ps → pl_id q = pl_id p → q = p.
Proof.
  intros Hnodup [i Hi]%list_elem_of_lookup_1 [j Hj]%list_elem_of_lookup_1 Hid.
  assert (i = j) as ->.
  { eapply NoDup_lookup; [exact Hnodup| |].
    - by rewrite list_lookup_fmap, Hi.
    - rewrite list_lookup_fmap, Hj. cbn. by rewrite Hid. }
  congruence.
Qed.

(** X30. The centre button on a playlist of the list, filtered or not, opens
    it: its id becomes the active one, the contents view is shown with its
    first entry selected, and the search text is cleared.  When the ids of
    the playlists are distinct the active playlist is the selected one. *)
Theorem centre_opens_the_selected_playlist env st (i : nat) p :
  view st = playlists_view →
  selectedIndex st = Int (Z.of_nat i) →
  playlistItems st !! i = Some p →
  pl_id p ≠ "CREATE_NEW" →
  ∃ st', onCenter env st = Ok st'
    ∧ view st' = playlist_view
    ∧ activePlaylistId st' = Some (pl_id p)
    ∧ playlistSearchQuery st' = ""
    ∧ selectedIndex st' = Int 0
    ∧ playlists st' = playlists st
    ∧ (NoDup (playlistIds st) → activePlaylist st' = Some p).
Proof.
  intros Hv Hi Hp Hid.
  assert (Hitem : atNum (playlistMenuItems st) (Int (Z.of_nat i)) = Some p).
  { unfold atNum, atZ, playlistMenuItems. rewrite decide_False by lia.
    rewrite Nat2Z.id. by apply lookup_app_l_Some. }
  unfold onCenter, handleCenterClick. rewrite Hv, Hi.
  unfold handlePlaylistsSelection. rewrite Hitem.
  rewrite decide_False by done.
  eexists. split; [reflexivity|].
  rewrite commit_same_view_other by (cbn; done).
  do 5 (split; [done|]).
  intros Hnodup. unfold activePlaylist. cbn -[findPlaylist].
  assert (Hin : p ∈ playlists st).
  { apply list_elem_of_lookup_2 in Hp. rewrite playlistItems_filter in Hp.
    by apply list_elem_of_filter in Hp as [_ Hp]. }
  apply findPlaylist_unique; [done|done|].
  intros q Hq Hqid. by apply (playlist_of_id (playlists st)).
Qed.

(** "z" is the only match of the query "Z" and is opened from index 0. *)
Lemma centre_opens_the_selected_playlist_witness :
  let st := onSearchChange "Z"
              (setView playlists_view (initialState [playlistA; playlistZ])) in
  ∃ st', onCenter sampleEnv st = Ok st'
    ∧ activePlaylist st' = Some playlistZ
    ∧ playlistSearchQuery st' = "".
Proof.
  intros st.
  destruct (centre_opens_the_selected_playlist sampleEnv st 0 playlistZ
              eq_refl eq_refl)
    as (st' & Hc & _ & _ & Hq & _ & _ & Hact); [by vm_compute|discriminate|].
  exists st'. split; [exact Hc|]. split; [|exact Hq].
  apply Hact. apply (bool_decide_unpack _). by vm_compute.
Defined.
